(** * CardSnaply: text-to-contact inference and vCard codec

    A shallow embedding of the JavaScript sources
      - web    : OCRProcessor (cleanText, classifyLine, normalizeFields,
                 extractContactInfo) and VCardHandler (escape, unescape,
                 generate, parse);
      - mobile : ContactParser (same four methods) and VCardHandler.

    JavaScript strings are sequences of UTF-16 code units: they are
    modelled as [list N].  Regular expressions are embedded as a small
    syntax with a backtracking matcher that follows the ECMAScript
    semantics of the constructs the sources use (greedy bounded and
    unbounded repetition of a character class, sequence, ordered
    alternation, [\b], [^], [$], capture marks).  The [lastIndex] slot of
    the four [/g] patterns held by the parser object is explicit state. *)

From Stdlib Require Import NArith ZArith Ascii String List Bool Lia.
From stdpp Require Import base option list gmap strings fin_maps.
Import ListNotations.

Local Open Scope N_scope.
Local Open Scope list_scope.

(** ** Code units and character classes *)

Abbreviation jstr := (list N).

(** An ASCII literal of the source, as code units. *)
Definition str (s : string) : jstr :=
  List.map N_of_ascii (list_ascii_of_string s).

Definition in_range (lo hi c : N) : bool := (lo <=? c) && (c <=? hi).
Definition is_char (x c : N) : bool := (c =? x).
Definition one_of (xs : list N) (c : N) : bool := existsb (N.eqb c) xs.

Definition is_digit (c : N) : bool := in_range 48 57 c.        (* \d *)
Definition is_upper (c : N) : bool := in_range 65 90 c.        (* [A-Z] *)
Definition is_lower (c : N) : bool := in_range 97 122 c.       (* [a-z] *)
Definition is_alnum (c : N) : bool := is_upper c || is_lower c || is_digit c.
Definition is_word (c : N) : bool := is_alnum c || is_char 95 c.  (* \w *)
Definition is_ascii (c : N) : bool := c <=? 127.               (* [\x00-\x7F] *)

(** [\s]: WhiteSpace and LineTerminator of ECMAScript. *)
Definition is_space (c : N) : bool :=
  in_range 9 13 c || one_of [32; 160; 5760; 8232; 8233; 8239; 8287; 12288; 65279] c
  || in_range 8192 8202 c.

(** The characters [.] refuses (no [s] flag). *)
Definition is_line_terminator (c : N) : bool := one_of [10; 13; 8232; 8233] c.

(** ** String methods *)

Fixpoint trimStart (s : jstr) : jstr :=
  match s with
  | c :: r => if is_space c then trimStart r else s
  | [] => []
  end.

Fixpoint trimEnd (s : jstr) : jstr :=
  match s with
  | [] => []
  | c :: r =>
      match trimEnd r with
      | [] => if is_space c then [] else [c]
      | r' => c :: r'
      end
  end.

Definition trim (s : jstr) : jstr := trimEnd (trimStart s).

Definition jstr_eqb (a b : jstr) : bool := bool_decide (a = b).

Fixpoint startsWith (s p : jstr) : bool :=
  match p, s with
  | [], _ => true
  | x :: p', c :: s' => (c =? x) && startsWith s' p'
  | _ :: _, [] => false
  end.

Fixpoint includes (s p : jstr) : bool :=
  startsWith s p || match s with [] => false | _ :: s' => includes s' p end.

(** [s.substring(a, b)] for [a <= b]. *)
Definition substring (a b : nat) (s : jstr) : jstr := take (b - a) (drop a s).

(** [toLowerCase] / [toUpperCase].  The ASCII letters are mapped; of the
    other code units, the ones whose Unicode mapping yields ASCII letters
    are listed (Kelvin sign and dotted capital I for lower case; sharp s,
    dotless i, long s, the Latin ligatures and the letters with a
    combining-mark expansion for upper case).  Every remaining code unit
    maps to code units above 127 in the runtime and is left as it is here:
    the sources only compare the results with ASCII keys and keywords. *)
Definition lower_cu (c : N) : jstr :=
  if is_upper c then [c + 32]
  else if c =? 8490 then [107]
  else if c =? 304 then [105; 775]
  else [c].

Definition upper_cu (c : N) : jstr :=
  if is_lower c then [c - 32]
  else if c =? 223 then [83; 83]
  else if c =? 305 then [73]
  else if c =? 383 then [83]
  else if c =? 329 then [700; 78]
  else if c =? 496 then [74; 780]
  else if c =? 7830 then [72; 817]
  else if c =? 7831 then [84; 776]
  else if c =? 7832 then [87; 778]
  else if c =? 7833 then [89; 778]
  else if c =? 7834 then [65; 702]
  else if c =? 64256 then [70; 70]
  else if c =? 64257 then [70; 73]
  else if c =? 64258 then [70; 76]
  else if c =? 64259 then [70; 70; 73]
  else if c =? 64260 then [70; 70; 76]
  else if c =? 64261 then [83; 84]
  else if c =? 64262 then [83; 84]
  else [c].

Definition toLowerCase (s : jstr) : jstr := flat_map lower_cu s.
Definition toUpperCase (s : jstr) : jstr := flat_map upper_cu s.

(** [parts.join(sep)] *)
Fixpoint join (sep : jstr) (parts : list jstr) : jstr :=
  match parts with
  | [] => []
  | [p] => p
  | p :: ps => p ++ sep ++ join sep ps
  end.

(** [s.split(c)] for a one-character string separator. *)
Fixpoint split_char (c : N) (s : jstr) : list jstr :=
  match s with
  | [] => [[]]
  | x :: r =>
      if x =? c then [] :: split_char c r
      else match split_char c r with
           | p :: ps => (x :: p) :: ps
           | [] => [[x]]
           end
  end.

(** ** Regular expressions *)

Inductive re : Type :=
| Emp                                             (* empty pattern *)
| Cls (p : N -> bool) (lo : nat) (hi : option nat) (* [p]{lo,hi}, greedy *)
| Cat (a b : re)
| Or (a b : re)                                   (* a|b, a first *)
| Mark                                            (* a capture parenthesis *)
| WordB                                           (* \b *)
| Bos                                             (* ^ (no m flag) *)
| Eos.                                            (* $ (no m flag) *)

Definition chr (x : N) : re := Cls (is_char x) 1 (Some 1%nat).
Definition cls1 (p : N -> bool) : re := Cls p 1 (Some 1%nat).
Definition plus (p : N -> bool) : re := Cls p 1 None.
Definition opt_cls (p : N -> bool) : re := Cls p 0 (Some 1%nat).
Definition opt (r : re) : re := Or r Emp.          (* (r)? *)
Definition grp (r : re) : re := Cat Mark (Cat r Mark).
Fixpoint seq (rs : list re) : re :=
  match rs with
  | [] => Emp
  | [r] => r
  | r :: rs' => Cat r (seq rs')
  end.
Fixpoint alt (rs : list re) : re :=
  match rs with
  | [] => Cls (fun _ => false) 1 (Some 1%nat)
  | [r] => r
  | r :: rs' => Or r (alt rs')
  end.
Definition lit (s : string) : re := seq (List.map chr (str s)).
(** A literal under the [i] flag: an ASCII letter matches both cases. *)
Definition ci (x : N) : N -> bool :=
  fun c => (c =? x) || (is_lower x && (c =? x - 32)) || (is_upper x && (c =? x + 32)).
Definition lit_ci (s : string) : re := seq (List.map (fun x => cls1 (ci x)) (str s)).

Section Matcher.
Context {R : Type}.

(** A match state is the list of capture marks met so far (each the
    number of code units still ahead), the code unit just behind the
    cursor (none at the start of the input) and the input ahead. *)
Definition kont := list nat -> option N -> jstr -> option R.

Definition hi_left (hi : option nat) : bool :=
  match hi with Some O => false | _ => true end.
Definition hi_pred (hi : option nat) : option nat :=
  match hi with Some n => Some (Nat.pred n) | None => None end.

(** Greedy repetition of a class: one more code unit first, fewer on
    backtracking. *)
Fixpoint rep (p : N -> bool) (lo : nat) (hi : option nat)
    (ms : list nat) (prev : option N) (rest : jstr) (k : kont) : option R :=
  let stop := match lo with O => k ms prev rest | S _ => None end in
  match rest with
  | c :: rest' =>
      if p c && hi_left hi then
        match rep p (Nat.pred lo) (hi_pred hi) ms (Some c) rest' k with
        | Some r => Some r
        | None => stop
        end
      else stop
  | [] => stop
  end.

Definition word_behind (prev : option N) : bool :=
  match prev with Some c => is_word c | None => false end.
Definition word_ahead (rest : jstr) : bool :=
  match rest with c :: _ => is_word c | [] => false end.

Fixpoint m (r : re) (ms : list nat) (prev : option N) (rest : jstr)
    (k : kont) : option R :=
  match r with
  | Emp => k ms prev rest
  | Cls p lo hi => rep p lo hi ms prev rest k
  | Cat a b => m a ms prev rest (fun ms' prev' rest' => m b ms' prev' rest' k)
  | Or a b =>
      match m a ms prev rest k with
      | Some x => Some x
      | None => m b ms prev rest k
      end
  | Mark => k (ms ++ [length rest]) prev rest
  | WordB => if xorb (word_behind prev) (word_ahead rest) then k ms prev rest else None
  | Bos => match prev with None => k ms prev rest | Some _ => None end
  | Eos => match rest with [] => k ms prev rest | _ :: _ => None end
  end.
End Matcher.

(** One attempt at the cursor: the marks and the input left after the
    match. *)
Definition match_here (r : re) (prev : option N) (rest : jstr)
  : option (list nat * jstr) :=
  m r [] prev rest (fun ms _ rest' => Some (ms, rest')).

(** Leftmost match at or after the cursor (which stands at index [idx]):
    start index, marks, input left after the match. *)
Fixpoint scan (r : re) (prev : option N) (rest : jstr) (idx : nat)
  : option (nat * list nat * jstr) :=
  match match_here r prev rest with
  | Some (ms, rest') => Some (idx, ms, rest')
  | None =>
      match rest with
      | [] => None
      | c :: rest' => scan r (Some c) rest' (S idx)
      end
  end.

Definition last_cu (s : jstr) : option N := last s.

(** [RegExpBuiltinExec] from index [li] of [s]: start and end index. *)
Definition exec_from (r : re) (s : jstr) (li : nat) : option (nat * nat) :=
  if (length s <? li)%nat then None
  else match scan r (last_cu (take li s)) (drop li s) li with
       | Some (b, _, rest') => Some (b, (length s - length rest')%nat)
       | None => None
       end.

(** [re.test(s)] for a pattern without the [g] flag. *)
Definition re_test (r : re) (s : jstr) : bool :=
  match exec_from r s 0 with Some _ => true | None => false end.

(** [s.search(re)]: [lastIndex] is saved and restored by the runtime, so
    this is a function of [s] alone; [None] is the source's [-1]. *)
Definition search (r : re) (s : jstr) : option nat :=
  match exec_from r s 0 with Some (b, _) => Some b | None => None end.

(** The loop of [s.replace(re, rep)] and [s.match(re)] for a [g] pattern:
    successive leftmost matches, stepping one code unit after an empty
    match.  The fuel bounds the number of iterations (one per code unit
    and one more). *)
Fixpoint replace_loop (fuel : nat) (r : re) (rep : jstr)
    (prev : option N) (rest : jstr) : jstr :=
  match fuel with
  | O => rest
  | S fuel' =>
      match match_here r prev rest with
      | Some (_, rest') =>
          if (length rest' <? length rest)%nat then
            rep ++ replace_loop fuel' r rep (last_cu (take (length rest - length rest') rest)) rest'
          else
            match rest with
            | [] => rep
            | c :: t => rep ++ c :: replace_loop fuel' r rep (Some c) t
            end
      | None =>
          match rest with
          | [] => []
          | c :: t => c :: replace_loop fuel' r rep (Some c) t
          end
      end
  end.

Definition replace_all (r : re) (rep : jstr) (s : jstr) : jstr :=
  replace_loop (S (length s)) r rep None s.

(** [s.replace(re, rep)] without the [g] flag: the first match only. *)
Definition replace_first (r : re) (rep : jstr) (s : jstr) : jstr :=
  match scan r None s 0 with
  | Some (b, _, rest') => take b s ++ rep ++ rest'
  | None => s
  end.

Fixpoint match_loop (fuel : nat) (r : re) (prev : option N) (rest : jstr)
  : list jstr :=
  match fuel with
  | O => []
  | S fuel' =>
      match match_here r prev rest with
      | Some (_, rest') =>
          let found := take (length rest - length rest') rest in
          if (length rest' <? length rest)%nat then
            found :: match_loop fuel' r (last_cu found) rest'
          else
            match rest with
            | [] => [found]
            | c :: t => found :: match_loop fuel' r (Some c) t
            end
      | None =>
          match rest with
          | [] => []
          | c :: t => match_loop fuel' r (Some c) t
          end
      end
  end.

(** [s.match(re)] for a [g] pattern: [None] is [null]. *)
Definition match_all (r : re) (s : jstr) : option (list jstr) :=
  match match_loop (S (length s)) r None s with
  | [] => None
  | l => Some l
  end.

(** [s.split(re)]: the pieces between successive matches; a match that
    is empty at the end of the previous separator is skipped. *)
Fixpoint split_loop (fuel : nat) (r : re) (prev : option N) (rest : jstr)
    (piece : jstr) : list jstr :=
  match fuel with
  | O => [piece ++ rest]
  | S fuel' =>
      match rest with
      | [] => [piece]
      | c :: t =>
          match match_here r prev rest with
          | Some (_, rest') =>
              if (length rest' <? length rest)%nat then
                piece :: split_loop fuel' r
                           (last_cu (take (length rest - length rest') rest)) rest' []
              else
                match piece with
                | [] => split_loop fuel' r (Some c) t [c]
                | _ => piece :: split_loop fuel' r (Some c) t [c]
                end
          | None => split_loop fuel' r (Some c) t (piece ++ [c])
          end
      end
  end.

Definition split_re (r : re) (s : jstr) : list jstr :=
  match s with
  | [] => match match_here r None [] with Some _ => [] | None => [[]] end
  | _ => split_loop (length s) r None s []
  end.

(** ** The patterns of the parser object *)

Definition email_local (c : N) : bool := is_alnum c || one_of [46; 95; 37; 43; 45] c.
Definition email_domain (c : N) : bool := is_alnum c || one_of [46; 45] c.
Definition email_tld (c : N) : bool := is_upper c || is_char 124 c || is_lower c.
Definition phone_sep (c : N) : bool := is_space c || one_of [45; 46] c.   (* [\s\-\.] *)
Definition non_space (c : N) : bool := negb (is_space c).

(** [/\b[A-Za-z0-9._%+-]+@[A-Za-z0-9.-]+\.[A-Z|a-z]{2,}\b/g] *)
Definition re_email : re :=
  seq [WordB; plus email_local; chr 64; plus email_domain; chr 46;
       Cls email_tld 2 None; WordB].

(** [/(\+?\d{1,3}[\s\-\.]?)?\(?\d{3}\)?[\s\-\.]?\d{3}[\s\-\.]?\d{4}/g] *)
Definition re_phone : re :=
  seq [opt (grp (seq [opt_cls (is_char 43); Cls is_digit 1 (Some 3%nat); opt_cls phone_sep]));
       opt_cls (is_char 40); Cls is_digit 3 (Some 3%nat); opt_cls (is_char 41);
       opt_cls phone_sep; Cls is_digit 3 (Some 3%nat);
       opt_cls phone_sep; Cls is_digit 4 (Some 4%nat)].

(** [/(\+?\d{1,4}[\s\-\.]?)?\(?\d{2,4}\)?[\s\-\.]?\d{2,4}[\s\-\.]?\d{2,4}[\s\-\.]?\d{0,4}/g] *)
Definition re_phoneAlt : re :=
  seq [opt (grp (seq [opt_cls (is_char 43); Cls is_digit 1 (Some 4%nat); opt_cls phone_sep]));
       opt_cls (is_char 40); Cls is_digit 2 (Some 4%nat); opt_cls (is_char 41);
       opt_cls phone_sep; Cls is_digit 2 (Some 4%nat);
       opt_cls phone_sep; Cls is_digit 2 (Some 4%nat);
       opt_cls phone_sep; Cls is_digit 0 (Some 4%nat)].

(** [/https?:\/\/[^\s]+/g] *)
Definition re_url : re :=
  seq [lit "http"; opt_cls (is_char 115); lit "://"; plus non_space].

Inductive pattern := PEmail | PPhone | PPhoneAlt | PUrl.

Definition regex (p : pattern) : re :=
  match p with
  | PEmail => re_email
  | PPhone => re_phone
  | PPhoneAlt => re_phoneAlt
  | PUrl => re_url
  end.

(** ** cleanText *)

(** The two copies differ in one character class: the web source has a
    bullet (U+2022) where the mobile source has the three code units
    U+00E2, U+20AC, U+00A2. *)
Inductive variant := Web | Mobile.

Definition is_dash (c : N) : bool := in_range 8208 8213 c || one_of [8211; 8212] c.
Definition edge_keep (c : N) : bool :=               (* [a-zA-Z0-9@.\+\s\-,] *)
  is_alnum c || one_of [64; 46; 43; 45; 44] c || is_space c.
Definition edge_junk (c : N) : bool := negb (edge_keep c).
Definition garbage (v : variant) (c : N) : bool :=    (* [{}>\])(_+=•|\\/~] *)
  one_of [123; 125; 62; 93; 41; 40; 95; 43; 61] c
  || match v with Web => one_of [8226] c | Mobile => one_of [226; 8364; 162] c end
  || one_of [124; 92; 47; 126] c.
Definition dash_or_underscore (c : N) : bool := one_of [45; 95] c.   (* [-_] *)
Definition non_ascii (c : N) : bool := negb (is_ascii c).
Definition final_keep (c : N) : bool :=               (* [\w\s@.+,\-] *)
  is_word c || is_space c || one_of [64; 46; 43; 44; 45] c.
Definition final_drop (c : N) : bool := negb (final_keep c).

Definition re_dash : re := cls1 is_dash.
Definition re_edges : re := Or (Cat Bos (plus edge_junk)) (Cat (plus edge_junk) Eos).
Definition re_garbage (v : variant) : re := plus (garbage v).
Definition re_dashes : re := Cls dash_or_underscore 2 None.
Definition re_spaces : re := Cls is_space 2 None.
Definition re_non_ascii : re := plus non_ascii.
Definition re_final : re := cls1 final_drop.

Definition cleanText (v : variant) (text : jstr) : jstr :=
  match text with
  | [] => []                                           (* if (!text) return '' *)
  | _ =>
      let s1 := replace_all re_dash (str "-") text in
      let s2 := replace_all re_edges [] s1 in
      let s3 := replace_all (re_garbage v) (str " ") s2 in
      let s4 := replace_all re_dashes (str " ") s3 in
      let s5 := replace_all re_spaces (str " ") s4 in
      let s6 := replace_all re_non_ascii (str " ") s5 in
      let s7 := replace_all re_final (str " ") s6 in
      let s8 := replace_all re_spaces (str " ") s7 in
      trim s8
  end.

(** ** Values, objects, exceptions, parser state *)

Inductive jsval : Type :=
| JUndefined
| JNull
| JStr (s : jstr).

Global Instance jsval_eq_dec : EqDecision jsval.
Proof. solve_decision. Defined.

(** [!v] is false exactly for a non-empty string. *)
Definition truthy (v : jsval) : bool :=
  match v with JStr (_ :: _) => true | _ => false end.

(** Reading a property: an absent one reads as [undefined]. *)
Definition get (o : gmap string jsval) (k : string) : jsval :=
  default JUndefined (o !! k).

(** [a[i]] on an array of strings. *)
Definition elem (a : list jstr) (i : nat) : jsval :=
  match a !! i with Some s => JStr s | None => JUndefined end.

Inductive outcome (A : Type) : Type :=
| Ok (a : A)
| Throw (err : string).
Arguments Ok {A} a.
Arguments Throw {A} err.

Definition obind {A B} (c : outcome A) (f : A -> outcome B) : outcome B :=
  match c with Ok a => f a | Throw e => Throw e end.

Notation "'let!' x ':=' c 'in' k" := (obind c (fun x => k))
  (at level 10, x name, c at level 100, k at level 200).

(** Calling a string method on a value: a [TypeError] unless it is a
    string. *)
Definition as_str (v : jsval) : outcome jstr :=
  match v with
  | JStr s => Ok s
  | _ => Throw "TypeError"
  end.

(** The [lastIndex] of the four [g] patterns of [this.patterns]. *)
Record RegExpState : Type := {
  li_email : nat;
  li_phone : nat;
  li_phoneAlt : nat;
  li_url : nat
}.

Definition fresh : RegExpState :=
  {| li_email := 0; li_phone := 0; li_phoneAlt := 0; li_url := 0 |}.

Definition lastIndex (p : pattern) (st : RegExpState) : nat :=
  match p with
  | PEmail => li_email st
  | PPhone => li_phone st
  | PPhoneAlt => li_phoneAlt st
  | PUrl => li_url st
  end.

Definition set_lastIndex (p : pattern) (i : nat) (st : RegExpState) : RegExpState :=
  match p with
  | PEmail => {| li_email := i; li_phone := li_phone st; li_phoneAlt := li_phoneAlt st; li_url := li_url st |}
  | PPhone => {| li_email := li_email st; li_phone := i; li_phoneAlt := li_phoneAlt st; li_url := li_url st |}
  | PPhoneAlt => {| li_email := li_email st; li_phone := li_phone st; li_phoneAlt := i; li_url := li_url st |}
  | PUrl => {| li_email := li_email st; li_phone := li_phone st; li_phoneAlt := li_phoneAlt st; li_url := i |}
  end.

(** Computations of the parser object: they read and write the pattern
    state and may throw. *)
Definition M (A : Type) : Type := RegExpState -> outcome A * RegExpState.

Definition ret {A} (a : A) : M A := fun st => (Ok a, st).
Definition bind {A B} (c : M A) (f : A -> M B) : M B :=
  fun st => match c st with
            | (Ok a, st') => f a st'
            | (Throw e, st') => (Throw e, st')
            end.
Definition lift {A} (c : outcome A) : M A := fun st => (c, st).

Notation "'let*' x ':=' c 'in' k" := (bind c (fun x => k))
  (at level 10, x name, c at level 100, k at level 200).

(** [a || b] on computations of booleans. *)
Definition orM (a b : M bool) : M bool :=
  let* x := a in if x then ret true else b.

Fixpoint mapM {A B} (f : A -> M B) (l : list A) : M (list B) :=
  match l with
  | [] => ret []
  | x :: l' => let* y := f x in let* ys := mapM f l' in ret (y :: ys)
  end.

(** [this.patterns.p.test(s)]: the search starts at [lastIndex], which
    becomes the end of the match, or 0 when there is none. *)
Definition test_g (p : pattern) (s : jstr) : M bool :=
  fun st => match exec_from (regex p) s (lastIndex p st) with
            | Some (_, e) => (Ok true, set_lastIndex p e st)
            | None => (Ok false, set_lastIndex p 0 st)
            end.

(** [s.match(this.patterns.p)]: all matches from index 0; [lastIndex] is
    0 afterwards. *)
Definition match_g (s : jstr) (p : pattern) : M (option (list jstr)) :=
  fun st => (Ok (match_all (regex p) s), set_lastIndex p 0 st).

(** [s.search(this.patterns.p)] *)
Definition search_g (s : jstr) (p : pattern) : M (option nat) :=
  ret (search (regex p) s).

(** ** classifyLine *)

Inductive line_type :=
| TEmail | TPhone | TWebsite | TAddress | TCompany | TTitle
| TName | TNameOrCompany | TUnknown.

Global Instance line_type_eq_dec : EqDecision line_type.
Proof. solve_decision. Defined.

Record classification : Type := {
  type : line_type;
  confidence : nat;
  original : jstr
}.

Definition companyPatterns : list string :=
  ["inc"; "ltd"; "llc"; "corp"; "pvt"; "limited"; "incorporated"; "company";
   "co."; "group"; "solutions"; "systems"; "services"; "agency"]%string.

Definition titleKeywords : list string :=
  ["agent"; "manager"; "director"; "executive"; "president"; "ceo"; "cfo";
   "cto"; "vp"; "vice president"; "specialist"; "consultant"; "advisor";
   "representative"; "assistant"; "coordinator"]%string.

Definition streetWords : list string :=
  ["street"; "st"; "avenue"; "ave"; "road"; "rd"; "boulevard"; "blvd";
   "drive"; "dr"; "lane"; "ln"; "way"; "circle"; "ct"]%string.

Definition re_digits7 : re := Cls is_digit 7 None.                    (* /\d{7,}/ *)
Definition re_state_zip : re :=                          (* /\b[A-Z]{2}\s+\d{5}\b/ *)
  seq [WordB; Cls is_upper 2 (Some 2%nat); plus is_space; Cls is_digit 5 (Some 5%nat); WordB].
Definition re_zip : re := seq [WordB; Cls is_digit 5 (Some 5%nat); WordB].  (* /\b\d{5}\b/ *)
Definition re_street : re :=                     (* /\b(street|...|ct)\b/i *)
  seq [WordB; grp (alt (List.map lit_ci streetWords)); WordB].
Definition re_digit : re := cls1 is_digit.                             (* /\d/ *)
Definition re_cap : re := Cat Bos (cls1 is_upper).                    (* /^[A-Z]/ *)
Definition re_ws : re := plus is_space.                                (* /\s+/ *)

Definition some_includes (s : jstr) (keys : list string) : bool :=
  existsb (fun k => includes s (str k)) keys.

(** [w.length > 0 && w[0] === w[0].toUpperCase() && /^[A-Z]/.test(w)] *)
Definition capitalized (w : jstr) : bool :=
  match w with
  | [] => false
  | c :: _ => jstr_eqb [c] (toUpperCase [c]) && re_test re_cap w
  end.

Definition classifyLine (line : jstr) : M classification :=
  let lowerLine := toLowerCase line in
  let mk t c := {| type := t; confidence := c; original := line |} in
  let* isEmail := orM (ret (includes line (str "@"))) (test_g PEmail line) in
  if isEmail then ret (mk TEmail 10%nat) else
  let* isPhone :=
    orM (ret (includes line (str "+")))
      (orM (ret (re_test re_digits7 line))
         (orM (test_g PPhone line) (test_g PPhoneAlt line))) in
  if isPhone then ret (mk TPhone 10%nat) else
  let* isWeb :=
    orM (test_g PUrl line)
      (ret (includes lowerLine (str "www.") || includes lowerLine (str ".com")
            || includes lowerLine (str ".net") || includes lowerLine (str ".org"))) in
  if isWeb then ret (mk TWebsite 9%nat) else
  if re_test re_state_zip line || re_test re_zip line || re_test re_street line
  then ret (mk TAddress 8%nat) else
  if some_includes lowerLine companyPatterns then ret (mk TCompany 10%nat) else
  if some_includes lowerLine titleKeywords then
    if includes lowerLine (str "real estate") || includes lowerLine (str "realestate")
    then ret (mk TCompany 8%nat)
    else ret (mk TTitle 7%nat)
  else
  let words := List.filter (fun w => (0 <? length w)%nat) (split_re re_ws line) in
  let hasTwoWords := (length words =? 2)%nat in
  let allWordsCapitalized := forallb capitalized words in
  let noNumbers := negb (re_test re_digit line) in
  let reasonableLength := (3 <=? length line)%nat && (length line <=? 40)%nat in
  if hasTwoWords && allWordsCapitalized && noNumbers && reasonableLength
  then ret (mk TName 9%nat) else
  if (2 <=? length words)%nat && allWordsCapitalized && noNumbers && reasonableLength
  then ret (mk TNameOrCompany 6%nat) else
  ret (mk TUnknown 0%nat).

(** ** normalizeFields and extractContactInfo *)

Definition is_type (t : line_type) (cl : classification) : bool :=
  bool_decide (type cl = t).

(** [this.cleanText(v)] on a property value: [undefined], [null] and the
    empty string give the empty string. *)
Definition cleanText_val (v : variant) (x : jsval) : jstr :=
  match x with JStr s => cleanText v s | _ => [] end.

Definition normalizeFields (v : variant) (contact : gmap string jsval)
    (classifiedLines : list classification) : M (gmap string jsval) :=
  let* blank :=
    if negb (truthy (get contact "company")) then ret true
    else let* c := lift (as_str (get contact "company")) in
         ret (jstr_eqb (trim c) []) in
  if blank then
    match List.find (fun cl => is_type TTitle cl
                     || (is_type TCompany cl && (7 <=? confidence cl)%nat))
            classifiedLines with
    | Some titleLine => ret (<["company" := JStr (cleanText v (original titleLine))]> contact)
    | None => ret contact
    end
  else ret contact.

(** [arr[0].original]: a [TypeError] on an empty array. *)
Definition first_original (arr : list classification) : outcome jstr :=
  match arr with
  | cl :: _ => Ok (original cl)
  | [] => Throw "TypeError"
  end.

(** [arr[0].trim()] on an array of strings. *)
Definition first_trimmed (arr : list jstr) : outcome jstr :=
  let! s := as_str (elem arr 0) in Ok (trim s).

Definition re_plus_digit : re := Cat (chr 43) (cls1 is_digit).        (* /\+\d/ *)
Definition re_www : re := lit_ci "www.".                               (* /www\./i *)
Definition re_newline : re := Cat (opt_cls (is_char 13)) (chr 10).     (* /\r?\n/ *)
Definition re_phone_sep : re := cls1 phone_sep.                       (* /[\s\-\.]/g *)
Definition re_lead_one : re := seq [Bos; opt_cls (is_char 43); chr 49].  (* /^\+?1/ *)

(** [potentialSplits.sort((a, b) => a.pos - b.pos)]: a stable sort. *)
Fixpoint insert_split (x : nat * line_type) (l : list (nat * line_type))
  : list (nat * line_type) :=
  match l with
  | [] => [x]
  | y :: l' => if (fst x <=? fst y)%nat then x :: y :: l' else y :: insert_split x l'
  end.
Definition sort_splits (l : list (nat * line_type)) : list (nat * line_type) :=
  foldr insert_split [] l.

Definition push_if_nonempty (segment : jstr) (lines : list jstr) : list jstr :=
  if (0 <? length segment)%nat then lines ++ [segment] else lines.

(** The body of the [forEach] over the sorted splits, on
    [(lastPos, newLines)]. *)
Definition cut_step (singleLine : jstr) (acc : nat * list jstr)
    (split : nat * line_type) : nat * list jstr :=
  let '(lastPos, newLines) := acc in
  let pos := fst split in
  (pos,
   if (lastPos <? pos)%nat
   then push_if_nonempty (trim (substring lastPos pos singleLine)) newLines
   else newLines).

Definition splitSingleLine (v : variant) (lines : list jstr) : M (list jstr) :=
  match lines with
  | [singleLine] =>
      if (50 <? length singleLine)%nat then
        let* emailPos := search_g singleLine PEmail in
        let* phonePos1 := search_g singleLine PPhone in
        let* phonePos :=
          match phonePos1 with
          | Some _ => search_g singleLine PPhone
          | None => ret (search re_plus_digit singleLine)
          end in
        let* websitePos1 := search_g singleLine PUrl in
        let* websitePos :=
          match websitePos1 with
          | Some _ => search_g singleLine PUrl
          | None => ret (search re_www singleLine)
          end in
        let potentialSplits :=
          sort_splits
            (match emailPos with Some i => [(i, TEmail)] | None => [] end
             ++ match phonePos with Some i => [(i, TPhone)] | None => [] end
             ++ match websitePos with Some i => [(i, TWebsite)] | None => [] end) in
        if (0 <? length potentialSplits)%nat then
          let '(lastPos, newLines0) :=
            fold_left (cut_step singleLine) potentialSplits (0%nat, []) in
          let newLines :=
            if (lastPos <? length singleLine)%nat
            then push_if_nonempty (trim (drop lastPos singleLine)) newLines0
            else newLines0 in
          if (1 <? length newLines)%nat
          then ret (List.map (cleanText v) newLines)
          else ret lines
        else ret lines
      else ret lines
  | _ => ret lines
  end.

(** The last statement on [contact.phone]: the two copies differ here. *)
Definition normalizePhone (v : variant) (phone : jsval) : M jstr :=
  if truthy phone then
    let* p := lift (as_str phone) in
    let stripped := replace_all re_phone_sep [] p in
    match v with
    | Web => ret (replace_first re_lead_one [] stripped)
    | Mobile => ret stripped
    end
  else ret [].

Definition emptyContact : gmap string jsval :=
  <["name" := JStr []]> (<["phone" := JStr []]> (<["email" := JStr []]>
    (<["company" := JStr []]> ∅))).

Definition extractContactInfo (v : variant) (text : jstr) : M (gmap string jsval) :=
  let contact := emptyContact in
  match text with
  | [] => ret contact                                  (* if (!text) return contact *)
  | _ =>
  let cleanedText := cleanText v text in
  let* emailMatch := match_g cleanedText PEmail in
  let* contact :=
    match emailMatch with
    | Some l =>
        if (0 <? length l)%nat then
          let* e := lift (first_trimmed l) in
          ret (<["email" := JStr (toLowerCase e)]> contact)
        else ret contact
    | None => ret contact
    end in
  let* phoneMatch1 := match_g cleanedText PPhone in
  let* phoneMatch :=
    match phoneMatch1 with
    | Some l => ret (Some l)
    | None => match_g cleanedText PPhoneAlt
    end in
  let* contact :=
    match phoneMatch with
    | Some l =>
        if (0 <? length l)%nat then
          let* p := lift (first_trimmed l) in
          ret (<["phone" := JStr p]> contact)
        else ret contact
    | None => ret contact
    end in
  let lines :=
    List.filter (fun line => (0 <? length line)%nat)
      (List.map (fun line => cleanText v (trim line)) (split_re re_newline cleanedText)) in
  let* lines := splitSingleLine v lines in
  let* classifiedLines := mapM classifyLine lines in
  (* name *)
  let nameLines :=
    List.filter (fun cl => is_type TName cl && (9 <=? confidence cl)%nat) classifiedLines in
  let* contact :=
    if (0 <? length nameLines)%nat then
      let* o := lift (first_original nameLines) in
      ret (<["name" := JStr (cleanText v o)]> contact)
    else
      let nameOrCompanyLines :=
        List.filter (fun cl => is_type TNameOrCompany cl && (6 <=? confidence cl)%nat)
          classifiedLines in
      if (0 <? length nameOrCompanyLines)%nat then
        let* o := lift (first_original nameOrCompanyLines) in
        ret (<["name" := JStr (cleanText v o)]> contact)
      else ret contact in
  (* company *)
  let companyLines :=
    List.filter (fun cl => (is_type TCompany cl && (8 <=? confidence cl)%nat)
                           || (is_type TTitle cl && (7 <=? confidence cl)%nat))
      classifiedLines in
  let* contact :=
    if (0 <? length companyLines)%nat then
      let* o :=
        match List.find (is_type TCompany) companyLines with
        | Some cl => ret (original cl)
        | None => lift (first_original companyLines)
        end in
      ret (<["company" := JStr (cleanText v o)]> contact)
    else
      let remainingNameOrCompany :=
        List.filter (fun cl => is_type TNameOrCompany cl
                               && negb (bool_decide (JStr (original cl) = get contact "name"))
                               && (6 <=? confidence cl)%nat)
          classifiedLines in
      if (0 <? length remainingNameOrCompany)%nat then
        let* o := lift (first_original remainingNameOrCompany) in
        ret (<["company" := JStr (cleanText v o)]> contact)
      else ret contact in
  let* contact := normalizeFields v contact classifiedLines in
  (* final cleaning *)
  let contact := <["name" := JStr (cleanText_val v (get contact "name"))]> contact in
  let contact := <["company" := JStr (cleanText_val v (get contact "company"))]> contact in
  let* phone := normalizePhone v (get contact "phone") in
  let contact := <["phone" := JStr phone]> contact in
  let* email :=
    if truthy (get contact "email") then
      let* e := lift (as_str (get contact "email")) in
      ret (toLowerCase (trim e))
    else ret [] in
  ret (<["email" := JStr email]> contact)
  end.

(** ** VCardHandler *)

Definition re_backslash : re := chr 92.                       (* /\\/g *)
Definition re_semicolon : re := chr 59.                       (* /;/g *)
Definition re_comma : re := chr 44.                           (* /,/g *)
Definition re_lf : re := chr 10.                              (* /\n/g *)
Definition re_cr : re := chr 13.                              (* /\r/g *)
Definition re_esc_n : re := Cat (chr 92) (chr 110).           (* /\\n/g *)
Definition re_esc_comma : re := Cat (chr 92) (chr 44).        (* /\\,/g *)
Definition re_esc_semicolon : re := Cat (chr 92) (chr 59).    (* /\;/g *)
Definition re_esc_backslash : re := Cat (chr 92) (chr 92).    (* /\\\\/g *)

Definition escape (value : jsval) : jstr :=
  match value with
  | JStr (c :: s) =>
      replace_all re_cr []
        (replace_all re_lf [92; 110]
           (replace_all re_comma [92; 44]
              (replace_all re_semicolon [92; 59]
                 (replace_all re_backslash [92; 92] (c :: s)))))
  | _ => []                                             (* if (!value) return '' *)
  end.

Definition unescape (value : jsval) : jstr :=
  match value with
  | JStr (c :: s) =>
      replace_all re_esc_backslash [92]
        (replace_all re_esc_semicolon (str ";")
           (replace_all re_esc_comma (str ",")
              (replace_all re_esc_n [10] (c :: s))))
  | _ => []
  end.

Definition re_phone_clean : re :=                              (* /[\s\-\(\)]/g *)
  cls1 (fun c => is_space c || one_of [45; 40; 41] c).

Definition CRLF : jstr := [13; 10].

Definition generate (contact : gmap string jsval) : outcome jstr :=
  let lines := [str "BEGIN:VCARD"; str "VERSION:3.0"] in
  let! lines :=
    if truthy (get contact "name") then
      let lines := lines ++ [str "FN:" ++ escape (get contact "name")] in
      let! name := as_str (get contact "name") in
      let nameParts := split_re re_ws (trim name) in
      if (1 <? length nameParts)%nat then
        Ok (lines ++ [str "N:" ++ escape (elem nameParts (length nameParts - 1))
                      ++ str ";"
                      ++ escape (JStr (join (str " ") (take (length nameParts - 1) nameParts)))
                      ++ str ";;;"])
      else
        Ok (lines ++ [str "N:" ++ escape (get contact "name") ++ str ";;;"])
    else Ok lines in
  let! lines :=
    if truthy (get contact "phone") then
      let! phone := as_str (get contact "phone") in
      let cleanPhone := replace_all re_phone_clean [] phone in
      Ok (lines ++ [str "TEL;TYPE=CELL:" ++ escape (JStr cleanPhone)])
    else Ok lines in
  let lines :=
    if truthy (get contact "email")
    then lines ++ [str "EMAIL;TYPE=INTERNET:" ++ escape (get contact "email")]
    else lines in
  let lines :=
    if truthy (get contact "company")
    then lines ++ [str "ORG:" ++ escape (get contact "company")]
    else lines in
  let lines :=
    if truthy (get contact "eventTag")
    then lines ++ [str "X-EVENT-TAG:" ++ escape (get contact "eventTag")]
    else lines in
  let lines := lines ++ [str "END:VCARD"] in
  Ok (join CRLF lines).

Definition not_colon (c : N) : bool := negb (is_char 58 c).
Definition dot (c : N) : bool := negb (is_line_terminator c).
Definition re_vcard_line : re :=                        (* /^([^:]+):(.+)$/ *)
  seq [Bos; grp (plus not_colon); chr 58; grp (plus dot); Eos].
Definition re_crlf : re := plus (one_of [13; 10]).            (* /[\r\n]+/ *)

(** The captures of a match, from the marks: each pair of marks bounds
    one group. *)
Fixpoint groups (s : jstr) (ms : list nat) : list jstr :=
  match ms with
  | a :: b :: ms' => substring (length s - a) (length s - b) s :: groups s ms'
  | _ => []
  end.

(** [s.match(re)] without the [g] flag: the array of the whole match and
    the captures, or [None] for [null]. *)
Definition match_groups (r : re) (s : jstr) : option (list jstr) :=
  match scan r None s 0 with
  | Some (b, ms, rest') =>
      Some (substring b (length s - length rest') s :: groups s ms)
  | None => None
  end.

Definition emptyRecord : gmap string jsval :=
  <["name" := JStr []]> (<["phone" := JStr []]> (<["email" := JStr []]>
    (<["company" := JStr []]> (<["eventTag" := JStr []]> ∅)))).

(** The body of the [for] loop of [parse], in two parts.  First the
    line is read: [None] when the loop continues with the next line (a
    blank line, a BEGIN or END line, a line the pattern refuses),
    otherwise [field] and [value]. *)
Definition read_line (line : jstr) : outcome (option (jstr * jsval)) :=
  if jstr_eqb (trim line) [] || startsWith line (str "BEGIN") || startsWith line (str "END")
  then Ok None
  else
    match match_groups re_vcard_line line with
    | None => Ok None
    | Some mt =>
        let! fieldPart := as_str (elem mt 1) in
        let value := elem mt 2 in
        let! head := as_str (elem (split_char 59 fieldPart) 0) in
        let field := toUpperCase head in
        Ok (Some (field, value))
    end.

(** Then the [switch (field)]. *)
Definition assign (contact : gmap string jsval) (field : jstr) (value : jsval)
  : outcome (gmap string jsval) :=
  let unescapedValue := unescape value in
  if jstr_eqb field (str "FN") then
    Ok (<["name" := JStr unescapedValue]> contact)
  else if jstr_eqb field (str "N") then
    let! v := as_str value in
    let nameParts := split_char 59 v in
    if (2 <=? length nameParts)%nat then
      let first := unescape (elem nameParts 1) in
      let last := unescape (elem nameParts 0) in
      Ok (<["name" := JStr (trim (first ++ str " " ++ last))]> contact)
    else if truthy (elem nameParts 0) then
      Ok (<["name" := JStr (unescape (elem nameParts 0))]> contact)
    else Ok contact
  else if jstr_eqb field (str "TEL") then
    if negb (truthy (get contact "phone"))
    then Ok (<["phone" := JStr unescapedValue]> contact)
    else Ok contact
  else if jstr_eqb field (str "EMAIL") then
    if negb (truthy (get contact "email"))
    then Ok (<["email" := JStr unescapedValue]> contact)
    else Ok contact
  else if jstr_eqb field (str "ORG") then
    Ok (<["company" := JStr unescapedValue]> contact)
  else if jstr_eqb field (str "X-EVENT-TAG") then
    Ok (<["eventTag" := JStr unescapedValue]> contact)
  else Ok contact.

Definition parse_line (contact : gmap string jsval) (line : jstr)
  : outcome (gmap string jsval) :=
  let! r := read_line line in
  match r with
  | None => Ok contact
  | Some (field, value) => assign contact field value
  end.

Fixpoint parse_lines (contact : gmap string jsval) (lines : list jstr)
  : outcome (gmap string jsval) :=
  match lines with
  | [] => Ok contact
  | line :: lines' =>
      let! contact' := parse_line contact line in
      parse_lines contact' lines'
  end.

Definition parse (vcardString : jstr) : outcome (gmap string jsval) :=
  match vcardString with
  | [] => Ok emptyRecord                          (* if (!vcardString) return contact *)
  | _ => parse_lines emptyRecord (split_re re_crlf vcardString)
  end.


(** ** Notions used to state the properties *)

Definition LF : jstr := [10].

(** The code units a pattern can consume. *)
Fixpoint alphabet (r : re) (c : N) : bool :=
  match r with
  | Cls p _ _ => p c
  | Cat a b | Or a b => alphabet a c || alphabet b c
  | _ => false
  end.

(** No two neighbouring code units both in the class [p]. *)
Fixpoint no_pair (p : N -> bool) (s : jstr) : bool :=
  match s with
  | c :: (d :: _) as t => negb (p c && p d) && no_pair p t
  | _ => true
  end.

Definition head_ok (p : N -> bool) (s : jstr) : bool :=
  match s with c :: _ => p c | [] => true end.

Definition last_ok (p : N -> bool) (s : jstr) : bool :=
  match last s with Some c => p c | None => true end.

(** A computation returns normally, with a result satisfying [P]. *)
Definition returns {A} (P : A -> Prop) (c : M A) : Prop :=
  forall st, exists a st', c st = (Ok a, st') /\ P a.

(** The same for computations without parser state. *)
Definition yields {A} (P : A -> Prop) (c : outcome A) : Prop :=
  exists a, c = Ok a /\ P a.

(** The code unit behind the cursor after [consumed] has been read. *)
Definition behind (prev : option N) (consumed : jstr) : option N :=
  match last consumed with Some c => Some c | None => prev end.

(** The longest prefix of code units in a class, and what follows it. *)
Fixpoint run (p : N -> bool) (s : jstr) : jstr :=
  match s with
  | c :: t => if p c then c :: run p t else []
  | [] => []
  end.

Fixpoint after_run (p : N -> bool) (s : jstr) : jstr :=
  match s with
  | c :: t => if p c then after_run p t else s
  | [] => []
  end.

(** The shape of a cleaned text: only kept ASCII code units that are not
    garbage punctuation, no two neighbouring dashes, no two neighbouring
    blanks, no blank at either end. *)
Definition tidy_cu (v : variant) (c : N) : bool :=
  final_keep c && is_ascii c && negb (garbage v c).

Definition clean (v : variant) (s : jstr) : Prop :=
  Forall (fun c => tidy_cu v c = true) s
  /\ no_pair dash_or_underscore s = true
  /\ no_pair is_space s = true
  /\ head_ok non_space s = true
  /\ last_ok non_space s = true.

(** The record literal of [extractContactInfo]: four properties, all
    strings; there is no [eventTag] property. *)
Definition inferred_shape (c : gmap string jsval) : Prop :=
  (exists s, c !! "name" = Some (JStr s))
  /\ (exists s, c !! "phone" = Some (JStr s))
  /\ (exists s, c !! "email" = Some (JStr s))
  /\ (exists s, c !! "company" = Some (JStr s))
  /\ c !! "eventTag" = None.

(** The record literal of [parse]: five properties, all strings. *)
Definition record_shape (c : gmap string jsval) : Prop :=
  (exists s, c !! "name" = Some (JStr s))
  /\ (exists s, c !! "phone" = Some (JStr s))
  /\ (exists s, c !! "email" = Some (JStr s))
  /\ (exists s, c !! "company" = Some (JStr s))
  /\ (exists s, c !! "eventTag" = Some (JStr s)).

(** The first match of the phone pattern in the cleaned text, or of the
    looser pattern when the first has none, trimmed: what
    [extractContactInfo] stores in [contact.phone] before the final
    statements. *)
Definition phoneCandidate (v : variant) (text : jstr) : jstr :=
  let cleanedText := cleanText v text in
  let phoneMatch :=
    match match_all re_phone cleanedText with
    | Some l => Some l
    | None => match_all re_phoneAlt cleanedText
    end in
  match phoneMatch with
  | Some (m0 :: _) => trim m0
  | _ => []
  end.

(** [p.replace(/[\s\-\.]/g, '')] *)
Definition strip_separators (p : jstr) : jstr := replace_all re_phone_sep [] p.

(** [p.replace(/^\+?1/, '')] *)
Definition strip_leading_one (p : jstr) : jstr := replace_first re_lead_one [] p.

(** The last statement on the phone, as a function of the stored
    candidate. *)
Definition final_phone (v : variant) (p : jstr) : jstr :=
  match v with
  | Web => strip_leading_one (strip_separators p)
  | Mobile => strip_separators p
  end.

(** A contact under construction in [extractContactInfo] whose phone
    property holds [p]. *)
Definition keeps_phone (p : jstr) (c : gmap string jsval) : Prop :=
  inferred_shape c /\ get c "phone" = JStr p.

(** A property of the record a computation returned from a state. *)
Definition result_field (k : string) (r : outcome (gmap string jsval) * RegExpState)
  : jsval :=
  match fst r with
  | Ok c => get c k
  | Throw _ => JUndefined
  end.

(** The property a [field] of the [switch] of [parse] stores into. *)
Definition target (field : jstr) : option string :=
  if jstr_eqb field (str "FN") then Some "name"%string
  else if jstr_eqb field (str "N") then Some "name"%string
  else if jstr_eqb field (str "TEL") then Some "phone"%string
  else if jstr_eqb field (str "EMAIL") then Some "email"%string
  else if jstr_eqb field (str "ORG") then Some "company"%string
  else if jstr_eqb field (str "X-EVENT-TAG") then Some "eventTag"%string
  else None.

(** [line] is read as the field [field] with the raw value [value]. *)
Definition reads (line : jstr) (field : string) (value : jstr) : Prop :=
  read_line line = Ok (Some (str field, JStr value)).

(** The property a line stores into, if it is read as a known field. *)
Definition line_target (line : jstr) : option string :=
  match read_line line with
  | Ok (Some (field, _)) => target field
  | _ => None
  end.

(** The name the [N] case of [parse] builds from a raw value. *)
Definition structured_name (value : jstr) : jstr :=
  let nameParts := split_char 59 value in
  if (2 <=? length nameParts)%nat
  then trim (unescape (elem nameParts 1) ++ str " " ++ unescape (elem nameParts 0))
  else unescape (elem nameParts 0).

(** ** The round trip through the codec *)

(** A contact record with the five properties set. *)
Definition record (name phone email company eventTag : jstr) : gmap string jsval :=
  <["name" := JStr name]> (<["phone" := JStr phone]> (<["email" := JStr email]>
    (<["company" := JStr company]> (<["eventTag" := JStr eventTag]> ∅)))).

(** A code unit of a simple ASCII value: ASCII, and none of backslash,
    semicolon, comma, CR, LF. *)
Definition simple_cu (c : N) : bool :=
  is_ascii c && negb (one_of [92; 59; 44; 13; 10] c).
Definition simple_value (s : jstr) : bool := forallb simple_cu s.

(** A phone free of blanks, hyphens and parentheses: [generate] leaves
    it as it is. *)
Definition plain_phone (s : jstr) : bool :=
  forallb (fun c => negb (is_space c || one_of [45; 40; 41] c)) s.

(** A name whose only blanks are single spaces between its words. *)
Definition spaced_name (s : jstr) : bool :=
  forallb (fun c => negb (is_space c) || (c =? 32)) s
  && no_pair is_space s && head_ok non_space s && last_ok non_space s.

(** [decode(encode(r))] reproduces every field of [r]. *)
Definition roundtrips (name phone email company eventTag : jstr) : Prop :=
  exists text c,
    generate (record name phone email company eventTag) = Ok text
    /\ parse text = Ok c
    /\ get c "name" = JStr name /\ get c "phone" = JStr phone
    /\ get c "email" = JStr email /\ get c "company" = JStr company
    /\ get c "eventTag" = JStr eventTag.

(** The lines [generate] emits. *)
Definition fn_line (name : jstr) : jstr := str "FN:" ++ escape (JStr name).
Definition n_line (name : jstr) : jstr :=
  let nameParts := split_re re_ws (trim name) in
  if (1 <? length nameParts)%nat then
    str "N:" ++ escape (elem nameParts (length nameParts - 1)) ++ str ";"
    ++ escape (JStr (join (str " ") (take (length nameParts - 1) nameParts)))
    ++ str ";;;"
  else str "N:" ++ escape (JStr name) ++ str ";;;".
Definition tel_line (phone : jstr) : jstr :=
  str "TEL;TYPE=CELL:" ++ escape (JStr (replace_all re_phone_clean [] phone)).
Definition email_line (email : jstr) : jstr :=
  str "EMAIL;TYPE=INTERNET:" ++ escape (JStr email).
Definition org_line (company : jstr) : jstr := str "ORG:" ++ escape (JStr company).
Definition tag_line (eventTag : jstr) : jstr :=
  str "X-EVENT-TAG:" ++ escape (JStr eventTag).

(** The lines of a property, none when it is the empty string. *)
Definition when_set (value : jstr) (lines : list jstr) : list jstr :=
  match value with [] => [] | _ :: _ => lines end.

Definition vcard_lines (name phone email company eventTag : jstr) : list jstr :=
  [str "BEGIN:VCARD"; str "VERSION:3.0"]
  ++ when_set name [fn_line name; n_line name]
  ++ when_set phone [tel_line phone]
  ++ when_set email [email_line email]
  ++ when_set company [org_line company]
  ++ when_set eventTag [tag_line eventTag]
  ++ [str "END:VCARD"].

(** Two strings differ at a position both have. *)
Fixpoint differs (f p : jstr) : bool :=
  match f, p with
  | c :: f', x :: p' => negb (c =? x) || differs f' p'
  | _, _ => false
  end.

(** A field part of a generated line: not blank at its start, without
    colon, not read as BEGIN or END, and naming [field]. *)
Definition names_field (f : jstr) (field : string) : bool :=
  head_ok non_space f && negb (jstr_eqb f []) && forallb not_colon f
  && differs f (str "BEGIN") && differs f (str "END")
  && jstr_eqb (toUpperCase (hd [] (split_char 59 f))) (str field).

(** A line of a generated vCard: it is read as [field] with the raw
    value [value], and it holds no CR or LF. *)
Definition good_line (line : jstr) (field : string) (value : jstr) : Prop :=
  reads line field value
  /\ line <> [] /\ Forall (fun c => one_of [13; 10] c = false) line.

(** Removing a leading [+1], when there is one. *)
Definition strip_plus_one (p : jstr) : jstr :=
  match p with
  | 43 :: 49 :: q => q
  | _ => p
  end.

(** The reading of the phone clean-up with the two copies exchanged: the
    web copy would strip the separators only, the mobile copy the
    separators and a leading [+1]. *)
Definition phone_cleanup_exchanged (text : jstr) : Prop :=
  result_field "phone" (extractContactInfo Web text fresh)
    = JStr (strip_separators (phoneCandidate Web text))
  /\ result_field "phone" (extractContactInfo Mobile text fresh)
    = JStr (strip_plus_one (strip_separators (phoneCandidate Mobile text))).


(** * The callers of the codec *)

(** ** VCardHandler.generateBatch *)

(** [arr.map(f)] for a callback that may throw. *)
Fixpoint mapO {A B} (f : A -> outcome B) (l : list A) : outcome (list B) :=
  match l with
  | [] => Ok []
  | x :: l' => let! y := f x in let! ys := mapO f l' in Ok (y :: ys)
  end.

(** [contacts.map(contact => this.generate(contact)).join('\r\n\r\n')] *)
Definition generateBatch (contacts : list (gmap string jsval)) : outcome jstr :=
  let! cards := mapO generate contacts in
  Ok (join (CRLF ++ CRLF) cards).

(** ** QRDetector.detectAndParseVCard *)

(** The function after [await this.detect(imageSource)]: [qrResult] is
    [null] (no code found, or the detector failed) or an object whose
    [data] is the decoded string.  The result is [null] or the record
    of [vCardHandler.parse]. *)
Definition detectAndParseVCard (qrResult : option jstr)
  : outcome (option (gmap string jsval)) :=
  match qrResult with
  | None => Ok None                                       (* if (!qrResult) return null *)
  | Some data =>
      let qrData := trim data in
      if startsWith qrData (str "BEGIN:VCARD") || includes qrData (str "BEGIN:VCARD")
      then let! contact := parse qrData in Ok (Some contact)
      else if startsWith qrData (str "http") then Ok None
      else Ok None
  end.

(** ** Notions used to state the properties of the codec *)

(** What [escape] does to one code unit. *)
Definition escape_cu (c : N) : jstr :=
  if c =? 92 then [92; 92]
  else if c =? 59 then [92; 59]
  else if c =? 44 then [92; 44]
  else if c =? 10 then [92; 110]
  else if c =? 13 then []
  else [c].

(** One pass of [unescape]: every pair [a b], read from the left,
    becomes [y]. *)
Fixpoint unpair (a b y : N) (s : jstr) : jstr :=
  match s with
  | c :: (d :: t) as r =>
      if (c =? a) && (d =? b) then y :: unpair a b y t else c :: unpair a b y r
  | _ => s
  end.

(** A value without backslash and without CR. *)
Definition portable_cu (c : N) : bool := negb (one_of [92; 13] c).
Definition portable (s : jstr) : bool := forallb portable_cu s.

(** A value that, escaped, stays on one line for the line pattern of
    [parse]: as above, and without U+2028 and U+2029. *)
Definition line_safe_cu (c : N) : bool := negb (one_of [92; 13; 8232; 8233] c).
Definition line_safe (s : jstr) : bool := forallb line_safe_cu s.

(** No CR and no LF. *)
Definition no_break (s : jstr) : Prop := Forall (fun c => one_of [13; 10] c = false) s.

(** A separator between the lines of a vCard text: a non-empty run of
    CR and LF. *)
Definition line_break (sep : jstr) : bool :=
  negb (jstr_eqb sep []) && forallb (one_of [13; 10]) sep.

(** The escape of the code units listed in [S] only. *)
Definition escape_code (c : N) : N := if c =? 10 then 110 else c.
Definition escape_only (S : list N) (c : N) : jstr :=
  if one_of S c then [92; escape_code c] else [c].

(** The string a property of a contact object counts as in [generate]
    and in the share texts: anything but a string counts as absent. *)
Definition text_of (v : jsval) : jstr :=
  match v with JStr s => s | _ => [] end.

(** The prefixes of the lines [generate] pushes. *)
Definition line_prefixes : list jstr :=
  [str "BEGIN:VCARD"; str "VERSION:3.0"; str "FN:"; str "N:"; str "TEL;TYPE=CELL:";
   str "EMAIL;TYPE=INTERNET:"; str "ORG:"; str "X-EVENT-TAG:"; str "END:VCARD"].
Definition known_line (l : jstr) : bool := existsb (startsWith l) line_prefixes.

(** A value without backslash. *)
Definition no_backslash (s : jstr) : bool := forallb (fun c => negb (c =? 92)) s.

(** Lines to be joined into a vCard text: at least one, none empty,
    none holding a CR or LF. *)
Definition plain_line (l : jstr) : bool :=
  negb (jstr_eqb l []) && forallb (fun c => negb (one_of [13; 10] c)) l.
Definition plain_lines (lines : list jstr) : bool :=
  (0 <? length lines)%nat && forallb plain_line lines.

(** A field name as a line may spell it: non-empty, without colon and
    semicolon, not beginning like [BEGIN] or [END]. *)
Definition field_name (f : jstr) : bool :=
  negb (jstr_eqb f []) && forallb (fun c => negb (one_of [58; 59] c)) f
  && differs f (str "BEGIN") && differs f (str "END").

(** The parameters of a line: nothing, or a semicolon and anything
    without colon. *)
Definition field_params (ps : jstr) : bool :=
  match ps with
  | [] => true
  | c :: r => (c =? 59) && forallb not_colon r
  end.

(** A value the line pattern accepts: non-empty, without line
    terminator. *)
Definition line_value (v : jstr) : bool :=
  negb (jstr_eqb v []) && forallb dot v.

(** Blanks only. *)
Definition blank (s : jstr) : bool := forallb is_space s.

(** Lines with the separator that precedes each of them. *)
Fixpoint weave (l : jstr) (rest : list (jstr * jstr)) : jstr :=
  match rest with
  | [] => l
  | (sep, l') :: rest' => l ++ sep ++ weave l' rest'
  end.

(** The lines [generate] pushes for a contact object. *)
Definition card_lines (contact : gmap string jsval) : list jstr :=
  vcard_lines (text_of (get contact "name")) (text_of (get contact "phone"))
    (text_of (get contact "email")) (text_of (get contact "company"))
    (text_of (get contact "eventTag")).

(** The lines of the cards of a batch after the first line, each with
    the separator before it: CRLF inside a card, two CRLF between
    cards. *)
Definition card_tail (sep : jstr) (card : list jstr) : list (jstr * jstr) :=
  match card with
  | [] => []
  | l :: ls => (sep, l) :: List.map (fun x => (CRLF, x)) ls
  end.
Definition batch_tail (cards : list (list jstr)) : list (jstr * jstr) :=
  flat_map (card_tail (CRLF ++ CRLF)) cards.

(** ** Notions used to state the properties of the inference *)

(** The code units a cleaned text is made of: ASCII letters and
    digits, ASCII white space, and [@ . , -]. *)
Definition kept_cu (c : N) : bool :=
  is_alnum c || in_range 9 13 c || one_of [32; 64; 46; 44; 45] c.

(** A text in the form [cleanText] produces. *)
Definition cleaned (s : jstr) : bool :=
  forallb kept_cu s && no_pair (is_char 45) s && no_pair is_space s
  && head_ok non_space s && last_ok non_space s.

(** The first match of the email pattern in the cleaned text, trimmed
    and in lower case: what [extractContactInfo] stores in
    [contact.email] before the final statements. *)
Definition emailCandidate (v : variant) (text : jstr) : jstr :=
  match match_all re_email (cleanText v text) with
  | Some (m0 :: _) => toLowerCase (trim m0)
  | _ => []
  end.

(** The confidence each rule of [classifyLine] gives. *)
Definition rule_confidence (t : line_type) : list nat :=
  match t with
  | TEmail => [10]
  | TPhone => [10]
  | TWebsite => [9]
  | TAddress => [8]
  | TCompany => [10; 8]
  | TTitle => [7]
  | TName => [9]
  | TNameOrCompany => [6]
  | TUnknown => [0]
  end%nat.

(** A contact under construction in [extractContactInfo] whose email
    property holds [e]. *)
Definition keeps_email (e : jstr) (c : gmap string jsval) : Prop :=
  inferred_shape c /\ get c "email" = JStr e.

(** The form of an inferred email: no upper-case ASCII letter, no
    blank, and an [@] unless it is empty. *)
Definition email_form (e : jstr) : Prop :=
  Forall (fun c => is_upper c = false /\ is_space c = false) e
  /\ (e <> [] -> In 64 e).

(** ** OCRProcessor (mobile): extractText and processImage *)

(** [try { ... } catch (error) { ... }] on a parser computation. *)
Definition catchM {A} (c : M A) (h : string -> M A) : M A :=
  fun st => match c st with
            | (Ok a, st') => (Ok a, st')
            | (Throw e, st') => h e st'
            end.

(** [extractText] after the image has been prepared: [recognized] is
    the [text] property of the recogniser's result, or [None] when the
    recogniser is not available or fails.  The text is returned when it
    is not blank, the empty string otherwise. *)
Definition extractText (recognized : option jsval) : jstr :=
  match recognized with
  | Some (JStr t) =>                                  (* result.text || '' *)
      if (0 <? length (trim t))%nat then t else []
  | _ => []
  end.

Definition processImage (recognized : option jsval) : M (gmap string jsval) :=
  catchM
    (let text := extractText recognized in
     if negb (truthy (JStr text)) || (length (trim text) =? 0)%nat
     then ret emptyContact
     else extractContactInfo Mobile text)
    (fun _ => ret emptyContact).

(** ** The steps of cleanText as functions on the code units *)

Definition head_in (p : N -> bool) (s : jstr) : bool :=
  match s with c :: _ => p c | [] => false end.

(** Every run of a class becomes one blank. *)
Fixpoint squash (p : N -> bool) (s : jstr) : jstr :=
  match s with
  | [] => []
  | c :: t =>
      if p c then (if head_in p t then squash p t else 32 :: squash p t)
      else c :: squash p t
  end.

(** Every run of two or more of a class becomes one blank. *)
Fixpoint squash2 (p : N -> bool) (s : jstr) : jstr :=
  match s with
  | [] => []
  | c :: t =>
      if p c && head_in p t then 32 :: tail (squash2 p t)
      else c :: squash2 p t
  end.

(** Every code unit of a class becomes a blank. *)
Definition blank_out (p : N -> bool) (s : jstr) : jstr :=
  List.map (fun c => if p c then 32 else c) s.

(** The code units that end as a blank, in either copy. *)
Definition junk (c : N) : bool :=
  garbage Web c || garbage Mobile c || non_ascii c || final_drop c.


(** * LocalStorage (mobile): the saved contacts *)

(** The item kept in AsyncStorage under [STORAGE_KEY]: absent, or the
    JSON text of an array of contact objects.  The text is held as the
    array it denotes.  The store is taken to work: [getItem], [setItem]
    and [removeItem] do not reject, and the calls do not interleave. *)
Definition Store : Type := option (list (gmap string jsval)).

(** [JSON.parse(JSON.stringify(c))]: a property whose value is
    [undefined] is not written. *)
Definition json (c : gmap string jsval) : gmap string jsval :=
  filter (fun kv => kv.2 <> JUndefined) c.
Definition json_array (l : list (gmap string jsval)) : list (gmap string jsval) :=
  List.map json l.

(** [c.id === id] *)
Definition has_id (id : jsval) (c : gmap string jsval) : bool :=
  bool_decide (get c "id" = id).

(** [{...a, ...b}]: the properties of [b] win. *)
Definition spread (a b : gmap string jsval) : gmap string jsval := b ∪ a.


(** The order of [Array.prototype.sort()] on strings: by code units. *)
Fixpoint jstr_leb (a b : jstr) : bool :=
  match a, b with
  | [], _ => true
  | _ :: _, [] => false
  | x :: a', y :: b' => (x <? y) || ((x =? y) && jstr_leb a' b')
  end.

Fixpoint insert_tag (x : jstr) (l : list jstr) : list jstr :=
  match l with
  | [] => [x]
  | y :: l' => if jstr_leb x y then x :: y :: l' else y :: insert_tag x l'
  end.
Definition sort_tags (l : list jstr) : list jstr := foldr insert_tag [] l.

(** [[...new Set(l)]]: the first occurrence of each value, in order. *)
Fixpoint unique (seen : list jstr) (l : list jstr) : list jstr :=
  match l with
  | [] => []
  | x :: l' =>
      if existsb (jstr_eqb x) seen then unique seen l'
      else x :: unique (x :: seen) l'
  end.

Section Dates.

(** [new Date(v).getTime()] for a property value [v]: [None] is [NaN]
    (an invalid date). *)
Variable time_of : jsval -> option Z.

(** [(a, b) => new Date(b.createdAt) - new Date(a.createdAt)] is not
    positive: [a] is not older than [b].  A [NaN] counts as zero. *)
Definition newer_or_same (a b : gmap string jsval) : bool :=
  match time_of (get b "createdAt"), time_of (get a "createdAt") with
  | Some tb, Some ta => (tb - ta <=? 0)%Z
  | _, _ => true
  end.

(** [contacts.sort(...)]: a stable sort. *)
Fixpoint insert_contact (x : gmap string jsval) (l : list (gmap string jsval))
  : list (gmap string jsval) :=
  match l with
  | [] => [x]
  | y :: l' => if newer_or_same x y then x :: y :: l' else y :: insert_contact x l'
  end.
Definition sort_contacts (l : list (gmap string jsval)) : list (gmap string jsval) :=
  foldr insert_contact [] l.

Definition getAllContacts (st : Store) : list (gmap string jsval) :=
  match st with
  | None => []                                          (* if (!data) return [] *)
  | Some contacts => sort_contacts contacts
  end.


(** [None] is [undefined]. *)
Definition getContact (id : jsval) (st : Store) : option (gmap string jsval) :=
  List.find (has_id id) (getAllContacts st).

(** [contacts.findIndex(f)]: [None] is [-1]. *)
Fixpoint findIndex {A} (f : A -> bool) (l : list A) : option nat :=
  match l with
  | [] => None
  | x :: l' => if f x then Some O else option_map S (findIndex f l')
  end.

(** [contacts[index]] is in range whenever [findIndex] found [index];
    out of range the runtime would read [undefined], spread it as no
    property and extend the array. *)
Definition updateContact (id : jsval) (updates : gmap string jsval) (st : Store)
  : outcome (gmap string jsval) * Store :=
  let contacts := getAllContacts st in
  match findIndex (has_id id) contacts with
  | None => (Throw "Contact not found", st)
  | Some index =>
      let merged := spread (default ∅ (contacts !! index)) updates in
      let contacts :=
        if (index <? length contacts)%nat then <[index := merged]> contacts
        else contacts ++ replicate (index - length contacts) ∅ ++ [merged] in
      (Ok merged, Some (json_array contacts))
  end.

Definition deleteContact (id : jsval) (st : Store) : outcome unit * Store :=
  let contacts := getAllContacts st in
  let filtered := List.filter (fun c => negb (has_id id c)) contacts in
  (Ok tt, Some (json_array filtered)).

Definition clearAllContacts (st : Store) : outcome bool * Store := (Ok true, None).


Definition filterByEvent (eventTag : jsval) (st : Store) : list (gmap string jsval) :=
  let contacts := getAllContacts st in
  if negb (truthy eventTag) then contacts
  else List.filter (fun contact => bool_decide (get contact "eventTag" = eventTag)) contacts.

Definition getEventTags (st : Store) : list jstr :=
  let contacts := getAllContacts st in
  let tags :=
    unique []
      (omap (fun c => match get c "eventTag" with
                      | JStr (x :: t) => Some (x :: t)        (* filter(t => t) *)
                      | _ => None
                      end) contacts) in
  sort_tags tags.

End Dates.

(** Strictly ascending in the order of the code units. *)
Fixpoint ascending (l : list jstr) : bool :=
  match l with
  | a :: (b :: _) as t => jstr_leb a b && negb (jstr_eqb a b) && ascending t
  | _ => true
  end.

(** Ascending, not strictly. *)
Fixpoint nondecreasing (l : list jstr) : bool :=
  match l with
  | a :: (b :: _) as t => jstr_leb a b && nondecreasing t
  | _ => true
  end.


(** * Facts about the matcher *)

Lemma behind_cons prev c l : behind prev (c :: l) = behind (Some c) l.
Proof.
  unfold behind. destruct l as [|d l]; [reflexivity|].
  change (last (c :: d :: l)) with (last (d :: l)).
  destruct (last (d :: l)) eqn:E; [reflexivity|].
  apply last_None in E. discriminate.
Qed.

Lemma behind_app prev a b : behind prev (a ++ b) = behind (behind prev a) b.
Proof.
  revert prev. induction a as [|c a IH]; intros prev; [reflexivity|].
  simpl. rewrite !behind_cons. apply IH.
Qed.

Section MatcherFacts.
Context {R : Type}.
Implicit Types k : @kont R.

(** What a successful repetition has consumed. *)
Lemma rep_sound rest : forall p lo hi ms prev k x,
  rep p lo hi ms prev rest k = Some x ->
  exists consumed rest',
    rest = consumed ++ rest' /\ Forall (fun c => p c = true) consumed
    /\ (lo <= length consumed)%nat
    /\ k ms (behind prev consumed) rest' = Some x.
Proof.
  induction rest as [|c rest IH]; intros p lo hi ms prev k x H; simpl in H.
  - destruct lo; [|discriminate].
    exists [], []. repeat split; auto.
  - destruct (p c && hi_left hi) eqn:Hc.
    + destruct (rep p (Nat.pred lo) (hi_pred hi) ms (Some c) rest k) eqn:E.
      * inversion H; subst r.
        destruct (IH _ _ _ _ _ _ _ E) as (cs & rest' & -> & Hall & Hlo & Hk).
        exists (c :: cs), rest'. rewrite behind_cons.
        apply andb_true_iff in Hc as [Hc _].
        repeat split; auto. simpl. lia.
      * destruct lo; [|discriminate].
        exists [], (c :: rest). repeat split; auto.
    + destruct lo; [|discriminate].
      exists [], (c :: rest). repeat split; auto.
Qed.

(** A successful match consumed a prefix of the input made of code
    units of the pattern's alphabet, and its continuation succeeded on
    what is left. *)
Lemma m_sound r : forall ms prev rest k x,
  m r ms prev rest k = Some x ->
  exists consumed rest' ms',
    rest = consumed ++ rest' /\ Forall (fun c => alphabet r c = true) consumed
    /\ k ms' (behind prev consumed) rest' = Some x.
Proof.
  induction r as [|p lo hi|a IHa b IHb|a IHa b IHb| | | |];
    intros ms prev rest k x H; simpl in H.
  - exists [], rest, ms. auto.
  - destruct (rep_sound _ _ _ _ _ _ _ _ H) as (cs & rest' & -> & Hall & _ & Hk).
    exists cs, rest', ms. auto.
  - destruct (IHa _ _ _ _ _ H) as (c1 & r1 & ms1 & -> & H1 & Hk1).
    destruct (IHb _ _ _ _ _ Hk1) as (c2 & r2 & ms2 & -> & H2 & Hk2).
    exists (c1 ++ c2), r2, ms2. rewrite behind_app, <- app_assoc.
    repeat split; auto.
    apply Forall_app; split; eapply Forall_impl; eauto;
      simpl; intros ? ->; auto using orb_true_r.
  - destruct (m a ms prev rest k) eqn:E.
    + inversion H; subst r.
      destruct (IHa _ _ _ _ _ E) as (c1 & r1 & ms1 & -> & H1 & Hk1).
      exists c1, r1, ms1. repeat split; auto.
      eapply Forall_impl; eauto. simpl; intros ? ->; auto.
    + destruct (IHb _ _ _ _ _ H) as (c1 & r1 & ms1 & -> & H1 & Hk1).
      exists c1, r1, ms1. repeat split; auto.
      eapply Forall_impl; eauto. simpl; intros ? ->; auto using orb_true_r.
  - exists [], rest, (ms ++ [length rest]). auto.
  - destruct (xorb _ _); [|discriminate]. exists [], rest, ms. auto.
  - destruct prev; [discriminate|]. exists [], rest, ms. auto.
  - destruct rest; [|discriminate]. exists [], [], ms. auto.
Qed.

End MatcherFacts.

Lemma match_here_sound r prev rest ms rest' :
  match_here r prev rest = Some (ms, rest') ->
  exists consumed,
    rest = consumed ++ rest' /\ Forall (fun c => alphabet r c = true) consumed.
Proof.
  unfold match_here. intros H.
  destruct (m_sound _ _ _ _ _ _ H) as (cs & r1 & ms1 & -> & Hall & Hk).
  inversion Hk; subst. eauto.
Qed.

(** Every code unit of the result of a replacement comes from the input
    or from the replacement text. *)
Lemma replace_loop_Forall (Q : N -> Prop) r rep fuel : forall prev rest,
  Forall Q rep -> Forall Q rest -> Forall Q (replace_loop fuel r rep prev rest).
Proof.
  induction fuel as [|fuel IH]; intros prev rest Hrep Hrest; simpl; auto.
  destruct (match_here r prev rest) as [[ms rest']|] eqn:E.
  - destruct (match_here_sound _ _ _ _ _ E) as (cs & Heq & _).
    assert (Forall Q rest') by (subst rest; apply Forall_app in Hrest; tauto).
    destruct (length rest' <? length rest)%nat.
    + apply Forall_app; auto.
    + destruct rest as [|c t]; auto.
      apply Forall_app; split; auto.
      inversion Hrest; subst. constructor; auto.
  - destruct rest as [|c t]; auto.
    inversion Hrest; subst. constructor; auto.
Qed.

Lemma replace_all_Forall (Q : N -> Prop) r rep s :
  Forall Q rep -> Forall Q s -> Forall Q (replace_all r rep s).
Proof. apply replace_loop_Forall. Qed.

(** ** Repetition of a class *)

Lemma run_after_run p s : run p s ++ after_run p s = s.
Proof. induction s as [|c t IH]; simpl; auto. destruct (p c); simpl; congruence. Qed.

Lemma after_run_head p s : head_ok (fun c => negb (p c)) (after_run p s) = true.
Proof.
  induction s as [|c t IH]; simpl; auto.
  destruct (p c) eqn:E; auto. simpl. rewrite E. reflexivity.
Qed.

Lemma after_run_length p s : (length (after_run p s) + length (run p s) = length s)%nat.
Proof.
  rewrite <- (run_after_run p s) at 3. rewrite length_app. lia.
Qed.

Section RepFacts.
Context {R : Type}.
Implicit Types k : @kont R.

(** At least one code unit is asked for and the first one is not in the
    class: no match. *)
Lemma rep_head_fail p lo hi ms prev rest k :
  head_ok (fun c => negb (p c)) rest = true ->
  rep p (S lo) hi ms prev rest k = None.
Proof.
  intros H. destruct rest as [|c t]; simpl; auto.
  simpl in H. apply negb_true_iff in H. rewrite H. reflexivity.
Qed.

(** Greedy: when the continuation accepts what follows the longest run,
    that is the match. *)
Lemma rep_greedy p cs : forall lo ms prev tail k x,
  Forall (fun c => p c = true) cs ->
  (lo <= length cs)%nat ->
  k ms (behind prev cs) tail = Some x ->
  (cs = [] -> head_ok (fun c => negb (p c)) tail = true) ->
  (cs <> [] -> head_ok (fun c => negb (p c)) tail = true) ->
  rep p lo None ms prev (cs ++ tail) k = Some x.
Proof.
  induction cs as [|c cs IH]; intros lo ms prev tail k x Hall Hlo Hk H0 H1.
  - simpl in Hlo. assert (lo = 0%nat) by lia; subst lo.
    specialize (H0 eq_refl). simpl.
    destruct tail as [|d tail]; simpl; auto.
    simpl in H0. apply negb_true_iff in H0. rewrite H0. simpl. exact Hk.
  - inversion Hall as [|? ? Hc Hcs]; subst.
    simpl. rewrite Hc. simpl.
    rewrite behind_cons in Hk.
    erewrite IH; eauto; try (intros _; apply H1; discriminate).
    simpl in Hlo. lia.
Qed.

End RepFacts.

Lemma rep_zero_some p : forall rest hi ms prev,
  exists y, rep p 0 hi ms prev rest (fun ms _ r => Some (ms, r)) = Some y.
Proof.
  intros rest hi ms prev. destruct rest as [|c t]; simpl; eauto.
  destruct (p c && hi_left hi); eauto.
  destruct (rep p 0 (hi_pred hi) ms (Some c) t _); eauto.
Qed.

(** An unbounded repetition, alone: the longest run, when it is long
    enough. *)
Lemma match_here_cls_unbounded p lo : forall prev rest,
  match_here (Cls p lo None) prev rest =
  if (lo <=? length (run p rest))%nat then Some ([], after_run p rest) else None.
Proof.
  unfold match_here. simpl. intros prev rest. generalize (@nil nat) as ms.
  revert lo prev.
  induction rest as [|c t IH]; intros lo prev ms.
  - simpl. destruct lo; reflexivity.
  - simpl. destruct (p c) eqn:Hc; simpl.
    + rewrite IH. destruct lo as [|lo]; simpl.
      * reflexivity.
      * destruct (lo <=? length (run p t))%nat eqn:E.
        -- reflexivity.
        -- reflexivity.
    + destruct lo; reflexivity.
Qed.

(** ** The replacement loop *)

(** Nothing matches anywhere: the input is returned. *)
Lemma replace_loop_id r rep fuel : forall prev rest,
  (forall pre rest' prev', rest = pre ++ rest' -> match_here r prev' rest' = None) ->
  replace_loop fuel r rep prev rest = rest.
Proof.
  induction fuel as [|fuel IH]; intros prev rest H; simpl; auto.
  rewrite (H [] rest prev eq_refl).
  destruct rest as [|c t]; auto.
  f_equal. apply IH. intros pre rest' prev' ->.
  apply (H (c :: pre)). reflexivity.
Qed.

Lemma replace_all_id r rep s :
  (forall pre rest' prev', s = pre ++ rest' -> match_here r prev' rest' = None) ->
  replace_all r rep s = s.
Proof. apply replace_loop_id. Qed.

(** After replacing the runs of a class, no code unit of the class is
    left, unless the replacement brings one. *)
Lemma replace_loop_cls_gone p hi rep fuel : forall prev rest,
  hi_left hi = true ->
  Forall (fun c => p c = false) rep ->
  (length rest < fuel)%nat ->
  Forall (fun c => p c = false) (replace_loop fuel (Cls p 1 hi) rep prev rest).
Proof.
  induction fuel as [|fuel IH]; intros prev rest Hhi Hrep Hlen; [lia|].
  simpl. destruct (match_here (Cls p 1 hi) prev rest) as [[ms rest']|] eqn:E.
  - unfold match_here in E. simpl in E.
    destruct (rep_sound _ _ _ _ _ _ _ _ E) as (cs & r1 & -> & _ & Hlo & Hk).
    inversion Hk; subst r1.
    assert (length rest' < length (cs ++ rest'))%nat as Hlt
      by (rewrite length_app; lia).
    apply Nat.ltb_lt in Hlt as Hlt'. rewrite Hlt'.
    apply Forall_app; split; auto. apply IH; auto. lia.
  - destruct rest as [|c t]; auto.
    constructor.
    + unfold match_here in E. simpl in E. rewrite Hhi, andb_true_r in E.
      destruct (p c) eqn:Hc; auto.
      destruct (rep_zero_some p t (hi_pred hi) [] (Some c)) as [y Hy].
      rewrite Hy in E. discriminate.
    + apply IH; auto. simpl in Hlen. lia.
Qed.

Lemma replace_all_cls_gone p hi rep s :
  hi_left hi = true ->
  Forall (fun c => p c = false) rep ->
  Forall (fun c => p c = false) (replace_all (Cls p 1 hi) rep s).
Proof.
  intros. apply replace_loop_cls_gone; auto.
Qed.

(** ** Fuel

    The loops get one unit of fuel per code unit of the input (and one
    more for the replacement and match loops): they never use it up,
    more fuel changes nothing. *)

Lemma replace_loop_fuel r rep fuel : forall fuel' prev rest,
  (length rest < fuel)%nat -> (length rest < fuel')%nat ->
  replace_loop fuel r rep prev rest = replace_loop fuel' r rep prev rest.
Proof.
  induction fuel as [|fuel IH]; intros fuel' prev rest H1 H2; [lia|].
  destruct fuel' as [|fuel']; [lia|]. cbn [replace_loop].
  destruct (match_here r prev rest) as [[ms rest']|] eqn:E.
  - destruct (length rest' <? length rest)%nat eqn:El.
    + apply Nat.ltb_lt in El. f_equal. apply IH; lia.
    + destruct rest as [|c t]; [reflexivity|].
      do 2 f_equal. apply IH; simpl in *; lia.
  - destruct rest as [|c t]; [reflexivity|].
    f_equal. apply IH; simpl in *; lia.
Qed.

Lemma match_loop_fuel r fuel : forall fuel' prev rest,
  (length rest < fuel)%nat -> (length rest < fuel')%nat ->
  match_loop fuel r prev rest = match_loop fuel' r prev rest.
Proof.
  induction fuel as [|fuel IH]; intros fuel' prev rest H1 H2; [lia|].
  destruct fuel' as [|fuel']; [lia|]. cbn [match_loop].
  destruct (match_here r prev rest) as [[ms rest']|] eqn:E.
  - cbv zeta. destruct (length rest' <? length rest)%nat eqn:El.
    + apply Nat.ltb_lt in El. f_equal. apply IH; lia.
    + destruct rest as [|c t]; [reflexivity|].
      f_equal. apply IH; simpl in *; lia.
  - destruct rest as [|c t]; [reflexivity|].
    apply IH; simpl in *; lia.
Qed.

Lemma split_loop_fuel r fuel : forall fuel' prev rest piece,
  (length rest <= fuel)%nat -> (length rest <= fuel')%nat ->
  split_loop fuel r prev rest piece = split_loop fuel' r prev rest piece.
Proof.
  induction fuel as [|fuel IH]; intros fuel' prev rest piece H1 H2.
  - destruct rest; [|simpl in H1; lia].
    destruct fuel'; simpl; rewrite ?app_nil_r; reflexivity.
  - destruct fuel' as [|fuel'].
    + destruct rest; [|simpl in H2; lia]. simpl. rewrite app_nil_r. reflexivity.
    + cbn [split_loop]. destruct rest as [|c t]; [reflexivity|].
      destruct (match_here r prev (c :: t)) as [[ms rest']|] eqn:E.
      * destruct (length rest' <? length (c :: t))%nat eqn:El.
        -- apply Nat.ltb_lt in El. f_equal. apply IH; simpl in *; lia.
        -- destruct piece; [|f_equal]; apply IH; simpl in *; lia.
      * apply IH; simpl in *; lia.
Qed.


(** * Facts about cleanText *)

(** ** Neighbouring code units *)

Lemma no_pair_two p c d s :
  no_pair p (c :: d :: s) = negb (p c && p d) && no_pair p (d :: s).
Proof. reflexivity. Qed.

Lemma no_pair_tail p c s : no_pair p (c :: s) = true -> no_pair p s = true.
Proof.
  destruct s as [|d s]; [reflexivity|].
  rewrite no_pair_two. intros H. apply andb_true_iff in H. tauto.
Qed.

Lemma no_pair_cons p c s :
  no_pair p s = true ->
  p c = false \/ head_ok (fun d => negb (p d)) s = true ->
  no_pair p (c :: s) = true.
Proof.
  intros Hs H. destruct s as [|d s]; [reflexivity|].
  rewrite no_pair_two. rewrite Hs, andb_true_r.
  destruct H as [H|H].
  - rewrite H. reflexivity.
  - simpl in H. apply negb_true_iff in H. rewrite H, andb_false_r. reflexivity.
Qed.

Lemma no_pair_swap_tail p a c s t :
  no_pair p (a :: c :: s) = true -> no_pair p (c :: t) = true ->
  no_pair p (a :: c :: t) = true.
Proof.
  intros H1 H2. rewrite !no_pair_two in *.
  apply andb_true_iff in H1 as [H1 _]. rewrite H1, andb_true_l. exact H2.
Qed.

Lemma no_pair_app_r p a b : no_pair p (a ++ b) = true -> no_pair p b = true.
Proof.
  induction a as [|c a IH]; simpl app; auto.
  intros H. apply IH. eapply no_pair_tail; eauto.
Qed.

Lemma no_pair_app_l p a b : no_pair p (a ++ b) = true -> no_pair p a = true.
Proof.
  induction a as [|c a IH]; [reflexivity|].
  intros H. destruct a as [|d a]; [reflexivity|].
  simpl app in *. rewrite !no_pair_two in *.
  apply andb_true_iff in H as [H1 H2]. rewrite H1. simpl. apply IH, H2.
Qed.

(** Runs of two or more of a class replaced by one code unit: no two
    neighbours of the class are left. *)
Lemma replace_loop_pairs_gone p x fuel : forall prev rest,
  (length rest < fuel)%nat ->
  no_pair p (replace_loop fuel (Cls p 2 None) [x] prev rest) = true
  /\ (head_ok (fun c => negb (p c)) rest = true ->
      head_ok (fun c => negb (p c))
        (replace_loop fuel (Cls p 2 None) [x] prev rest) = true).
Proof.
  induction fuel as [|fuel IH]; intros prev rest Hlen; [lia|].
  cbn [replace_loop]. rewrite match_here_cls_unbounded.
  destruct (2 <=? length (run p rest))%nat eqn:E.
  - apply Nat.leb_le in E.
    pose proof (after_run_length p rest) as Hl.
    assert (length (after_run p rest) < length rest)%nat as Hlt by lia.
    apply Nat.ltb_lt in Hlt as Hlt'. rewrite Hlt'.
    destruct (IH (last_cu (take (length rest - length (after_run p rest)) rest))
                (after_run p rest)) as [IH1 IH2]; [lia|].
    specialize (IH2 (after_run_head p rest)).
    split.
    + simpl app. apply no_pair_cons; auto.
    + intros H. destruct rest as [|c t]; [simpl in E; lia|].
      simpl in H. simpl in E. apply negb_true_iff in H. rewrite H in E.
      simpl in E. lia.
  - apply Nat.leb_gt in E.
    destruct rest as [|c t]; [split; reflexivity|].
    destruct (IH (Some c) t) as [IH1 IH2]; [simpl in Hlen; lia|].
    split.
    + apply no_pair_cons; auto.
      destruct (p c) eqn:Hc; auto. right. apply IH2.
      simpl in E. rewrite Hc in E. simpl in E.
      destruct t as [|d t]; [reflexivity|].
      simpl. simpl in E. destruct (p d); [simpl in E; lia|reflexivity].
    + simpl. auto.
Qed.

Lemma replace_all_pairs_gone p x s :
  no_pair p (replace_all (Cls p 2 None) [x] s) = true.
Proof. apply replace_loop_pairs_gone. lia. Qed.

(** A replacement by a code unit outside the class brings no new pair
    of neighbours of the class. *)
Lemma replace_loop_no_pair p r x fuel : p x = false -> forall prev rest,
  no_pair p rest = true ->
  no_pair p (replace_loop fuel r [x] prev rest) = true
  /\ (forall a, no_pair p (a :: rest) = true ->
        no_pair p (a :: replace_loop fuel r [x] prev rest) = true).
Proof.
  intros Hx. induction fuel as [|fuel IH]; intros prev rest Hrest; [simpl; auto|].
  cbn [replace_loop].
  destruct (match_here r prev rest) as [[ms rest']|] eqn:E.
  - destruct (match_here_sound _ _ _ _ _ E) as (cs & Heq & _).
    assert (no_pair p rest' = true) as Hr' by (subst rest; eapply no_pair_app_r; eauto).
    destruct (length rest' <? length rest)%nat.
    + destruct (IH (last_cu (take (length rest - length rest') rest)) rest' Hr')
        as [IH1 _].
      simpl app. split.
      * apply no_pair_cons; auto.
      * intros a _. apply no_pair_cons; auto. apply no_pair_cons; auto.
        right. simpl. rewrite Hx. reflexivity.
    + destruct rest as [|c t].
      * split; [reflexivity|]. intros a _. apply no_pair_cons; auto.
        right. simpl. rewrite Hx. reflexivity.
      * destruct (IH (Some c) t (no_pair_tail _ _ _ Hrest)) as [_ IH2].
        specialize (IH2 c Hrest). simpl app. split.
        -- apply no_pair_cons; auto.
        -- intros a _. apply no_pair_cons; [apply no_pair_cons; auto|].
           right. simpl. rewrite Hx. reflexivity.
  - destruct rest as [|c t]; [split; auto|].
    destruct (IH (Some c) t (no_pair_tail _ _ _ Hrest)) as [_ IH2].
    specialize (IH2 c Hrest). split; auto.
    intros a Ha. eapply no_pair_swap_tail; eauto.
Qed.

Lemma replace_all_no_pair p r x s :
  p x = false -> no_pair p s = true -> no_pair p (replace_all r [x] s) = true.
Proof. intros Hx Hs. apply replace_loop_no_pair; auto. Qed.

(** ** Replacements that change nothing *)

Lemma replace_all_cls_id p lo hi rep s :
  Forall (fun c => p c = false) s ->
  replace_all (Cls p (S lo) hi) rep s = s.
Proof.
  intros H. apply replace_all_id. intros pre rest' prev' ->.
  apply Forall_app in H as [_ H].
  unfold match_here. cbn [m]. apply rep_head_fail.
  destruct rest' as [|c t]; [reflexivity|].
  inversion H; subst. simpl. apply negb_true_iff. assumption.
Qed.

Lemma replace_all_edges_id rep s :
  Forall (fun c => edge_junk c = false) s ->
  replace_all re_edges rep s = s.
Proof.
  intros H. apply replace_all_id. intros pre rest' prev' ->.
  apply Forall_app in H as [_ H].
  assert (head_ok (fun c => negb (edge_junk c)) rest' = true) as Hh.
  { destruct rest' as [|c t]; [reflexivity|].
    inversion H; subst. simpl. apply negb_true_iff. assumption. }
  unfold match_here, re_edges, plus. cbn [m].
  rewrite !(rep_head_fail _ _ _ _ _ _ _ Hh).
  destruct prev'; reflexivity.
Qed.

Lemma replace_all_pairs_id p rep s :
  no_pair p s = true -> replace_all (Cls p 2 None) rep s = s.
Proof.
  intros H. apply replace_all_id. intros pre rest' prev' ->.
  apply no_pair_app_r in H.
  rewrite match_here_cls_unbounded.
  destruct rest' as [|c [|d t]]; simpl.
  - reflexivity.
  - destruct (p c); reflexivity.
  - rewrite no_pair_two in H. apply andb_true_iff in H as [H _].
    destruct (p c); simpl; [|reflexivity].
    destruct (p d); simpl in *; [discriminate|reflexivity].
Qed.

(** ** trim *)

Lemma trimStart_suffix s : exists pre, s = pre ++ trimStart s.
Proof.
  induction s as [|c s [pre IH]]; [exists []; reflexivity|].
  simpl. destruct (is_space c).
  - exists (c :: pre). simpl. congruence.
  - exists []. reflexivity.
Qed.

Lemma trimEnd_prefix s : exists post, s = trimEnd s ++ post.
Proof.
  induction s as [|c s [post IH]]; [exists []; reflexivity|].
  simpl. destruct (trimEnd s) as [|d r] eqn:E.
  - destruct (is_space c).
    + exists (c :: s). reflexivity.
    + exists s. reflexivity.
  - exists post. simpl. f_equal. exact IH.
Qed.

Lemma trim_Forall (Q : N -> Prop) s : Forall Q s -> Forall Q (trim s).
Proof.
  intros H. unfold trim.
  destruct (trimStart_suffix s) as [pre Hs].
  destruct (trimEnd_prefix (trimStart s)) as [post Ht].
  rewrite Hs, Ht in H.
  apply Forall_app in H as [_ H]. apply Forall_app in H as [H _]. exact H.
Qed.

Lemma trim_no_pair p s : no_pair p s = true -> no_pair p (trim s) = true.
Proof.
  intros H. unfold trim.
  destruct (trimStart_suffix s) as [pre Hs].
  destruct (trimEnd_prefix (trimStart s)) as [post Ht].
  rewrite Hs, Ht in H.
  apply no_pair_app_r in H. apply no_pair_app_l in H. exact H.
Qed.

Lemma trimStart_head s : head_ok non_space (trimStart s) = true.
Proof.
  induction s as [|c s IH]; [reflexivity|].
  simpl. destruct (is_space c) eqn:E; auto.
  simpl. unfold non_space. rewrite E. reflexivity.
Qed.

Lemma trimEnd_head p s : head_ok p s = true -> head_ok p (trimEnd s) = true.
Proof.
  destruct s as [|c s]; [reflexivity|].
  simpl. intros H. destruct (trimEnd s).
  - destruct (is_space c); simpl; auto.
  - simpl. exact H.
Qed.

Lemma trimEnd_last s : last_ok non_space (trimEnd s) = true.
Proof.
  unfold last_ok. induction s as [|c s IH]; [reflexivity|].
  simpl. destruct (trimEnd s) as [|d r] eqn:E.
  - destruct (is_space c) eqn:Hc; [reflexivity|].
    simpl. unfold non_space. rewrite Hc. reflexivity.
  - change (last (c :: d :: r)) with (last (d :: r)). exact IH.
Qed.

Lemma trim_head s : head_ok non_space (trim s) = true.
Proof. apply trimEnd_head, trimStart_head. Qed.

Lemma trim_last s : last_ok non_space (trim s) = true.
Proof. apply trimEnd_last. Qed.

Lemma trimStart_id s : head_ok non_space s = true -> trimStart s = s.
Proof.
  destruct s as [|c s]; [reflexivity|].
  simpl. unfold non_space. intros H. apply negb_true_iff in H. rewrite H. reflexivity.
Qed.

Lemma trimEnd_id s : last_ok non_space s = true -> trimEnd s = s.
Proof.
  unfold last_ok. induction s as [|c s IH]; [reflexivity|].
  destruct s as [|d s].
  - simpl. unfold non_space. intros H. apply negb_true_iff in H. rewrite H. reflexivity.
  - change (last (c :: d :: s)) with (last (d :: s)). intros H.
    specialize (IH H). cbn [trimEnd]. cbn [trimEnd] in IH. rewrite IH. reflexivity.
Qed.

Lemma trim_id s :
  head_ok non_space s = true -> last_ok non_space s = true -> trim s = s.
Proof.
  intros H1 H2. unfold trim. rewrite (trimStart_id _ H1). apply trimEnd_id, H2.
Qed.


(** ** Character classes of cleanText *)

Ltac bool_to_prop :=
  repeat first
    [ rewrite negb_true_iff in * | rewrite negb_false_iff in *
    | rewrite andb_true_iff in * | rewrite orb_true_iff in *
    | rewrite andb_false_iff in * | rewrite orb_false_iff in *
    | rewrite N.leb_le in * | rewrite N.leb_gt in *
    | rewrite N.eqb_eq in * | rewrite N.eqb_neq in * ].

Lemma tidy_not_garbage v c : tidy_cu v c = true -> garbage v c = false.
Proof.
  unfold tidy_cu. intros H. apply andb_true_iff in H as [_ H].
  apply negb_true_iff in H. exact H.
Qed.

Lemma tidy_ascii v c : tidy_cu v c = true -> non_ascii c = false.
Proof.
  unfold tidy_cu, non_ascii. intros H. apply andb_true_iff in H as [H _].
  apply andb_true_iff in H as [_ H]. rewrite H. reflexivity.
Qed.

Lemma tidy_final v c : tidy_cu v c = true -> final_drop c = false.
Proof.
  unfold tidy_cu, final_drop. intros H. apply andb_true_iff in H as [H _].
  apply andb_true_iff in H as [H _]. rewrite H. reflexivity.
Qed.

Lemma tidy_not_dash v c : tidy_cu v c = true -> is_dash c = false.
Proof.
  intros H. apply tidy_ascii in H.
  unfold non_ascii, is_ascii, is_dash, in_range, one_of, existsb in *.
  bool_to_prop. lia.
Qed.

Lemma tidy_edge v c : tidy_cu v c = true -> edge_junk c = false.
Proof.
  intros H. pose proof (tidy_not_garbage _ _ H) as Hg.
  unfold tidy_cu in H. apply andb_true_iff in H as [H _].
  apply andb_true_iff in H as [H _].
  assert (is_char 95 c = false) as H95.
  { destruct v; unfold garbage, one_of, existsb, is_char in *; bool_to_prop; lia. }
  unfold edge_junk, edge_keep, final_keep, is_word in *.
  rewrite H95, orb_false_r in H.
  apply negb_false_iff.
  destruct (is_alnum c); [reflexivity|]. destruct (is_space c); [apply orb_true_r|].
  simpl in *. unfold one_of, existsb in *. bool_to_prop. lia.
Qed.

Lemma tidy_intro v c :
  final_drop c = false -> non_ascii c = false -> garbage v c = false ->
  tidy_cu v c = true.
Proof.
  unfold tidy_cu, final_drop, non_ascii. intros H1 H2 H3.
  apply negb_false_iff in H1, H2. rewrite H1, H2, H3. reflexivity.
Qed.

Lemma blank_not_garbage v : garbage v 32 = false.
Proof. destruct v; reflexivity. Qed.

(** ** The result of cleanText is clean, and cleanText leaves a clean
    text as it is *)

Lemma cleanText_clean v s : clean v (cleanText v s).
Proof.
  unfold cleanText. destruct s as [|c0 s0].
  { repeat split; constructor. }
  generalize (c0 :: s0) as s. clear c0 s0. intros s.
  change (str "-") with [45]. change (str " ") with [32].
  set (s1 := replace_all re_dash [45] s).
  set (s2 := replace_all re_edges [] s1).
  set (s3 := replace_all (re_garbage v) [32] s2).
  set (s4 := replace_all re_dashes [32] s3).
  set (s5 := replace_all re_spaces [32] s4).
  set (s6 := replace_all re_non_ascii [32] s5).
  set (s7 := replace_all re_final [32] s6).
  set (s8 := replace_all re_spaces [32] s7).
  assert (Forall (fun c => garbage v c = false) s8) as Hg.
  { assert (Forall (fun c => garbage v c = false) [32]) as Hb
      by (repeat constructor; apply blank_not_garbage).
    unfold s8, s7, s6, s5, s4.
    do 5 (apply replace_all_Forall; [exact Hb|]).
    apply replace_all_cls_gone; auto. }
  assert (Forall (fun c => non_ascii c = false) s8) as Ha.
  { unfold s8, s7. do 2 (apply replace_all_Forall; [repeat constructor|]).
    apply replace_all_cls_gone; auto. }
  assert (Forall (fun c => final_drop c = false) s8) as Hf.
  { unfold s8. apply replace_all_Forall; [repeat constructor|].
    apply replace_all_cls_gone; auto. }
  assert (no_pair dash_or_underscore s8 = true) as Hd.
  { unfold s8, s7, s6, s5.
    do 4 (apply replace_all_no_pair; [reflexivity|]).
    apply replace_all_pairs_gone. }
  assert (no_pair is_space s8 = true) as Hs by apply replace_all_pairs_gone.
  repeat split.
  - apply trim_Forall.
    rewrite Forall_forall in *. intros c Hc. apply tidy_intro; auto.
  - apply trim_no_pair, Hd.
  - apply trim_no_pair, Hs.
  - apply trim_head.
  - apply trim_last.
Qed.

Lemma cleanText_fixed v s : clean v s -> cleanText v s = s.
Proof.
  intros (Ht & Hd & Hs & Hh & Hl).
  unfold cleanText. destruct s as [|c0 s0]; [reflexivity|].
  revert Ht Hd Hs Hh Hl. generalize (c0 :: s0) as s. clear c0 s0.
  intros s Ht Hd Hs Hh Hl.
  unfold re_dash, re_garbage, re_dashes, re_spaces, re_non_ascii, re_final.
  unfold cls1, plus.
  rewrite (replace_all_cls_id is_dash); 
    [|eapply Forall_impl; eauto; apply tidy_not_dash].
  rewrite replace_all_edges_id;
    [|eapply Forall_impl; eauto; apply tidy_edge].
  rewrite (replace_all_cls_id (garbage v));
    [|eapply Forall_impl; eauto; apply tidy_not_garbage].
  rewrite (replace_all_pairs_id dash_or_underscore _ s); [|assumption].
  rewrite (replace_all_pairs_id is_space _ s); [|assumption].
  rewrite (replace_all_cls_id non_ascii);
    [|eapply Forall_impl; eauto; apply tidy_ascii].
  rewrite (replace_all_cls_id final_drop);
    [|eapply Forall_impl; eauto; apply tidy_final].
  rewrite (replace_all_pairs_id is_space); [|assumption].
  apply trim_id; assumption.
Qed.

(** C9.  normalize is idempotent: cleaning a cleaned text changes
    nothing, for every input string and in both copies of the source. *)
Theorem cleanText_idempotent (v : variant) (s : jstr) :
  cleanText v (cleanText v s) = cleanText v s.
Proof. apply cleanText_fixed, cleanText_clean. Qed.


(** * Facts about the parser computations *)

Lemma returns_ret {A} (P : A -> Prop) a : P a -> returns P (ret a).
Proof. intros H st. exists a, st. auto. Qed.

Lemma returns_bind {A B} (P : A -> Prop) (Q : B -> Prop) (c : M A) (f : A -> M B) :
  returns P c -> (forall a, P a -> returns Q (f a)) -> returns Q (bind c f).
Proof.
  intros Hc Hf st. destruct (Hc st) as (a & st1 & E & Ha).
  destruct (Hf a Ha st1) as (b & st2 & E2 & Hb).
  exists b, st2. unfold bind. rewrite E. auto.
Qed.

Lemma returns_weaken {A} (P Q : A -> Prop) (c : M A) :
  returns P c -> (forall a, P a -> Q a) -> returns Q c.
Proof.
  intros Hc H st. destruct (Hc st) as (a & st1 & E & Ha). eauto.
Qed.

Lemma returns_lift {A} (P : A -> Prop) (c : outcome A) :
  yields P c -> returns P (lift c).
Proof. intros (a & -> & Ha) st. exists a, st. auto. Qed.

Lemma returns_test_g p s : returns (fun _ => True) (test_g p s).
Proof.
  intros st. unfold test_g.
  destruct (exec_from (regex p) s (lastIndex p st)) as [[b e]|]; eauto.
Qed.

Lemma returns_match_g s p :
  returns (fun r => r = match_all (regex p) s) (match_g s p).
Proof. intros st. unfold match_g. eauto. Qed.

Lemma returns_orM (a b : M bool) :
  returns (fun _ => True) a -> returns (fun _ => True) b ->
  returns (fun _ => True) (orM a b).
Proof.
  intros Ha Hb. unfold orM. eapply returns_bind; eauto.
  intros [] _; auto. apply returns_ret; auto.
Qed.

Lemma returns_mapM {A B} (P : B -> Prop) (f : A -> M B) (l : list A) :
  (forall x, returns P (f x)) -> returns (Forall P) (mapM f l).
Proof.
  intros Hf. induction l as [|x l IH]; simpl.
  - apply returns_ret. constructor.
  - eapply returns_bind; [apply Hf|]. intros y Hy.
    eapply returns_bind; [apply IH|]. intros ys Hys.
    apply returns_ret. constructor; auto.
Qed.

Ltac returns_true :=
  repeat first
    [ apply returns_orM
    | apply returns_test_g
    | apply returns_ret; exact I ].

Lemma returns_classifyLine line : returns (fun _ => True) (classifyLine line).
Proof.
  unfold classifyLine.
  eapply returns_bind; [returns_true|]. intros [] _; [returns_true|].
  eapply returns_bind; [returns_true|]. intros [] _; [returns_true|].
  eapply returns_bind; [returns_true|]. intros [] _; [returns_true|].
  repeat match goal with
         | |- returns _ (if ?b then _ else _) => destruct b
         end; returns_true.
Qed.

Lemma returns_splitSingleLine v lines :
  returns (fun _ => True) (splitSingleLine v lines).
Proof.
  unfold splitSingleLine, search_g.
  destruct lines as [|l [|l2 ls]]; try (apply returns_ret; exact I).
  destruct (50 <? length l)%nat; [|apply returns_ret; exact I].
  eapply (returns_bind (fun _ => True)); [apply returns_ret; exact I|].
  intros emailPos _.
  eapply (returns_bind (fun _ => True)); [apply returns_ret; exact I|].
  intros phonePos1 _.
  eapply (returns_bind (fun _ => True));
    [destruct phonePos1; apply returns_ret; exact I|].
  intros phonePos _.
  eapply (returns_bind (fun _ => True)); [apply returns_ret; exact I|].
  intros websitePos1 _.
  eapply (returns_bind (fun _ => True));
    [destruct websitePos1; apply returns_ret; exact I|].
  intros websitePos _.
  repeat match goal with
         | |- returns _ (if ?b then _ else _) => destruct b
         | |- returns _ (let '(_, _) := ?x in _) => destruct x
         end; apply returns_ret; exact I.
Qed.

(** ** The contact under construction *)

Lemma shape_insert k s c :
  k = "name"%string \/ k = "phone"%string \/ k = "email"%string \/ k = "company"%string ->
  inferred_shape c -> inferred_shape (<[k := JStr s]> c).
Proof.
  unfold inferred_shape.
  intros Hk ([n Hn] & [p Hp] & [e He] & [cm Hcm] & Ht).
  destruct Hk as [-> | [-> | [-> | ->]]];
    repeat split; simplify_map_eq; eauto.
Qed.

Lemma keeps_insert k s p c :
  k = "name"%string \/ k = "email"%string \/ k = "company"%string ->
  keeps_phone p c -> keeps_phone p (<[k := JStr s]> c).
Proof.
  intros Hk [Hs Hp]. split.
  - apply shape_insert; auto. tauto.
  - unfold get in *. destruct Hk as [-> | [-> | ->]]; simplify_map_eq; auto.
Qed.

Lemma keeps_set_phone q p c :
  keeps_phone q c -> keeps_phone p (<["phone" := JStr p]> c).
Proof.
  intros [Hs _]. split.
  - apply shape_insert; auto.
  - unfold get. simplify_map_eq. reflexivity.
Qed.

Lemma emptyContact_keeps : keeps_phone [] emptyContact.
Proof.
  unfold keeps_phone, inferred_shape, emptyContact, get.
  repeat split; simplify_map_eq; eauto.
Qed.

Lemma truthy_str x : truthy x = true -> exists c s, x = JStr (c :: s).
Proof. destruct x as [| |[|c s]]; try discriminate. eauto. Qed.

Lemma returns_normalizeFields v p c cls :
  keeps_phone p c -> returns (keeps_phone p) (normalizeFields v c cls).
Proof.
  intros Hc. unfold normalizeFields.
  eapply (returns_bind (fun _ => True)).
  - destruct (truthy (get c "company")) eqn:E; simpl.
    + apply truthy_str in E as (x & s & ->). simpl.
      eapply (returns_bind (fun _ => True)).
      * apply returns_lift. eexists; eauto.
      * intros; apply returns_ret; exact I.
    + apply returns_ret; exact I.
  - intros [] _; [|apply returns_ret; exact Hc].
    destruct (List.find _ cls); apply returns_ret; auto.
    apply keeps_insert; auto.
Qed.

Lemma final_phone_nil v : final_phone v [] = [].
Proof. destruct v; reflexivity. Qed.

Lemma returns_normalizePhone v p :
  returns (fun r => r = final_phone v p) (normalizePhone v (JStr p)).
Proof.
  unfold normalizePhone. destruct p as [|c p]; simpl.
  - apply returns_ret. rewrite final_phone_nil. reflexivity.
  - eapply (returns_bind (fun r => r = c :: p)).
    + apply returns_lift. eexists; eauto.
    + intros r ->. destruct v; apply returns_ret; reflexivity.
Qed.

Lemma returns_first_original (f : jstr -> M (gmap string jsval))
    (Q : gmap string jsval -> Prop) (k : M (gmap string jsval)) arr :
  (forall o, returns Q (f o)) -> returns Q k ->
  returns Q (if (0 <? length arr)%nat
             then bind (lift (first_original arr)) f
             else k).
Proof.
  intros Hf Hk. destruct arr as [|cl arr]; simpl; auto.
  eapply (returns_bind (fun _ => True)); [|intros; apply Hf].
  apply returns_lift. eexists; eauto.
Qed.

(** What [extractContactInfo] returns, for every text and from every
    state of the patterns: a record of the four string properties whose
    phone is the processed candidate. *)
Lemma extractContactInfo_spec v text :
  returns (fun c => inferred_shape c
                    /\ get c "phone" = JStr (final_phone v (phoneCandidate v text)))
    (extractContactInfo v text).
Proof.
  unfold extractContactInfo. destruct text as [|c0 t0].
  { apply returns_ret. split; [apply emptyContact_keeps|].
    rewrite final_phone_nil. reflexivity. }
  set (text := c0 :: t0).
  set (P := phoneCandidate v text).
  eapply returns_bind; [apply returns_match_g|]. intros emailMatch _.
  eapply (returns_bind (keeps_phone [])).
  { destruct emailMatch as [[|x l]|]; simpl;
      try (apply returns_ret; apply emptyContact_keeps).
    eapply (returns_bind (fun _ => True)).
    - apply returns_lift. eexists; split; [reflexivity|exact I].
    - intros e _. apply returns_ret. apply keeps_insert; auto.
      apply emptyContact_keeps. }
  intros c1 H1.
  eapply returns_bind; [apply returns_match_g|]. intros pm1 ->.
  eapply (returns_bind (fun pm => pm =
            match match_all re_phone (cleanText v text) with
            | Some l => Some l
            | None => match_all re_phoneAlt (cleanText v text)
            end)).
  { simpl regex. destruct (match_all re_phone (cleanText v text)).
    - apply returns_ret. reflexivity.
    - eapply returns_weaken; [apply returns_match_g|]. auto. }
  intros pm ->.
  eapply (returns_bind (keeps_phone P)).
  { unfold P, phoneCandidate. cbv zeta.
    destruct (match match_all re_phone (cleanText v text) with
              | Some l => Some l
              | None => match_all re_phoneAlt (cleanText v text)
              end) as [[|x l]|]; simpl;
      try (apply returns_ret; exact H1).
    eapply (returns_bind (fun r => r = trim x)).
    - apply returns_lift. eexists; split; reflexivity.
    - intros r ->. apply returns_ret. eapply keeps_set_phone; eauto. }
  intros c2 H2.
  eapply returns_bind; [apply returns_splitSingleLine|]. intros lines _.
  eapply returns_bind; [apply (returns_mapM (fun _ => True)), returns_classifyLine|].
  intros cls _.
  eapply (returns_bind (keeps_phone P)).
  { apply returns_first_original.
    - intros o. apply returns_ret; apply keeps_insert; auto.
    - apply returns_first_original.
      + intros o. apply returns_ret; apply keeps_insert; auto.
      + apply returns_ret; auto. }
  intros c3 H3.
  eapply (returns_bind (keeps_phone P)).
  { match goal with |- returns _ (if (0 <? length ?a)%nat then _ else _) =>
      destruct a as [|cl0 arr] eqn:Earr end; simpl.
    - apply returns_first_original.
      + intros o. apply returns_ret; apply keeps_insert; auto.
      + apply returns_ret; auto.
    - eapply (returns_bind (fun _ => True)).
      + destruct (is_type TCompany cl0); [apply returns_ret; exact I|].
        destruct (List.find _ arr); [apply returns_ret; exact I|].
        apply returns_lift. eexists; split; [reflexivity|exact I].
      + intros o _. apply returns_ret; apply keeps_insert; auto. }
  intros c4 H4.
  eapply returns_bind; [apply returns_normalizeFields; eauto|].
  intros c5 H5. cbv zeta.
  assert (keeps_phone P
            (<["company" := JStr (cleanText_val v
                 (get (<["name" := JStr (cleanText_val v (get c5 "name"))]> c5) "company"))]>
               (<["name" := JStr (cleanText_val v (get c5 "name"))]> c5))) as H6.
  { apply keeps_insert; auto. apply keeps_insert; auto. }
  destruct H6 as [H6s H6p].
  rewrite H6p.
  eapply returns_bind; [apply returns_normalizePhone|]. intros ph ->.
  eapply (returns_bind (fun _ => True)).
  { match goal with |- returns _ (if truthy ?x then _ else _) =>
      destruct (truthy x) eqn:E end.
    - apply truthy_str in E as (x & s & ->).
      eapply (returns_bind (fun _ => True)).
      + apply returns_lift. eexists; split; [reflexivity|exact I].
      + intros; apply returns_ret; exact I.
    - apply returns_ret; exact I. }
  intros em _. apply returns_ret. split.
  - apply shape_insert; auto. apply shape_insert; auto.
  - unfold get. simplify_map_eq. reflexivity.
Qed.


(** * Matches are pieces of the input *)

Lemma scan_sound r : forall rest prev idx b ms rest',
  scan r prev rest idx = Some (b, ms, rest') ->
  exists pre consumed,
    rest = pre ++ consumed ++ rest' /\ (idx + length pre = b)%nat
    /\ Forall (fun c => alphabet r c = true) consumed.
Proof.
  induction rest as [|c t IH]; intros prev idx b ms rest' H; simpl in H.
  - destruct (match_here r prev []) as [[ms1 r1]|] eqn:E; [|discriminate].
    inversion H; subst.
    destruct (match_here_sound _ _ _ _ _ E) as (cs & Heq & Hall).
    exists [], cs. simpl. repeat split; auto.
  - destruct (match_here r prev (c :: t)) as [[ms1 r1]|] eqn:E.
    + inversion H; subst.
      destruct (match_here_sound _ _ _ _ _ E) as (cs & Heq & Hall).
      exists [], cs. simpl. repeat split; auto.
    + destruct (IH _ _ _ _ _ H) as (pre & cs & -> & Hb & Hall).
      exists (c :: pre), cs. simpl. repeat split; auto. lia.
Qed.

Lemma replace_first_Forall (Q : N -> Prop) r s :
  Forall Q s -> Forall Q (replace_first r [] s).
Proof.
  intros H. unfold replace_first.
  destruct (scan r None s 0) as [[[b ms] rest']|] eqn:E; auto.
  destruct (scan_sound _ _ _ _ _ _ _ E) as (pre & cs & Heq & Hb & _).
  simpl in Hb. subst b. rewrite Heq in *.
  rewrite take_app_length. simpl.
  apply Forall_app in H as [H1 H2]. apply Forall_app in H2 as [_ H2].
  apply Forall_app; auto.
Qed.

Lemma match_loop_sound r (Q : N -> Prop) fuel : forall prev rest,
  Forall Q rest ->
  Forall (fun x => Forall (fun c => alphabet r c = true) x /\ Forall Q x)
    (match_loop fuel r prev rest).
Proof.
  induction fuel as [|fuel IH]; intros prev rest Hrest; simpl; [constructor|].
  destruct (match_here r prev rest) as [[ms rest']|] eqn:E.
  - destruct (match_here_sound _ _ _ _ _ E) as (cs & Heq & Hall).
    assert (take (length rest - length rest') rest = cs) as Htake.
    { subst rest. rewrite length_app.
      replace (length cs + length rest' - length rest')%nat with (length cs) by lia.
      apply take_app_length. }
    rewrite Htake.
    assert (Forall Q cs /\ Forall Q rest') as [Hcs Hr']
      by (subst rest; apply Forall_app in Hrest; tauto).
    destruct (length rest' <? length rest)%nat.
    + constructor; auto.
    + destruct rest as [|c t].
      * repeat constructor; auto.
      * constructor; auto. apply IH. inversion Hrest; auto.
  - destruct rest as [|c t]; [constructor|].
    apply IH. inversion Hrest; auto.
Qed.

Lemma match_all_sound r (Q : N -> Prop) s l :
  match_all r s = Some l -> Forall Q s ->
  Forall (fun x => Forall (fun c => alphabet r c = true) x /\ Forall Q x) l.
Proof.
  unfold match_all. intros H Hs.
  pose proof (match_loop_sound r Q (S (length s)) None s Hs) as Hl.
  destruct (match_loop (S (length s)) r None s); [discriminate|].
  inversion H; subst. exact Hl.
Qed.

(** * The phone of an inferred contact *)

Lemma phone_alphabet v c :
  (alphabet re_phone c = true \/ alphabet re_phoneAlt c = true) ->
  tidy_cu v c = true ->
  is_digit c = true \/ phone_sep c = true.
Proof.
  intros Ha Ht. apply tidy_not_garbage in Ht.
  assert (is_char 43 c = false /\ is_char 40 c = false /\ is_char 41 c = false)
    as (H43 & H40 & H41).
  { destruct v; unfold garbage, one_of, existsb, is_char in *;
      bool_to_prop; repeat split; lia. }
  cbn [alphabet re_phone re_phoneAlt seq opt grp opt_cls] in Ha.
  rewrite H43, H40, H41 in Ha.
  destruct (is_digit c); [auto|]. destruct (phone_sep c); [auto|].
  simpl in Ha. destruct Ha; discriminate.
Qed.

Lemma phoneCandidate_chars v text :
  Forall (fun c => is_digit c = true \/ phone_sep c = true) (phoneCandidate v text).
Proof.
  unfold phoneCandidate. cbv zeta.
  destruct (cleanText_clean v text) as [Ht _].
  destruct (match_all re_phone (cleanText v text)) as [l|] eqn:E1.
  - pose proof (match_all_sound _ _ _ _ E1 Ht) as Hl.
    destruct l as [|m0 l]; [constructor|].
    inversion Hl as [|? ? [Ha Hq] _]; subst.
    apply trim_Forall. rewrite Forall_forall in *. intros c Hc.
    eapply phone_alphabet; eauto.
  - destruct (match_all re_phoneAlt (cleanText v text)) as [l|] eqn:E2; [|constructor].
    pose proof (match_all_sound _ _ _ _ E2 Ht) as Hl.
    destruct l as [|m0 l]; [constructor|].
    inversion Hl as [|? ? [Ha Hq] _]; subst.
    apply trim_Forall. rewrite Forall_forall in *. intros c Hc.
    eapply phone_alphabet; eauto.
Qed.

Lemma strip_separators_gone p :
  Forall (fun c => phone_sep c = false) (strip_separators p).
Proof. apply replace_all_cls_gone; auto. Qed.

Lemma strip_separators_digits p :
  Forall (fun c => is_digit c = true \/ phone_sep c = true) p ->
  Forall (fun c => is_digit c = true) (strip_separators p).
Proof.
  intros H.
  pose proof (strip_separators_gone p) as Hg.
  assert (Forall (fun c => is_digit c = true \/ phone_sep c = true)
            (strip_separators p)) as Hd
    by (apply replace_all_Forall; auto).
  rewrite Forall_forall in *. intros c Hc.
  destruct (Hd c Hc) as [|Hs]; auto.
  rewrite (Hg c Hc) in Hs. discriminate.
Qed.

Lemma final_phone_digits v text :
  Forall (fun c => is_digit c = true) (final_phone v (phoneCandidate v text)).
Proof.
  pose proof (strip_separators_digits _ (phoneCandidate_chars v text)) as H.
  destruct v; simpl; auto.
  apply replace_first_Forall. exact H.
Qed.

Lemma final_phone_no_separator v p :
  Forall (fun c => phone_sep c = false) (final_phone v p).
Proof.
  destruct v; simpl.
  - apply replace_first_Forall. apply strip_separators_gone.
  - apply strip_separators_gone.
Qed.

Lemma strip_leading_one_1 q : strip_leading_one (49 :: q) = q.
Proof.
  unfold strip_leading_one, replace_first. cbn.
  destruct q as [|d q]; cbn; [reflexivity|].
  rewrite andb_false_r. reflexivity.
Qed.

Lemma strip_leading_one_plus1 q : strip_leading_one (43 :: 49 :: q) = q.
Proof.
  unfold strip_leading_one, replace_first. cbn.
  destruct q as [|d q]; cbn; [reflexivity|].
  rewrite andb_false_r. reflexivity.
Qed.


(** * Facts about the vCard lines *)

Section OneFacts.
Context {R : Type}.
Implicit Types k : @kont R.

(** Exactly one code unit of a class. *)
Lemma rep_one p ms prev c t k :
  rep p 1 (Some 1%nat) ms prev (c :: t) k = if p c then k ms (Some c) t else None.
Proof.
  cbn [rep]. destruct (p c); cbn [andb hi_left hi_pred Nat.pred]; [|reflexivity].
  destruct t as [|d t]; cbn [rep].
  - destruct (k ms (Some c) []); reflexivity.
  - rewrite andb_false_r. destruct (k ms (Some c) (d :: t)); reflexivity.
Qed.

(** Greedy, up to the end of the input. *)
Lemma rep_greedy_all p cs lo ms prev k x :
  Forall (fun c => p c = true) cs ->
  (lo <= length cs)%nat ->
  k ms (behind prev cs) [] = Some x ->
  rep p lo None ms prev cs k = Some x.
Proof.
  intros Hall Hlo Hk. rewrite <- (app_nil_r cs) at 1.
  apply rep_greedy; auto.
Qed.

End OneFacts.

Lemma scan_bos r : forall rest c idx, scan (Cat Bos r) (Some c) rest idx = None.
Proof.
  induction rest as [|d rest IH]; intros c idx; simpl; auto.
Qed.

Lemma groups_of_line (f v : jstr) :
  groups (f ++ 58 :: v) [length (f ++ 58 :: v); S (length v); length v; 0%nat] = [f; v].
Proof.
  set (line := f ++ 58 :: v).
  assert (length line = (length f + S (length v))%nat) as Hlen
    by (unfold line; rewrite length_app; reflexivity).
  cbn [groups]. unfold substring.
  rewrite Nat.sub_diag, !Nat.sub_0_r. rewrite drop_0.
  replace (length line - S (length v))%nat with (length f) by lia.
  replace (length line - (length line - length v))%nat with (length v) by lia.
  replace (length line - length v)%nat with (length (f ++ [58]))
    by (rewrite length_app; simpl; lia).
  unfold line. rewrite take_app_length.
  replace (f ++ 58 :: v) with ((f ++ [58]) ++ v) by (rewrite <- app_assoc; reflexivity).
  rewrite drop_app_length, firstn_all. reflexivity.
Qed.

(** The line pattern accepts exactly [field:value] with a non-empty
    field part without colon and a non-empty value without line
    terminator, and captures the two. *)
Lemma vcard_line_accepts f v :
  f <> [] -> Forall (fun c => not_colon c = true) f ->
  v <> [] -> Forall (fun c => dot c = true) v ->
  match_groups re_vcard_line (f ++ 58 :: v) = Some [f ++ 58 :: v; f; v].
Proof.
  intros Hf Hfc Hv Hvd.
  assert (match_here re_vcard_line None (f ++ 58 :: v)
          = Some ([length (f ++ 58 :: v); S (length v); length v; 0%nat], [])) as Hm.
  { unfold match_here, re_vcard_line, plus, chr, grp. cbn [seq m app].
    apply rep_greedy; auto.
    - destruct f; [congruence|]. simpl. lia.
    - rewrite rep_one. cbn.
      apply rep_greedy_all; auto.
      destruct v; [congruence|]. simpl. lia. }
  unfold match_groups.
  assert (scan re_vcard_line None (f ++ 58 :: v) 0
          = Some (0%nat, [length (f ++ 58 :: v); S (length v); length v; 0%nat], [])) as Hs.
  { destruct f as [|c f]; [congruence|]. simpl app in *. cbn [scan]. rewrite Hm. reflexivity. }
  rewrite Hs. rewrite groups_of_line. unfold substring.
  rewrite Nat.sub_0_r. cbn [drop length]. rewrite Nat.sub_0_r, firstn_all. reflexivity.
Qed.

Lemma vcard_line_sound line mt :
  match_groups re_vcard_line line = Some mt ->
  exists f v, mt = [line; f; v] /\ line = f ++ 58 :: v /\ f <> [] /\ v <> [].
Proof.
  unfold match_groups. intros H.
  destruct (scan re_vcard_line None line 0) as [[[b ms] rest']|] eqn:E; [|discriminate].
  inversion H; subst mt; clear H.
  assert (match_here re_vcard_line None line = Some (ms, rest') /\ b = 0%nat) as [Hm ->].
  { destruct line as [|c t]; simpl in E.
    - destruct (match_here re_vcard_line None []) as [[? ?]|]; inversion E; auto.
    - destruct (match_here re_vcard_line None (c :: t)) as [[? ?]|] eqn:E1.
      + inversion E; auto.
      + unfold re_vcard_line in E. cbn [seq] in E. rewrite scan_bos in E. discriminate. }
  clear E. unfold match_here, re_vcard_line, plus, chr, grp in Hm. cbn [seq m app] in Hm.
  apply rep_sound in Hm as (f & r1 & -> & Hf & Hlf & Hm).
  cbn beta in Hm. cbn [m] in Hm.
  destruct r1 as [|c r2]; [discriminate|].
  rewrite rep_one in Hm. destruct (is_char 58 c) eqn:Hc; [|discriminate].
  apply N.eqb_eq in Hc. subst c.
  apply rep_sound in Hm as (v & r3 & -> & Hv & Hlv & Hm).
  cbn beta in Hm. cbn [m] in Hm.
  destruct r3 as [|? ?]; [|discriminate].
  inversion Hm; subst ms rest'; clear Hm.
  rewrite app_nil_r in *.
  exists f, v. repeat split.
  - rewrite groups_of_line. unfold substring.
    rewrite Nat.sub_0_r. cbn [drop length]. rewrite Nat.sub_0_r, firstn_all. reflexivity.
  - intros ->. simpl in Hlf. lia.
  - intros ->. simpl in Hlv. lia.
Qed.

Lemma split_char_cons c s : exists h t, split_char c s = h :: t.
Proof.
  induction s as [|x s (h & t & IH)]; simpl; eauto.
  destruct (x =? c); eauto. rewrite IH. eauto.
Qed.

(** Reading a line never throws, and a value it reads is a non-empty
    string. *)
Lemma read_line_spec line :
  yields (fun r => match r with
                   | None => True
                   | Some (_, v) => exists s, v = JStr s /\ s <> []
                   end) (read_line line).
Proof.
  unfold read_line, yields.
  destruct (jstr_eqb (trim line) [] || startsWith line (str "BEGIN")
            || startsWith line (str "END")); [exists None; auto|].
  destruct (match_groups re_vcard_line line) as [mt|] eqn:E; [|exists None; auto].
  apply vcard_line_sound in E as (f & v & -> & _ & Hf & Hv).
  change (elem [line; f; v] 1) with (JStr f).
  change (elem [line; f; v] 2) with (JStr v).
  cbn [as_str obind].
  destruct (split_char_cons 59 f) as (h & t & ->).
  change (elem (h :: t) 0) with (JStr h). cbn [as_str obind].
  eexists. split; [reflexivity|]. cbn. eauto.
Qed.

Lemma record_insert k s c :
  k = "name"%string \/ k = "phone"%string \/ k = "email"%string
  \/ k = "company"%string \/ k = "eventTag"%string ->
  record_shape c -> record_shape (<[k := JStr s]> c).
Proof.
  unfold record_shape.
  intros Hk ([n Hn] & [p Hp] & [e He] & [cm Hcm] & [t Ht]).
  destruct Hk as [-> | [-> | [-> | [-> | ->]]]];
    repeat split; simplify_map_eq; eauto.
Qed.

Lemma emptyRecord_shape : record_shape emptyRecord.
Proof.
  unfold record_shape, emptyRecord. repeat split; simplify_map_eq; eauto.
Qed.

Lemma assign_shape c f s :
  record_shape c -> yields record_shape (assign c f (JStr s)).
Proof.
  intros Hc. unfold assign, yields. cbv zeta.
  repeat match goal with
         | |- context [if ?b then _ else _] => destruct b
         end;
    cbn [as_str obind];
    repeat match goal with
           | |- context [if ?b then _ else _] => destruct b
           end;
    eexists; (split; [reflexivity|]); auto; apply record_insert; auto; tauto.
Qed.

Lemma parse_line_shape c line :
  record_shape c -> yields record_shape (parse_line c line).
Proof.
  intros Hc. unfold parse_line.
  destruct (read_line_spec line) as (r & -> & Hr). cbn [obind].
  destruct r as [[f v]|]; [|exists c; auto].
  destruct Hr as (s & -> & _). apply assign_shape, Hc.
Qed.

Lemma parse_lines_shape lines : forall c,
  record_shape c -> yields record_shape (parse_lines c lines).
Proof.
  induction lines as [|l lines IH]; intros c Hc; simpl.
  - exists c; auto.
  - destruct (parse_line_shape c l Hc) as (c' & -> & Hc'). simpl. auto.
Qed.

(** [parse] never throws; its record has the five string properties. *)
Lemma parse_shape text : yields record_shape (parse text).
Proof.
  unfold parse. destruct text.
  - exists emptyRecord. split; auto. apply emptyRecord_shape.
  - apply parse_lines_shape, emptyRecord_shape.
Qed.

(** [generate] never throws, whatever the properties of the contact
    hold. *)
Lemma generate_total contact : exists text, generate contact = Ok text.
Proof.
  unfold generate.
  destruct (truthy (get contact "name")) eqn:En.
  - apply truthy_str in En as (c & s & ->). cbn [as_str obind].
    destruct (1 <? length (split_re re_ws (trim (c :: s))))%nat; cbn [obind];
      destruct (truthy (get contact "phone")) eqn:Ep;
      try (apply truthy_str in Ep as (c1 & s1 & ->)); cbn [as_str obind]; eauto.
  - cbn [obind].
    destruct (truthy (get contact "phone")) eqn:Ep;
      try (apply truthy_str in Ep as (c1 & s1 & ->)); cbn [as_str obind]; eauto.
Qed.


(** * Which line of a vCard decides a property *)

Lemma get_insert_eq k x (c : gmap string jsval) : get (<[k := x]> c) k = x.
Proof. unfold get. rewrite lookup_insert_eq. reflexivity. Qed.

Lemma get_insert_ne k k' x (c : gmap string jsval) :
  k <> k' -> get (<[k := x]> c) k' = get c k'.
Proof. intros H. unfold get. rewrite lookup_insert_ne; auto. Qed.

Lemma jstr_eqb_true a b : jstr_eqb a b = true -> a = b.
Proof. unfold jstr_eqb. intros H. apply bool_decide_eq_true in H. exact H. Qed.

(** A field that stores into another property leaves [k] alone. *)
Lemma assign_other c f v c' k :
  assign c f v = Ok c' -> target f <> Some k -> get c' k = get c k.
Proof.
  unfold assign, target. cbv zeta. intros H Hk.
  repeat match type of H with
         | context [if jstr_eqb ?a ?b then _ else _] => destruct (jstr_eqb a b)
         end;
    try (destruct (as_str v); cbn [obind] in H; [|discriminate]);
    repeat match type of H with
           | context [if ?b then _ else _] => destruct b
           end;
    inversion H; subst; auto;
    apply get_insert_ne; congruence.
Qed.

Lemma parse_line_other c l c' k :
  parse_line c l = Ok c' -> line_target l <> Some k -> get c' k = get c k.
Proof.
  unfold parse_line, line_target. intros H Hk.
  destruct (read_line l) as [[[f v]|]|]; cbn [obind] in H.
  - eapply assign_other; eauto.
  - inversion H; auto.
  - discriminate.
Qed.

Lemma parse_lines_other k ls : forall c c',
  parse_lines c ls = Ok c' ->
  Forall (fun l => line_target l <> Some k) ls -> get c' k = get c k.
Proof.
  induction ls as [|l ls IH]; intros c c' H Hall; simpl in H.
  - inversion H; auto.
  - inversion Hall; subst.
    destruct (parse_line c l) as [c1|] eqn:E; cbn [obind] in H; [|discriminate].
    rewrite (IH _ _ H); auto. eapply parse_line_other; eauto.
Qed.

Lemma parse_lines_app a : forall b c,
  parse_lines c (a ++ b) = obind (parse_lines c a) (fun c' => parse_lines c' b).
Proof.
  induction a as [|l a IH]; intros b c; simpl; auto.
  destruct (parse_line c l); cbn [obind]; auto.
Qed.

(** Once the phone (or the email) is a non-empty string, no line
    changes it. *)
Lemma assign_keeps_first c f v c' k :
  k = "phone"%string \/ k = "email"%string ->
  truthy (get c k) = true -> assign c f v = Ok c' -> get c' k = get c k.
Proof.
  intros Hk Ht H.
  destruct (decide (target f = Some k)) as [E|E]; [|eapply assign_other; eauto].
  unfold assign, target in *. cbv zeta in H.
  repeat match type of H with
         | context [if jstr_eqb ?a ?b then _ else _] => destruct (jstr_eqb a b)
         end;
    try (destruct Hk; congruence);
    inversion E; subst k; rewrite Ht in H; inversion H; auto.
Qed.

Lemma parse_lines_keeps_first k ls : forall c c',
  k = "phone"%string \/ k = "email"%string ->
  truthy (get c k) = true -> parse_lines c ls = Ok c' -> get c' k = get c k.
Proof.
  induction ls as [|l ls IH]; intros c c' Hk Ht H; simpl in H.
  - inversion H; auto.
  - destruct (parse_line c l) as [c1|] eqn:E; cbn [obind] in H; [|discriminate].
    assert (get c1 k = get c k) as E1.
    { unfold parse_line in E.
      destruct (read_line l) as [[[f v]|]|]; cbn [obind] in E.
      - eapply assign_keeps_first; eauto.
      - inversion E; auto.
      - discriminate. }
    rewrite (IH c1 c' Hk); auto. rewrite E1. exact Ht.
Qed.

(** A non-empty raw value unescapes to a non-empty string. *)
Lemma replace_all_nonempty r x s : s <> [] -> replace_all r [x] s <> [].
Proof.
  intros Hs. unfold replace_all. cbn [replace_loop].
  destruct (match_here r None s) as [[ms rest']|].
  - destruct (length rest' <? length s)%nat; [discriminate|].
    destruct s; discriminate.
  - destruct s; [congruence|discriminate].
Qed.

Lemma unescape_nonempty v : v <> [] -> truthy (JStr (unescape (JStr v))) = true.
Proof.
  intros Hv. destruct v as [|c v]; [congruence|].
  unfold unescape.
  assert (forall s, s <> [] -> truthy (JStr s) = true) as Ht
    by (intros [|? ?]; [congruence|reflexivity]).
  apply Ht. do 4 apply replace_all_nonempty. discriminate.
Qed.

Lemma split_char_single c s h : split_char c s = [h] -> h = s.
Proof.
  revert h. induction s as [|x s IH]; intros h H; simpl in H.
  - inversion H; auto.
  - destruct (split_char_cons c s) as (p & ps & E). rewrite E in H.
    destruct (x =? c); [discriminate|].
    inversion H; subst. f_equal. apply IH. exact E.
Qed.

(** The [N] case always assigns the structured name. *)
Lemma assign_N c v :
  v <> [] ->
  assign c (str "N") (JStr v) = Ok (<["name" := JStr (structured_name v)]> c).
Proof.
  intros Hv. unfold assign, structured_name. cbv zeta.
  change (jstr_eqb (str "N") (str "FN")) with false.
  change (jstr_eqb (str "N") (str "N")) with true.
  cbn [as_str obind].
  destruct (2 <=? length (split_char 59 v))%nat eqn:E; [reflexivity|].
  apply Nat.leb_gt in E.
  destruct (split_char_cons 59 v) as (h & t & Hs). rewrite Hs in *.
  destruct t as [|? ?]; [|simpl in E; lia].
  apply split_char_single in Hs. subst h.
  change (elem [v] 0) with (JStr v).
  destruct v; [congruence|]. reflexivity.
Qed.

Lemma reads_nonempty line field v : reads line field v -> v <> [].
Proof.
  unfold reads. intros H.
  destruct (read_line_spec line) as (r & E & Hr).
  rewrite H in E. inversion E; subst r.
  destruct Hr as (s & Hs & Hne). inversion Hs; subst. exact Hne.
Qed.

Lemma parse_line_reads c line field v :
  reads line field v -> parse_line c line = assign c (str field) (JStr v).
Proof. unfold reads, parse_line. intros ->. reflexivity. Qed.

(** The first line of a first-wins field decides. *)
Lemma first_line_wins k field c0 pre line post v c :
  (k = "phone"%string /\ field = "TEL"%string)
  \/ (k = "email"%string /\ field = "EMAIL"%string) ->
  truthy (get c0 k) = false ->
  parse_lines c0 (pre ++ line :: post) = Ok c ->
  Forall (fun l => line_target l <> Some k) pre ->
  reads line field v ->
  get c k = JStr (unescape (JStr v)).
Proof.
  intros Hk H0 H Hpre Hr.
  rewrite parse_lines_app in H.
  destruct (parse_lines c0 pre) as [c1|] eqn:E1; cbn [obind] in H; [|discriminate].
  pose proof (parse_lines_other _ _ _ _ E1 Hpre) as Hc1.
  simpl in H. rewrite (parse_line_reads _ _ _ _ Hr) in H.
  assert (assign c1 (str field) (JStr v) = Ok (<[k := JStr (unescape (JStr v))]> c1)) as Ha.
  { unfold assign. cbv zeta.
    destruct Hk as [[-> ->] | [-> ->]]; rewrite Hc1, H0; reflexivity. }
  rewrite Ha in H. cbn [obind] in H.
  erewrite parse_lines_keeps_first; eauto.
  - apply get_insert_eq.
  - destruct Hk as [[-> _] | [-> _]]; auto.
  - rewrite get_insert_eq. apply unescape_nonempty. eapply reads_nonempty; eauto.
Qed.

(** The last line of an overwriting field decides. *)
Lemma last_line_wins k x c0 pre line post c :
  (forall c1, parse_line c1 line = Ok (<[k := x]> c1)) ->
  parse_lines c0 (pre ++ line :: post) = Ok c ->
  Forall (fun l => line_target l <> Some k) post ->
  get c k = x.
Proof.
  intros Hl H Hpost.
  rewrite parse_lines_app in H.
  destruct (parse_lines c0 pre) as [c1|] eqn:E1; cbn [obind] in H; [|discriminate].
  simpl in H. rewrite Hl in H. cbn [obind] in H.
  rewrite (parse_lines_other _ _ _ _ H Hpost). apply get_insert_eq.
Qed.

Lemma parse_unfold text :
  parse text = parse_lines emptyRecord (split_re re_crlf text) \/ text = [].
Proof. destruct text; auto. Qed.


(** * Splitting and joining *)

Lemma join_cons sep p ps : ps <> [] -> join sep (p :: ps) = p ++ sep ++ join sep ps.
Proof. destruct ps; [congruence|reflexivity]. Qed.

Lemma join_snoc sep init l :
  init <> [] -> join sep (init ++ [l]) = join sep init ++ sep ++ l.
Proof.
  induction init as [|p init IH]; [congruence|]. intros _.
  destruct init as [|q init].
  - reflexivity.
  - change ((p :: q :: init) ++ [l]) with (p :: ((q :: init) ++ [l])).
    rewrite join_cons by (destruct init; discriminate).
    rewrite IH by discriminate.
    rewrite (join_cons sep p (q :: init)) by discriminate.
    rewrite <- !app_assoc. reflexivity.
Qed.

Lemma split_loop_nonempty r fuel : forall prev rest piece,
  split_loop fuel r prev rest piece <> [].
Proof.
  induction fuel as [|fuel IH]; intros prev rest piece; simpl; [discriminate|].
  destruct rest as [|c t]; [discriminate|].
  destruct (match_here r prev (c :: t)) as [[ms rest']|].
  - destruct (length rest' <? length (c :: t))%nat; [discriminate|].
    destruct piece; [apply IH|discriminate].
  - apply IH.
Qed.

Lemma run_app p sep rest :
  Forall (fun c => p c = true) sep -> head_ok (fun c => negb (p c)) rest = true ->
  run p (sep ++ rest) = sep /\ after_run p (sep ++ rest) = rest.
Proof.
  intros Hs Hr. induction Hs as [|c sep Hc _ [IH1 IH2]]; simpl.
  - destruct rest as [|d rest]; auto. simpl in *.
    apply negb_true_iff in Hr. rewrite Hr. auto.
  - rewrite Hc, IH1, IH2. auto.
Qed.

(** Splitting on the runs of a class does not look behind the cursor. *)
Lemma split_loop_prev p fuel : forall prev prev' rest piece,
  split_loop fuel (plus p) prev rest piece = split_loop fuel (plus p) prev' rest piece.
Proof.
  unfold plus. induction fuel as [|fuel IH]; intros prev prev' rest piece; simpl; auto.
  destruct rest as [|c t]; auto.
Qed.

(** A stretch without separator goes to the current piece. *)
Lemma split_loop_piece p line : forall fuel prev piece rest,
  Forall (fun c => p c = false) line ->
  (length line + length rest <= fuel)%nat ->
  split_loop fuel (plus p) prev (line ++ rest) piece
  = split_loop (fuel - length line) (plus p) None rest (piece ++ line).
Proof.
  unfold plus. induction line as [|c line IH]; intros fuel prev piece rest Hl Hf.
  - simpl. rewrite Nat.sub_0_r, app_nil_r. apply (split_loop_prev p).
  - inversion Hl; subst. destruct fuel as [|fuel]; [simpl in Hf; lia|].
    simpl app. cbn [split_loop]. rewrite match_here_cls_unbounded.
    cbn [run]. rewrite H1. cbn [length Nat.leb].
    rewrite IH; auto; [|simpl in Hf; lia].
    rewrite <- app_assoc. reflexivity.
Qed.

(** A separator closes the current piece. *)
Lemma split_loop_sep p sep : forall fuel prev piece rest,
  sep <> [] -> Forall (fun c => p c = true) sep ->
  head_ok (fun c => negb (p c)) rest = true ->
  split_loop (S fuel) (plus p) prev (sep ++ rest) piece
  = piece :: split_loop fuel (plus p) None rest [].
Proof.
  unfold plus. intros fuel prev piece rest Hne Hs Hr.
  destruct (run_app p sep rest Hs Hr) as [E1 E2].
  destruct sep as [|c sep]; [congruence|].
  simpl app in *. cbn [split_loop]. rewrite match_here_cls_unbounded.
  rewrite E1, E2. cbn [length Nat.leb].
  assert (length rest <? S (length (sep ++ rest)))%nat as Hlt.
  { apply Is_true_true, Nat.ltb_lt. rewrite length_app. lia. }
  apply Is_true_true in Hlt. rewrite Hlt.
  f_equal. apply (split_loop_prev p).
Qed.

(** Lines that are joined by a separator are found again by splitting
    on the runs of the separator's class. *)
Lemma split_loop_join p sep lines : forall fuel,
  sep <> [] -> Forall (fun c => p c = true) sep ->
  lines <> [] ->
  Forall (fun l => l <> [] /\ Forall (fun c => p c = false) l) lines ->
  (length (join sep lines) <= fuel)%nat ->
  split_loop fuel (plus p) None (join sep lines) [] = lines.
Proof.
  intros fuel Hne Hs Hl Hall. revert fuel.
  induction lines as [|l lines IH]; [congruence|]. intros fuel Hf.
  inversion Hall as [|? ? [Hl1 Hl2] Hall']; subst.
  destruct lines as [|l2 lines].
  - simpl in *. rewrite <- (app_nil_r l) at 1.
    rewrite split_loop_piece; auto; [|simpl; lia].
    destruct (fuel - length l)%nat; simpl; rewrite ?app_nil_r; reflexivity.
  - rewrite join_cons in * by discriminate.
    rewrite !length_app in Hf.
    assert (1 <= length sep)%nat as Hsep by (destruct sep; [congruence|simpl; lia]).
    rewrite split_loop_piece; auto; [|rewrite length_app; lia].
    destruct (fuel - length l)%nat as [|fuel'] eqn:Ef; [lia|].
    assert (head_ok (fun c => negb (p c)) (join sep (l2 :: lines)) = true) as Hh.
    { inversion Hall' as [|? ? [H1 H2] _]; subst.
      destruct l2 as [|c l2]; [congruence|].
      inversion H2; subst.
      destruct lines; simpl; rewrite H3; reflexivity. }
    rewrite split_loop_sep; auto. simpl app. f_equal.
    apply IH; [discriminate|assumption|]. lia.
Qed.

Lemma split_re_join p sep lines :
  sep <> [] -> Forall (fun c => p c = true) sep ->
  lines <> [] ->
  Forall (fun l => l <> [] /\ Forall (fun c => p c = false) l) lines ->
  split_re (plus p) (join sep lines) = lines.
Proof.
  intros Hne Hs Hl Hall. unfold split_re.
  destruct (join sep lines) as [|c t] eqn:E.
  - destruct lines as [|l lines]; [congruence|].
    inversion Hall as [|? ? [H1 _] _]; subst.
    destruct l; [congruence|]. destruct lines; simpl in E; discriminate.
  - rewrite <- E. apply split_loop_join; auto.
Qed.

(** A text whose blanks are single spaces is found again by joining
    its words with a space. *)
Lemma split_loop_spaces rest : forall fuel prev piece,
  Forall (fun c => is_space c = true -> c = 32) rest ->
  no_pair is_space rest = true ->
  (length rest <= fuel)%nat ->
  join [32] (split_loop fuel re_ws prev rest piece) = piece ++ rest.
Proof.
  unfold re_ws, plus.
  induction rest as [|c t IH]; intros fuel prev piece Hs Hp Hf.
  - destruct fuel; simpl; rewrite ?app_nil_r; reflexivity.
  - destruct fuel as [|fuel]; [simpl in Hf; lia|].
    inversion Hs as [|? ? Hc Ht]; subst.
    cbn [split_loop]. rewrite match_here_cls_unbounded. cbn [run after_run].
    destruct (is_space c) eqn:Ec.
    + specialize (Hc eq_refl). subst c.
      assert (head_ok (fun c => negb (is_space c)) t = true) as Hh.
      { destruct t as [|d t]; [reflexivity|].
        rewrite no_pair_two in Hp. apply andb_true_iff in Hp as [Hp _].
        rewrite Ec in Hp. simpl in *. exact Hp. }
      assert (run is_space t = [] /\ after_run is_space t = t) as [E1 E2].
      { destruct t as [|d t]; [auto|]. simpl in *.
        apply negb_true_iff in Hh. rewrite Hh. auto. }
      rewrite E1, E2. cbn [length Nat.leb].
      assert (length t <? S (length t))%nat as Hlt
        by (apply Is_true_true, Nat.ltb_lt; lia).
      apply Is_true_true in Hlt. rewrite Hlt.
      rewrite join_cons by apply split_loop_nonempty.
      rewrite IH; auto.
      * eapply no_pair_tail; eauto.
      * simpl in Hf. lia.
    + cbn [length Nat.leb].
      rewrite IH; auto.
      * rewrite <- app_assoc. reflexivity.
      * eapply no_pair_tail; eauto.
      * simpl in Hf. lia.
Qed.

Lemma split_re_spaces s :
  Forall (fun c => is_space c = true -> c = 32) s ->
  no_pair is_space s = true ->
  join [32] (split_re re_ws s) = s.
Proof.
  intros Hs Hp. unfold split_re. destruct s as [|c t]; [reflexivity|].
  rewrite split_loop_spaces; auto.
Qed.

(** * The lines of a generated vCard *)

Lemma get_record name phone email company eventTag :
  let r := record name phone email company eventTag in
  get r "name" = JStr name /\ get r "phone" = JStr phone
  /\ get r "email" = JStr email /\ get r "company" = JStr company
  /\ get r "eventTag" = JStr eventTag.
Proof. unfold record, get. repeat split; simplify_map_eq; reflexivity. Qed.

Lemma generate_lines name phone email company eventTag :
  generate (record name phone email company eventTag)
  = Ok (join CRLF (vcard_lines name phone email company eventTag)).
Proof.
  unfold generate, vcard_lines.
  destruct (get_record name phone email company eventTag) as (-> & -> & -> & -> & ->).
  unfold n_line, fn_line, tel_line, email_line, org_line, tag_line.
  destruct name as [|n0 name]; cbn [truthy as_str obind when_set app];
    [|destruct (1 <? length (split_re re_ws (trim (n0 :: name))))%nat;
      cbn [obind app]];
    (destruct phone as [|p0 phone]; cbn [truthy as_str obind when_set app]);
    (destruct email as [|e0 email]; cbn [truthy as_str obind when_set app]);
    (destruct company as [|c0 company]; cbn [truthy as_str obind when_set app]);
    (destruct eventTag as [|t0 eventTag]; cbn [truthy as_str obind when_set app]);
    reflexivity.
Qed.

(** ** Escaping a simple value changes nothing *)

Lemma forallb_Forall (p : N -> bool) s :
  forallb p s = true -> Forall (fun c => p c = true) s.
Proof.
  induction s as [|c s IH]; simpl; intros H; constructor;
    apply andb_true_iff in H; tauto.
Qed.

Lemma replace_all_cat_id p lo hi r2 rep s :
  Forall (fun c => p c = false) s ->
  replace_all (Cat (Cls p (S lo) hi) r2) rep s = s.
Proof.
  intros H. apply replace_all_id. intros pre rest' prev' ->.
  apply Forall_app in H as [_ H].
  unfold match_here. cbn [m]. apply rep_head_fail.
  destruct rest' as [|c t]; [reflexivity|].
  inversion H; subst. simpl. apply negb_true_iff. assumption.
Qed.

Lemma simple_cu_facts c :
  simple_cu c = true ->
  is_char 92 c = false /\ is_char 59 c = false /\ is_char 44 c = false
  /\ is_char 10 c = false /\ is_char 13 c = false
  /\ dot c = true /\ one_of [13; 10] c = false.
Proof.
  unfold simple_cu, is_ascii, one_of, existsb, is_char, dot, is_line_terminator,
    one_of, existsb.
  intros H. bool_to_prop. repeat split; try lia.
Qed.

Lemma escape_simple s : simple_value s = true -> escape (JStr s) = s.
Proof.
  intros H. apply forallb_Forall in H.
  destruct s as [|c s]; [reflexivity|]. unfold escape.
  unfold re_backslash, re_semicolon, re_comma, re_lf, re_cr, chr.
  rewrite (replace_all_cls_id (is_char 92));
    [|eapply Forall_impl; eauto; intros ? Hc; apply simple_cu_facts in Hc; tauto].
  rewrite (replace_all_cls_id (is_char 59));
    [|eapply Forall_impl; eauto; intros ? Hc; apply simple_cu_facts in Hc; tauto].
  rewrite (replace_all_cls_id (is_char 44));
    [|eapply Forall_impl; eauto; intros ? Hc; apply simple_cu_facts in Hc; tauto].
  rewrite (replace_all_cls_id (is_char 10));
    [|eapply Forall_impl; eauto; intros ? Hc; apply simple_cu_facts in Hc; tauto].
  rewrite (replace_all_cls_id (is_char 13));
    [|eapply Forall_impl; eauto; intros ? Hc; apply simple_cu_facts in Hc; tauto].
  reflexivity.
Qed.

Lemma unescape_plain s :
  Forall (fun c => is_char 92 c = false) s -> unescape (JStr s) = s.
Proof.
  intros H. destruct s as [|c s]; [reflexivity|]. unfold unescape.
  unfold re_esc_n, re_esc_comma, re_esc_semicolon, re_esc_backslash, chr.
  do 4 (rewrite (replace_all_cat_id _ _ _ _ _ (c :: s)); [|exact H]).
  reflexivity.
Qed.

Lemma unescape_simple s : simple_value s = true -> unescape (JStr s) = s.
Proof.
  intros H. apply unescape_plain. apply forallb_Forall in H.
  eapply Forall_impl; eauto. intros ? Hc. apply simple_cu_facts in Hc. tauto.
Qed.

Lemma plain_phone_kept s :
  plain_phone s = true -> replace_all re_phone_clean [] s = s.
Proof.
  intros H. apply forallb_Forall in H. unfold re_phone_clean, cls1.
  apply replace_all_cls_id. eapply Forall_impl; eauto.
  simpl. intros c Hc. apply negb_true_iff in Hc. exact Hc.
Qed.

(** ** Reading the generated lines back *)

Lemma differs_startsWith f : forall p rest,
  differs f p = true -> startsWith (f ++ rest) p = false.
Proof.
  induction f as [|c f IH]; intros p rest H; [discriminate|].
  destruct p as [|x p]; [discriminate|].
  simpl in *. destruct (c =? x); simpl in *; auto.
Qed.

Lemma trim_nonempty s : head_ok non_space s = true -> s <> [] -> trim s <> [].
Proof.
  intros Hh Hs. unfold trim. rewrite trimStart_id by assumption.
  destruct s as [|c r]; [congruence|].
  simpl in *. unfold non_space in Hh. apply negb_true_iff in Hh. rewrite Hh.
  destruct (trimEnd r); discriminate.
Qed.

Lemma dot_not_crlf c : dot c = true -> one_of [13; 10] c = false.
Proof.
  unfold dot, is_line_terminator, one_of, existsb. intros H. bool_to_prop. lia.
Qed.

Lemma not_colon_dot_prefix (f : jstr) (v : jstr) :
  Forall (fun c => dot c = true) f -> Forall (fun c => dot c = true) v ->
  Forall (fun c => one_of [13; 10] c = false) (f ++ 58 :: v).
Proof.
  intros Hf Hv. apply Forall_app; split; [|constructor; [reflexivity|]];
    eapply Forall_impl; eauto; apply dot_not_crlf.
Qed.

Lemma good_generated f field v :
  names_field f field = true -> forallb dot f = true ->
  v <> [] -> Forall (fun c => dot c = true) v ->
  good_line (f ++ 58 :: v) field v.
Proof.
  unfold names_field. intros H Hd Hv Hvd.
  repeat (apply andb_true_iff in H as [H ?]).
  assert (f <> []) as Hf.
  { intros ->. discriminate. }
  split; [|split].
  - unfold reads, read_line.
    assert (jstr_eqb (trim (f ++ 58 :: v)) [] = false) as ->.
    { unfold jstr_eqb. apply bool_decide_eq_false. apply trim_nonempty.
      - destruct f; [congruence|]. exact H.
      - destruct f; discriminate. }
    rewrite !differs_startsWith by assumption. cbn [orb].
    rewrite vcard_line_accepts; auto; [|apply forallb_Forall; assumption].
    change (elem [f ++ 58 :: v; f; v] 1) with (JStr f).
    change (elem [f ++ 58 :: v; f; v] 2) with (JStr v).
    cbn [as_str obind].
    destruct (split_char_cons 59 f) as (h & t & Hs). rewrite Hs in *.
    change (elem (h :: t) 0) with (JStr h). cbn [as_str obind hd] in *.
    apply jstr_eqb_true in H0. rewrite H0. reflexivity.
  - destruct f; discriminate.
  - apply not_colon_dot_prefix; auto. apply forallb_Forall; assumption.
Qed.

Lemma simple_dot s :
  simple_value s = true -> Forall (fun c => dot c = true) s.
Proof.
  intros H. apply forallb_Forall in H. eapply Forall_impl; eauto.
  intros c Hc. apply simple_cu_facts in Hc. tauto.
Qed.

Lemma fn_line_good name :
  simple_value name = true -> name <> [] -> good_line (fn_line name) "FN" name.
Proof.
  intros Hs Hn. unfold fn_line. rewrite escape_simple by assumption.
  change (str "FN:" ++ name) with (str "FN" ++ 58 :: name).
  apply good_generated; auto using simple_dot.
Qed.

Lemma tel_line_good phone :
  simple_value phone = true -> plain_phone phone = true -> phone <> [] ->
  good_line (tel_line phone) "TEL" phone.
Proof.
  intros Hs Hp Hn. unfold tel_line.
  rewrite plain_phone_kept, escape_simple by assumption.
  change (str "TEL;TYPE=CELL:" ++ phone) with (str "TEL;TYPE=CELL" ++ 58 :: phone).
  apply good_generated; auto using simple_dot.
Qed.

Lemma email_line_good email :
  simple_value email = true -> email <> [] -> good_line (email_line email) "EMAIL" email.
Proof.
  intros Hs Hn. unfold email_line. rewrite escape_simple by assumption.
  change (str "EMAIL;TYPE=INTERNET:" ++ email)
    with (str "EMAIL;TYPE=INTERNET" ++ 58 :: email).
  apply good_generated; auto using simple_dot.
Qed.

Lemma org_line_good company :
  simple_value company = true -> company <> [] ->
  good_line (org_line company) "ORG" company.
Proof.
  intros Hs Hn. unfold org_line. rewrite escape_simple by assumption.
  change (str "ORG:" ++ company) with (str "ORG" ++ 58 :: company).
  apply good_generated; auto using simple_dot.
Qed.

Lemma tag_line_good eventTag :
  simple_value eventTag = true -> eventTag <> [] ->
  good_line (tag_line eventTag) "X-EVENT-TAG" eventTag.
Proof.
  intros Hs Hn. unfold tag_line. rewrite escape_simple by assumption.
  change (str "X-EVENT-TAG:" ++ eventTag) with (str "X-EVENT-TAG" ++ 58 :: eventTag).
  apply good_generated; auto using simple_dot.
Qed.

Lemma split_char_app c a b :
  Forall (fun x => (x =? c) = false) a ->
  split_char c (a ++ c :: b) = a :: split_char c b.
Proof.
  induction 1 as [|x a Hx _ IH]; simpl.
  - rewrite N.eqb_refl. reflexivity.
  - rewrite Hx, IH. reflexivity.
Qed.

Lemma simple_no_semicolon s :
  Forall (fun c => simple_cu c = true) s -> Forall (fun x => (x =? 59) = false) s.
Proof.
  intros H. eapply Forall_impl; eauto.
  intros c Hc. apply simple_cu_facts in Hc. unfold is_char in Hc. tauto.
Qed.

Lemma Forall_forallb (p : N -> bool) s :
  Forall (fun c => p c = true) s -> forallb p s = true.
Proof. induction 1 as [|c s Hc _ IH]; simpl; [reflexivity|]. rewrite Hc, IH. reflexivity. Qed.

Lemma spaced_name_facts s :
  spaced_name s = true ->
  Forall (fun c => is_space c = true -> c = 32) s
  /\ no_pair is_space s = true
  /\ head_ok non_space s = true /\ last_ok non_space s = true.
Proof.
  unfold spaced_name. intros H.
  repeat (apply andb_true_iff in H as [H ?]).
  repeat split; auto.
  apply forallb_Forall in H. eapply Forall_impl; eauto.
  simpl. intros c Hc Hs. rewrite Hs in Hc. simpl in Hc. apply N.eqb_eq in Hc. exact Hc.
Qed.

(** The value of the structured line when the name has one word. *)
Lemma structured_single name :
  Forall (fun c => simple_cu c = true) name ->
  head_ok non_space name = true -> last_ok non_space name = true ->
  structured_name (name ++ [59; 59; 59]) = name.
Proof.
  intros Hs Hh Hl. unfold structured_name. cbv zeta.
  rewrite split_char_app by (apply simple_no_semicolon; assumption).
  cbn [split_char N.eqb Pos.eqb length Nat.leb].
  change (elem [name; []; []; []] 1) with (JStr []).
  change (elem [name; []; []; []] 0) with (JStr name).
  rewrite (unescape_simple name) by (apply Forall_forallb; assumption).
  change (unescape (JStr []) ++ str " " ++ name) with (32 :: name).
  unfold trim. change (trimStart (32 :: name)) with (trimStart name).
  rewrite trimStart_id by assumption. apply trimEnd_id. assumption.
Qed.

(** The value of the structured line when the name has several
    words. *)
Lemma structured_several first last :
  Forall (fun c => simple_cu c = true) first ->
  Forall (fun c => simple_cu c = true) last ->
  structured_name (last ++ 59 :: first ++ [59; 59; 59])
  = trim (first ++ 32 :: last).
Proof.
  intros Hf Hl. unfold structured_name. cbv zeta.
  rewrite split_char_app by (apply simple_no_semicolon; assumption).
  rewrite split_char_app by (apply simple_no_semicolon; assumption).
  cbn [split_char N.eqb Pos.eqb length Nat.leb].
  change (elem [last; first; []; []; []] 1) with (JStr first).
  change (elem [last; first; []; []; []] 0) with (JStr last).
  rewrite !unescape_simple by (apply Forall_forallb; assumption).
  reflexivity.
Qed.

Lemma n_line_good name :
  simple_value name = true -> spaced_name name = true -> name <> [] ->
  exists v, good_line (n_line name) "N" v /\ structured_name v = name.
Proof.
  intros Hs Hsp Hn.
  destruct (spaced_name_facts _ Hsp) as (Hb & Hp & Hh & Hl).
  pose proof (forallb_Forall _ _ Hs) as Hs'.
  unfold n_line. cbv zeta. rewrite trim_id by assumption.
  pose proof (split_re_spaces name Hb Hp) as Hj.
  destruct (1 <? length (split_re re_ws name))%nat eqn:E.
  - apply Nat.ltb_lt in E.
    destruct (exists_last (l := split_re re_ws name)) as (init & last & Hparts).
    { intros Heq. rewrite Heq in E. simpl in E. lia. }
    rewrite Hparts in *. rewrite length_app in *. cbn [length] in *.
    replace (length init + 1 - 1)%nat with (length init) by lia.
    rewrite take_app_length.
    assert (elem (init ++ [last]) (length init) = JStr last) as ->.
    { unfold elem. rewrite list_lookup_middle; reflexivity. }
    assert (init <> []) as Hi by (intros ->; simpl in E; lia).
    change (str " ") with [32] in *.
    rewrite join_snoc in Hj by assumption.
    assert (Forall (fun c => simple_cu c = true) (join [32] init)
            /\ Forall (fun c => simple_cu c = true) last) as [Hfi Hla].
    { rewrite <- Hj in Hs'. apply Forall_app in Hs' as [H1 H2].
      apply Forall_app in H2 as [_ H2]. auto. }
    rewrite !escape_simple by (apply Forall_forallb; assumption).
    exists (last ++ 59 :: join [32] init ++ [59; 59; 59]). split.
    + change (str "N:" ++ last ++ str ";" ++ join [32] init ++ str ";;;")
        with (str "N" ++ 58 :: last ++ 59 :: join [32] init ++ [59; 59; 59]).
      apply good_generated; auto.
      * destruct last; discriminate.
      * apply Forall_app; split;
          [eapply Forall_impl; eauto; intros ? Hc; apply simple_cu_facts in Hc; tauto|].
        constructor; [reflexivity|].
        apply Forall_app; split;
          [eapply Forall_impl; eauto; intros ? Hc; apply simple_cu_facts in Hc; tauto|].
        repeat constructor.
    + rewrite structured_several by assumption.
      change (join [32] init ++ 32 :: last) with (join [32] init ++ [32] ++ last).
      rewrite Hj. apply trim_id; assumption.
  - rewrite escape_simple by assumption.
    exists (name ++ [59; 59; 59]). split.
    + change (str "N:" ++ name ++ str ";;;") with (str "N" ++ 58 :: name ++ [59; 59; 59]).
      apply good_generated; auto.
      * destruct name; [congruence|discriminate].
      * apply Forall_app; split; [apply simple_dot; assumption|repeat constructor].
    + apply structured_single; assumption.
Qed.

(** ** The round trip *)

Lemma line_target_reads l field v : reads l field v -> line_target l = target (str field).
Proof. unfold reads, line_target. intros ->. reflexivity. Qed.

Lemma when_set_targets k value lines :
  (value <> [] -> Forall (fun l => line_target l <> Some k) lines) ->
  Forall (fun l => line_target l <> Some k) (when_set value lines).
Proof.
  intros H. destruct value; [constructor|]. apply H. discriminate.
Qed.

Lemma when_set_good value lines :
  (value <> [] -> Forall (fun l => l <> [] /\ Forall (fun c => one_of [13; 10] c = false) l) lines) ->
  Forall (fun l => l <> [] /\ Forall (fun c => one_of [13; 10] c = false) l)
    (when_set value lines).
Proof.
  intros H. destruct value; [constructor|]. apply H. discriminate.
Qed.

Lemma good_line_wf l field v :
  good_line l field v -> l <> [] /\ Forall (fun c => one_of [13; 10] c = false) l.
Proof. intros (_ & H1 & H2). auto. Qed.

Lemma good_line_target l field v k :
  good_line l field v -> target (str field) <> Some k -> line_target l <> Some k.
Proof. intros (H & _) Hk. rewrite (line_target_reads _ _ _ H). exact Hk. Qed.

Lemma assign_ORG c v :
  assign c (str "ORG") (JStr v) = Ok (<["company" := JStr (unescape (JStr v))]> c).
Proof. reflexivity. Qed.

Lemma assign_TAG c v :
  assign c (str "X-EVENT-TAG") (JStr v)
  = Ok (<["eventTag" := JStr (unescape (JStr v))]> c).
Proof. reflexivity. Qed.

Lemma assign_FN c v :
  assign c (str "FN") (JStr v) = Ok (<["name" := JStr (unescape (JStr v))]> c).
Proof. reflexivity. Qed.

Lemma fixed_lines_target k :
  line_target (str "BEGIN:VCARD") <> Some k
  /\ line_target (str "VERSION:3.0") <> Some k
  /\ line_target (str "END:VCARD") <> Some k.
Proof. repeat split; vm_compute; discriminate. Qed.

Lemma fixed_lines_good :
  Forall (fun l => l <> [] /\ Forall (fun c => one_of [13; 10] c = false) l)
    [str "BEGIN:VCARD"; str "VERSION:3.0"]
  /\ Forall (fun l => l <> [] /\ Forall (fun c => one_of [13; 10] c = false) l)
       [str "END:VCARD"].
Proof.
  split; repeat constructor; discriminate.
Qed.

Ltac target_ne :=
  match goal with
  | |- target ?f <> Some ?k =>
      let t := eval vm_compute in (target f) in
      change (target f) with t; congruence
  end.

Section RoundTrip.
Variables name phone email company eventTag : jstr.
Hypothesis Hname : simple_value name = true.
Hypothesis Hspaced : spaced_name name = true.
Hypothesis Hphone : simple_value phone = true.
Hypothesis Hplain : plain_phone phone = true.
Hypothesis Hemail : simple_value email = true.
Hypothesis Hcompany : simple_value company = true.
Hypothesis Htag : simple_value eventTag = true.

Let Ln := when_set name [fn_line name; n_line name].
Let Lp := when_set phone [tel_line phone].
Let Le := when_set email [email_line email].
Let Lc := when_set company [org_line company].
Let Lt := when_set eventTag [tag_line eventTag].

Lemma rt_lines :
  vcard_lines name phone email company eventTag
  = [str "BEGIN:VCARD"; str "VERSION:3.0"] ++ Ln ++ Lp ++ Le ++ Lc ++ Lt ++ [str "END:VCARD"].
Proof using Type. reflexivity. Qed.

Lemma rt_Ln k : k <> "name"%string -> Forall (fun l => line_target l <> Some k) Ln.
Proof using Hname Hspaced.
  intros Hk. apply when_set_targets. intros Hn.
  destruct (n_line_good name Hname Hspaced Hn) as (v & Hg & _).
  repeat constructor.
  - eapply good_line_target; [apply fn_line_good; auto|]. target_ne.
  - eapply good_line_target; [apply Hg|]. target_ne.
Qed.

Lemma rt_Lp k : k <> "phone"%string -> Forall (fun l => line_target l <> Some k) Lp.
Proof using Hphone Hplain.
  intros Hk. apply when_set_targets. intros Hn. repeat constructor.
  eapply good_line_target; [apply tel_line_good; auto|]. target_ne.
Qed.

Lemma rt_Le k : k <> "email"%string -> Forall (fun l => line_target l <> Some k) Le.
Proof using Hemail.
  intros Hk. apply when_set_targets. intros Hn. repeat constructor.
  eapply good_line_target; [apply email_line_good; auto|]. target_ne.
Qed.

Lemma rt_Lc k : k <> "company"%string -> Forall (fun l => line_target l <> Some k) Lc.
Proof using Hcompany.
  intros Hk. apply when_set_targets. intros Hn. repeat constructor.
  eapply good_line_target; [apply org_line_good; auto|]. target_ne.
Qed.

Lemma rt_Lt k : k <> "eventTag"%string -> Forall (fun l => line_target l <> Some k) Lt.
Proof using Htag.
  intros Hk. apply when_set_targets. intros Hn. repeat constructor.
  eapply good_line_target; [apply tag_line_good; auto|]. target_ne.
Qed.

Lemma rt_good :
  Forall (fun l => l <> [] /\ Forall (fun c => one_of [13; 10] c = false) l)
    (vcard_lines name phone email company eventTag).
Proof using Hname Hspaced Hphone Hplain Hemail Hcompany Htag.
  rewrite rt_lines. destruct fixed_lines_good as [Hb He].
  repeat (apply Forall_app; split); auto; apply when_set_good; intros Hn.
  - destruct (n_line_good name Hname Hspaced Hn) as (v & Hg & _).
    constructor; [eapply good_line_wf; apply fn_line_good; auto|].
    constructor; [eapply good_line_wf; apply Hg|constructor].
  - constructor; [eapply good_line_wf; apply tel_line_good; auto|constructor].
  - constructor; [eapply good_line_wf; apply email_line_good; auto|constructor].
  - constructor; [eapply good_line_wf; apply org_line_good; auto|constructor].
  - constructor; [eapply good_line_wf; apply tag_line_good; auto|constructor].
Qed.

Lemma rt_parse :
  parse (join CRLF (vcard_lines name phone email company eventTag))
  = parse_lines emptyRecord (vcard_lines name phone email company eventTag).
Proof using Hname Hspaced Hphone Hplain Hemail Hcompany Htag.
  pose proof rt_good as Hg.
  assert (split_re re_crlf (join CRLF (vcard_lines name phone email company eventTag))
          = vcard_lines name phone email company eventTag) as Hs.
  { unfold re_crlf. apply split_re_join.
    - unfold CRLF. intros E; discriminate E.
    - repeat constructor.
    - rewrite rt_lines. simpl. intros E; discriminate E.
    - exact Hg. }
  unfold parse. rewrite Hs.
  destruct (join CRLF (vcard_lines name phone email company eventTag)) eqn:E; [|reflexivity].
  rewrite rt_lines in E. simpl in E.
  destruct (Ln ++ Lp ++ Le ++ Lc ++ Lt ++ [str "END:VCARD"]); discriminate.
Qed.

Lemma rt_name c :
  parse_lines emptyRecord (vcard_lines name phone email company eventTag) = Ok c ->
  get c "name" = JStr name.
Proof using Hname Hspaced Hphone Hplain Hemail Hcompany Htag.
  intros H. rewrite rt_lines in H.
  destruct (fixed_lines_target "name") as (Hb & Hv & He).
  destruct name as [|n0 name'] eqn:En.
  - rewrite (parse_lines_other "name" _ _ _ H); [reflexivity|].
    repeat (apply Forall_app; split); repeat constructor; auto.
    + apply rt_Lp; discriminate.
    + apply rt_Le; discriminate.
    + apply rt_Lc; discriminate.
    + apply rt_Lt; discriminate.
  - rewrite <- En in *.
    assert (name <> []) as Hn by (rewrite En; discriminate).
    destruct (n_line_good name Hname Hspaced Hn) as (v & Hg & Hsn).
    assert (Ln = [fn_line name; n_line name]) as HLn
      by (unfold Ln; rewrite En; reflexivity).
    rewrite HLn in H.
    change ([str "BEGIN:VCARD"; str "VERSION:3.0"] ++ [fn_line name; n_line name]
            ++ Lp ++ Le ++ Lc ++ Lt ++ [str "END:VCARD"])
      with ([str "BEGIN:VCARD"; str "VERSION:3.0"; fn_line name]
            ++ n_line name :: (Lp ++ Le ++ Lc ++ Lt ++ [str "END:VCARD"])) in H.
    eapply (last_line_wins "name" (JStr name) emptyRecord); [|exact H|].
    + intros c1. destruct Hg as (Hr & _).
      rewrite (parse_line_reads _ _ _ _ Hr).
      rewrite assign_N by (eapply reads_nonempty; eauto).
      rewrite Hsn. reflexivity.
    + repeat (apply Forall_app; split); repeat constructor; auto.
      * apply rt_Lp; discriminate.
      * apply rt_Le; discriminate.
      * apply rt_Lc; discriminate.
      * apply rt_Lt; discriminate.
Qed.

Lemma rt_phone c :
  parse_lines emptyRecord (vcard_lines name phone email company eventTag) = Ok c ->
  get c "phone" = JStr phone.
Proof using Hname Hspaced Hphone Hplain Hemail Hcompany Htag.
  intros H. rewrite rt_lines in H.
  destruct (fixed_lines_target "phone") as (Hb & Hv & He).
  destruct phone as [|p0 phone'] eqn:En.
  - rewrite (parse_lines_other "phone" _ _ _ H); [reflexivity|].
    repeat (apply Forall_app; split); repeat constructor; auto.
    + apply rt_Ln; discriminate.
    + apply rt_Le; discriminate.
    + apply rt_Lc; discriminate.
    + apply rt_Lt; discriminate.
  - rewrite <- En in *.
    assert (phone <> []) as Hn by (rewrite En; discriminate).
    assert (Lp = [tel_line phone]) as HLp by (unfold Lp; rewrite En; reflexivity).
    rewrite HLp in H.
    replace ([str "BEGIN:VCARD"; str "VERSION:3.0"] ++ Ln ++ [tel_line phone]
             ++ Le ++ Lc ++ Lt ++ [str "END:VCARD"])
      with (([str "BEGIN:VCARD"; str "VERSION:3.0"] ++ Ln)
            ++ tel_line phone :: (Le ++ Lc ++ Lt ++ [str "END:VCARD"])) in H
      by (rewrite <- !app_assoc; reflexivity).
    destruct (tel_line_good phone Hphone Hplain Hn) as (Hr & _).
    assert (get c "phone" = JStr (unescape (JStr phone))) as Hg.
    { eapply (first_line_wins "phone" "TEL" emptyRecord); [left; auto|reflexivity|exact H| |exact Hr].
      apply Forall_app; split; [repeat constructor; auto|apply rt_Ln; discriminate]. }
    rewrite Hg, unescape_simple by assumption. reflexivity.
Qed.

Lemma rt_email c :
  parse_lines emptyRecord (vcard_lines name phone email company eventTag) = Ok c ->
  get c "email" = JStr email.
Proof using Hname Hspaced Hphone Hplain Hemail Hcompany Htag.
  intros H. rewrite rt_lines in H.
  destruct (fixed_lines_target "email") as (Hb & Hv & He).
  destruct email as [|e0 email'] eqn:En.
  - rewrite (parse_lines_other "email" _ _ _ H); [reflexivity|].
    repeat (apply Forall_app; split); repeat constructor; auto.
    + apply rt_Ln; discriminate.
    + apply rt_Lp; discriminate.
    + apply rt_Lc; discriminate.
    + apply rt_Lt; discriminate.
  - rewrite <- En in *.
    assert (email <> []) as Hn by (rewrite En; discriminate).
    assert (Le = [email_line email]) as HLe by (unfold Le; rewrite En; reflexivity).
    rewrite HLe in H.
    replace ([str "BEGIN:VCARD"; str "VERSION:3.0"] ++ Ln ++ Lp ++ [email_line email]
             ++ Lc ++ Lt ++ [str "END:VCARD"])
      with (([str "BEGIN:VCARD"; str "VERSION:3.0"] ++ Ln ++ Lp)
            ++ email_line email :: (Lc ++ Lt ++ [str "END:VCARD"])) in H
      by (rewrite <- !app_assoc; reflexivity).
    destruct (email_line_good email Hemail Hn) as (Hr & _).
    assert (get c "email" = JStr (unescape (JStr email))) as Hg.
    { eapply (first_line_wins "email" "EMAIL" emptyRecord); [right; auto|reflexivity|exact H| |exact Hr].
      repeat (apply Forall_app; split); [repeat constructor; auto| |].
      - apply rt_Ln; discriminate.
      - apply rt_Lp; discriminate. }
    rewrite Hg, unescape_simple by assumption. reflexivity.
Qed.

Lemma rt_company c :
  parse_lines emptyRecord (vcard_lines name phone email company eventTag) = Ok c ->
  get c "company" = JStr company.
Proof using Hname Hspaced Hphone Hplain Hemail Hcompany Htag.
  intros H. rewrite rt_lines in H.
  destruct (fixed_lines_target "company") as (Hb & Hv & He).
  destruct company as [|c0 company'] eqn:En.
  - rewrite (parse_lines_other "company" _ _ _ H); [reflexivity|].
    repeat (apply Forall_app; split); repeat constructor; auto.
    + apply rt_Ln; discriminate.
    + apply rt_Lp; discriminate.
    + apply rt_Le; discriminate.
    + apply rt_Lt; discriminate.
  - rewrite <- En in *.
    assert (company <> []) as Hn by (rewrite En; discriminate).
    assert (Lc = [org_line company]) as HLc by (unfold Lc; rewrite En; reflexivity).
    rewrite HLc in H.
    replace ([str "BEGIN:VCARD"; str "VERSION:3.0"] ++ Ln ++ Lp ++ Le
             ++ [org_line company] ++ Lt ++ [str "END:VCARD"])
      with (([str "BEGIN:VCARD"; str "VERSION:3.0"] ++ Ln ++ Lp ++ Le)
            ++ org_line company :: (Lt ++ [str "END:VCARD"])) in H
      by (rewrite <- !app_assoc; reflexivity).
    destruct (org_line_good company Hcompany Hn) as (Hr & _).
    eapply (last_line_wins "company" (JStr company) emptyRecord); [|exact H|].
    + intros c1. rewrite (parse_line_reads _ _ _ _ Hr), assign_ORG.
      rewrite unescape_simple by assumption. reflexivity.
    + apply Forall_app; split; [apply rt_Lt; discriminate|repeat constructor; auto].
Qed.

Lemma rt_eventTag c :
  parse_lines emptyRecord (vcard_lines name phone email company eventTag) = Ok c ->
  get c "eventTag" = JStr eventTag.
Proof using Hname Hspaced Hphone Hplain Hemail Hcompany Htag.
  intros H. rewrite rt_lines in H.
  destruct (fixed_lines_target "eventTag") as (Hb & Hv & He).
  destruct eventTag as [|t0 eventTag'] eqn:En.
  - rewrite (parse_lines_other "eventTag" _ _ _ H); [reflexivity|].
    repeat (apply Forall_app; split); repeat constructor; auto.
    + apply rt_Ln; discriminate.
    + apply rt_Lp; discriminate.
    + apply rt_Le; discriminate.
    + apply rt_Lc; discriminate.
  - rewrite <- En in *.
    assert (eventTag <> []) as Hn by (rewrite En; discriminate).
    assert (Lt = [tag_line eventTag]) as HLt by (unfold Lt; rewrite En; reflexivity).
    rewrite HLt in H.
    replace ([str "BEGIN:VCARD"; str "VERSION:3.0"] ++ Ln ++ Lp ++ Le ++ Lc
             ++ [tag_line eventTag] ++ [str "END:VCARD"])
      with (([str "BEGIN:VCARD"; str "VERSION:3.0"] ++ Ln ++ Lp ++ Le ++ Lc)
            ++ tag_line eventTag :: [str "END:VCARD"]) in H
      by (rewrite <- !app_assoc; reflexivity).
    destruct (tag_line_good eventTag Htag Hn) as (Hr & _).
    eapply (last_line_wins "eventTag" (JStr eventTag) emptyRecord); [|exact H|].
    + intros c1. rewrite (parse_line_reads _ _ _ _ Hr), assign_TAG.
      rewrite unescape_simple by assumption. reflexivity.
    + repeat constructor; auto.
Qed.

Lemma rt_roundtrips : roundtrips name phone email company eventTag.
Proof using Hname Hspaced Hphone Hplain Hemail Hcompany Htag.
  unfold roundtrips. rewrite generate_lines.
  destruct (parse_lines_shape (vcard_lines name phone email company eventTag)
              emptyRecord emptyRecord_shape) as (c & Hc & _).
  exists (join CRLF (vcard_lines name phone email company eventTag)), c.
  split; [reflexivity|]. rewrite rt_parse. split; [exact Hc|].
  repeat split.
  - apply rt_name, Hc.
  - apply rt_phone, Hc.
  - apply rt_email, Hc.
  - apply rt_company, Hc.
  - apply rt_eventTag, Hc.
Qed.

End RoundTrip.


(** * The embedding on sample cards *)

Example infer_email :
  result_field "email"
    (extractContactInfo Web
       (str "John Smith" ++ LF ++ str "john@acme.com" ++ LF
        ++ str "555-123-4567" ++ LF ++ str "Acme Inc") fresh)
  = JStr (str "john@acme.com").
Proof. vm_compute. reflexivity. Qed.

Example infer_name_and_company :
  let r := extractContactInfo Mobile
             (str "Jane Doe" ++ LF ++ str "Acme Solutions Inc" ++ LF
              ++ str "jane@acme.com") fresh in
  result_field "name" r = JStr (str "Jane Doe")
  /\ result_field "company" r = JStr (str "Acme Solutions Inc").
Proof. vm_compute. split; reflexivity. Qed.

Example infer_title_as_company :
  result_field "company"
    (extractContactInfo Web
       (str "Robert Lee" ++ LF ++ str "Senior Sales Manager" ++ LF
        ++ str "robert@firm.com") fresh)
  = JStr (str "Senior Sales Manager").
Proof. vm_compute. reflexivity. Qed.

Example infer_single_line :
  let r := extractContactInfo Web
             (str "Jane Doe Senior Manager jane.doe@example.com 415-555-2671 www.example.com")
             fresh in
  result_field "email" r = JStr (str "jane.doe@example.com")
  /\ result_field "phone" r = JStr (str "4155552671").
Proof. vm_compute. split; reflexivity. Qed.

Example clean_bullets :
  cleanText Web ([8226; 8226; 8226] ++ str "John@@@Smith" ++ [8226; 8226; 8226])
  = str "John@@@Smith".
Proof. vm_compute. reflexivity. Qed.

Example clean_dashes :
  cleanText Mobile (str "a--b  c__d" ++ [8212] ++ str "e|f {x} ") = str "a b c d-e f x".
Proof. vm_compute. reflexivity. Qed.

Example parse_skips_malformed :
  let r := parse (str "BEGIN:VCARD" ++ CRLF ++ str "FN:Ann Lee" ++ CRLF
                  ++ str "no colon here" ++ CRLF ++ str "ORG:Acme" ++ CRLF
                  ++ str "END:VCARD") in
  r = Ok (<["name" := JStr (str "Ann Lee")]>
            (<["company" := JStr (str "Acme")]> emptyRecord)).
Proof. vm_compute. reflexivity. Qed.

Example generate_sample :
  generate (record (str "John Q Smith") (str "+1 (415) 555-2671") (str "j@x.org")
              (str "Acme, Inc") [])
  = Ok (join CRLF
          [str "BEGIN:VCARD"; str "VERSION:3.0"; str "FN:John Q Smith";
           str "N:Smith;John Q;;;"; str "TEL;TYPE=CELL:+14155552671";
           str "EMAIL;TYPE=INTERNET:j@x.org"; str "ORG:Acme" ++ [92] ++ str ", Inc";
           str "END:VCARD"]).
Proof. vm_compute. reflexivity. Qed.


(** * The properties of the inference engine and of the codec *)

(** C1, as stated, fails: a name with two spaces between its words is a
    simple ASCII value without reserved character, and decoding the
    encoded record gives the name with one space. *)
Lemma roundtrip_fails_on_double_space :
  simple_value (str "John  Smith") = true
  /\ simple_value (str "5551234567") = true /\ plain_phone (str "5551234567") = true
  /\ simple_value (str "john@acme.com") = true
  /\ simple_value (str "Acme") = true /\ simple_value (str "expo") = true
  /\ ~ roundtrips (str "John  Smith") (str "5551234567") (str "john@acme.com")
         (str "Acme") (str "expo").
Proof.
  repeat (split; [reflexivity|]).
  intros (text & c & Hg & Hp & Hn & _).
  vm_compute in Hg. inversion Hg; subst text; clear Hg.
  vm_compute in Hp. inversion Hp; subst c; clear Hp.
  vm_compute in Hn. discriminate Hn.
Qed.

(** C1, amended.  For a record whose fields are simple ASCII values
    without backslash, semicolon, comma, CR or LF, whose phone holds no
    blank, hyphen or parenthesis, and whose name has single spaces
    between its words and no blank at either end, generate then parse
    reproduces every field exactly. *)
Theorem codec_roundtrip (name phone email company eventTag : jstr) :
  simple_value name = true -> spaced_name name = true ->
  simple_value phone = true -> plain_phone phone = true ->
  simple_value email = true -> simple_value company = true ->
  simple_value eventTag = true ->
  roundtrips name phone email company eventTag.
Proof. apply rt_roundtrips. Qed.

Lemma codec_roundtrip_witness :
  roundtrips (str "John Q Smith") (str "+14155552671") (str "john@acme.com")
    (str "Acme Solutions Inc") (str "expo 2024").
Proof.
  apply (codec_roundtrip (str "John Q Smith") (str "+14155552671")
           (str "john@acme.com") (str "Acme Solutions Inc") (str "expo 2024"));
    reflexivity.
Defined.

(** C2.  None of extractContactInfo, cleanText, generate and parse
    throws: extractContactInfo returns a record for every text from
    every state of the patterns, generate returns a string for every
    contact object, parse returns a record for every string, and
    cleanText is a total function; the empty text gives the empty
    string and the all-empty record.  No operation of
    extractContactInfo can fault, so that no handler is involved. *)
Theorem no_exception :
  (forall v text st, exists c st', extractContactInfo v text st = (Ok c, st'))
  /\ (forall v st, extractContactInfo v [] st = (Ok emptyContact, st))
  /\ (forall v, cleanText v [] = [] /\ cleanText v (str "   ") = [])
  /\ (forall contact, exists text, generate contact = Ok text)
  /\ (forall text, exists c, parse text = Ok c)
  /\ parse [] = Ok emptyRecord.
Proof.
  split; [|split; [|split; [|split; [|split]]]].
  - intros v text st.
    destruct (extractContactInfo_spec v text st) as (c & st' & E & _). eauto.
  - reflexivity.
  - intros v. destruct v; split; reflexivity.
  - apply generate_total.
  - intros text. destruct (parse_shape text) as (c & E & _). eauto.
  - reflexivity.
Qed.

(** C3 fails on the code.  The [lastIndex] of the looser phone pattern
    survives a call: on the two lines below, a first call from fresh
    patterns reads the second line as a phone and finds no company; the
    same call again starts that pattern at index 17, misses the digits
    and gives the line as the company. *)
Theorem infer_depends_on_pattern_state (v : variant) :
  let text := str "555-123-4567" ++ LF ++ str "Acme Inc 12 34 56" in
  let first := extractContactInfo v text fresh in
  let second := extractContactInfo v text (snd first) in
  result_field "company" first = JStr []
  /\ li_phoneAlt (snd first) = 17%nat
  /\ result_field "company" second = JStr (str "Acme Inc 12 34 56").
Proof. destruct v; vm_compute; repeat split; reflexivity. Qed.

(** C4 fails on the code.  The class of the garbage step holds [+]:
    no [+] is left in a cleaned text, in either copy; the one of an
    international prefix becomes a space. *)
Theorem cleanText_drops_plus :
  (forall v, garbage v 43 = true)
  /\ (forall v s, Forall (fun c => c <> 43) (cleanText v s))
  /\ cleanText Web (str "+1 415 555 2671") = str "1 415 555 2671"
  /\ cleanText Web (str "tel 1+415") = str "tel 1 415".
Proof.
  split; [intros []; reflexivity|].
  split; [|split; reflexivity].
  intros v s. destruct (cleanText_clean v s) as [H _].
  eapply Forall_impl; eauto. simpl. intros c Hc ->.
  apply tidy_not_garbage in Hc. destruct v; discriminate.
Qed.

(** C5, as stated, fails: on the text below the web copy removes the
    leading 1 after the separators. *)
Lemma phone_cleanup_not_exchanged :
  ~ phone_cleanup_exchanged (str "1 415 555 2671").
Proof.
  intros [H _]. vm_compute in H. discriminate H.
Qed.

(** C5, amended.  The phone of the returned record is the first match
    with every blank, hyphen and dot removed; the web copy alone then
    removes a leading 1, with the [+] before it if there is one; the
    mobile copy removes the separators only. *)
Theorem phone_cleanup (v : variant) (text : jstr) (st : RegExpState) :
  exists c st' p,
    extractContactInfo v text st = (Ok c, st')
    /\ get c "phone" = JStr p
    /\ Forall (fun x => phone_sep x = false) p
    /\ p = match v with
           | Web => strip_leading_one (strip_separators (phoneCandidate v text))
           | Mobile => strip_separators (phoneCandidate v text)
           end
    /\ (forall q, strip_leading_one (49 :: q) = q)
    /\ (forall q, strip_leading_one (43 :: 49 :: q) = q).
Proof.
  destruct (extractContactInfo_spec v text st) as (c & st' & E & _ & Hp).
  exists c, st', (final_phone v (phoneCandidate v text)).
  split; [exact E|]. split; [exact Hp|].
  split; [apply final_phone_no_separator|].
  split; [destruct v; reflexivity|].
  split; [apply strip_leading_one_1|apply strip_leading_one_plus1].
Qed.

(** The two copies on a candidate with a country code. *)
Lemma normalizePhone_variants :
  normalizePhone Mobile (JStr (str "+1 415-555-2671")) fresh
    = (Ok (str "+14155552671"), fresh)
  /\ normalizePhone Web (JStr (str "+1 415-555-2671")) fresh
    = (Ok (str "4155552671"), fresh).
Proof. split; reflexivity. Qed.

(** C6, as stated, fails: the record of extractContactInfo has no
    eventTag property. *)
Lemma inferred_record_lacks_eventTag :
  ~ (exists c st',
       extractContactInfo Web (str "John Smith") fresh = (Ok c, st')
       /\ record_shape c).
Proof.
  intros (c & st' & H & Hs).
  destruct (extractContactInfo_spec Web (str "John Smith") fresh)
    as (c0 & st0 & E & Hshape & _).
  rewrite E in H. inversion H; subst.
  destruct Hshape as (_ & _ & _ & _ & Hnone).
  destruct Hs as (_ & _ & _ & _ & [s Hsome]).
  rewrite Hnone in Hsome. discriminate Hsome.
Qed.

(** C6, amended.  The record of extractContactInfo has the four
    properties name, phone, email and company, all strings, and no
    eventTag; the record of parse has the five properties, all
    strings.  Both start from a record whose properties are the empty
    string, which is what the empty input gives. *)
Theorem record_fields :
  (forall v text st, exists c st',
      extractContactInfo v text st = (Ok c, st') /\ inferred_shape c)
  /\ (forall text, exists c, parse text = Ok c /\ record_shape c)
  /\ (forall v st, extractContactInfo v [] st = (Ok emptyContact, st))
  /\ parse [] = Ok emptyRecord
  /\ (get emptyContact "name" = JStr [] /\ get emptyContact "phone" = JStr []
      /\ get emptyContact "email" = JStr [] /\ get emptyContact "company" = JStr []
      /\ get emptyContact "eventTag" = JUndefined)
  /\ (get emptyRecord "name" = JStr [] /\ get emptyRecord "phone" = JStr []
      /\ get emptyRecord "email" = JStr [] /\ get emptyRecord "company" = JStr []
      /\ get emptyRecord "eventTag" = JStr []).
Proof.
  split; [|split; [|split; [|split; [|split]]]].
  - intros v text st.
    destruct (extractContactInfo_spec v text st) as (c & st' & E & Hs & _). eauto.
  - intros text. destruct (parse_shape text) as (c & E & Hs). eauto.
  - reflexivity.
  - reflexivity.
  - repeat split; reflexivity.
  - repeat split; reflexivity.
Qed.

(** C7.  In parse, the first TEL line and the first EMAIL line decide
    the phone and the email, whatever follows; the last of the FN and N
    lines decides the name, a later N line replacing the name of an
    earlier FN line; the last ORG line and the last X-EVENT-TAG line
    decide the company and the event tag. *)
Theorem decode_precedence (text : jstr) (c : gmap string jsval)
    (pre : list jstr) (line : jstr) (post : list jstr) :
  parse text = Ok c ->
  split_re re_crlf text = pre ++ line :: post ->
  (forall v, reads line "TEL" v ->
     Forall (fun l => line_target l <> Some "phone"%string) pre ->
     get c "phone" = JStr (unescape (JStr v)))
  /\ (forall v, reads line "EMAIL" v ->
        Forall (fun l => line_target l <> Some "email"%string) pre ->
        get c "email" = JStr (unescape (JStr v)))
  /\ (forall v, reads line "FN" v ->
        Forall (fun l => line_target l <> Some "name"%string) post ->
        get c "name" = JStr (unescape (JStr v)))
  /\ (forall v, reads line "N" v ->
        Forall (fun l => line_target l <> Some "name"%string) post ->
        get c "name" = JStr (structured_name v))
  /\ (forall v, reads line "ORG" v ->
        Forall (fun l => line_target l <> Some "company"%string) post ->
        get c "company" = JStr (unescape (JStr v)))
  /\ (forall v, reads line "X-EVENT-TAG" v ->
        Forall (fun l => line_target l <> Some "eventTag"%string) post ->
        get c "eventTag" = JStr (unescape (JStr v))).
Proof.
  intros Hp Hs.
  destruct (parse_unfold text) as [Hu | ->].
  - rewrite Hu, Hs in Hp. repeat split; intros v Hr Hall.
    + eapply (first_line_wins "phone" "TEL" emptyRecord); eauto.
    + eapply (first_line_wins "email" "EMAIL" emptyRecord); eauto.
    + eapply (last_line_wins "name" _ emptyRecord); [|exact Hp|exact Hall].
      intros c1. rewrite (parse_line_reads _ _ _ _ Hr). apply assign_FN.
    + eapply (last_line_wins "name" _ emptyRecord); [|exact Hp|exact Hall].
      intros c1. rewrite (parse_line_reads _ _ _ _ Hr).
      apply assign_N. eapply reads_nonempty; eauto.
    + eapply (last_line_wins "company" _ emptyRecord); [|exact Hp|exact Hall].
      intros c1. rewrite (parse_line_reads _ _ _ _ Hr). apply assign_ORG.
    + eapply (last_line_wins "eventTag" _ emptyRecord); [|exact Hp|exact Hall].
      intros c1. rewrite (parse_line_reads _ _ _ _ Hr). apply assign_TAG.
  - assert (line = []) as ->.
    { vm_compute in Hs. destruct pre as [|x [|y pre]]; inversion Hs; auto. }
    repeat split; intros v Hr _; vm_compute in Hr; discriminate Hr.
Qed.

Lemma decode_precedence_witness :
  let text := str "BEGIN:VCARD" ++ CRLF ++ str "FN:Ann Lee" ++ CRLF
              ++ str "TEL:111" ++ CRLF ++ str "N:Roe;Jo;;;" ++ CRLF
              ++ str "TEL:222" ++ CRLF ++ str "END:VCARD" in
  exists c, parse text = Ok c
            /\ get c "phone" = JStr (str "111")
            /\ get c "name" = JStr (str "Jo Roe").
Proof.
  intros text.
  destruct (parse_shape text) as (c & Hc & _).
  exists c. split; [exact Hc|]. split.
  - destruct (decode_precedence text c
                [str "BEGIN:VCARD"; str "FN:Ann Lee"] (str "TEL:111")
                [str "N:Roe;Jo;;;"; str "TEL:222"; str "END:VCARD"] Hc eq_refl)
      as (Htel & _).
    apply (Htel (str "111")).
    + reflexivity.
    + repeat constructor; vm_compute; discriminate.
  - destruct (decode_precedence text c
                [str "BEGIN:VCARD"; str "FN:Ann Lee"; str "TEL:111"] (str "N:Roe;Jo;;;")
                [str "TEL:222"; str "END:VCARD"] Hc eq_refl)
      as (_ & _ & _ & Hn & _).
    apply (Hn (str "Roe;Jo;;;")).
    + reflexivity.
    + repeat constructor; vm_compute; discriminate.
Defined.

(** C8 fails on the code.  A backslash followed by the letter n is
    escaped to two backslashes and n; unescape replaces the second
    backslash and the n by a line feed first, and gives a backslash
    followed by a line feed. *)
Theorem unescape_escape_backslash_n :
  escape (JStr [92; 110]) = [92; 92; 110]
  /\ unescape (JStr (escape (JStr [92; 110]))) = [92; 10].
Proof. split; reflexivity. Qed.

(** C10.  The phone of the record of extractContactInfo holds ASCII
    digits only (it may be empty), for every text, from every state of
    the patterns and in both copies; in particular it holds no [+]. *)
Theorem inferred_phone_digits (v : variant) (text : jstr) (st : RegExpState) :
  exists c st' p,
    extractContactInfo v text st = (Ok c, st')
    /\ get c "phone" = JStr p
    /\ Forall (fun x => is_digit x = true) p
    /\ Forall (fun x => x <> 43) p.
Proof.
  destruct (extractContactInfo_spec v text st) as (c & st' & E & _ & Hp).
  exists c, st', (final_phone v (phoneCandidate v text)).
  pose proof (final_phone_digits v text) as Hd.
  split; [exact E|]. split; [exact Hp|]. split; [exact Hd|].
  eapply Forall_impl; eauto. simpl. intros x Hx ->. discriminate Hx.
Qed.


(** * More on the codec: escaping *)

Lemma match_here_cls1 p prev rest :
  match_here (Cls p 1 (Some 1%nat)) prev rest
  = match rest with
    | c :: t => if p c then Some ([], t) else None
    | [] => None
    end.
Proof.
  unfold match_here. cbn [m]. destruct rest as [|c t]; [reflexivity|].
  apply rep_one.
Qed.

(** Replacing every code unit of a class is a map over the code units. *)
Lemma replace_loop_cls1 p rep fuel : forall prev rest,
  (length rest < fuel)%nat ->
  replace_loop fuel (Cls p 1 (Some 1%nat)) rep prev rest
  = flat_map (fun c => if p c then rep else [c]) rest.
Proof.
  induction fuel as [|fuel IH]; intros prev rest Hlen; [lia|].
  cbn [replace_loop]. rewrite match_here_cls1.
  destruct rest as [|c t]; [reflexivity|].
  cbn [flat_map length] in *.
  destruct (p c).
  - replace (length t <? S (length t))%nat with true
      by (symmetry; apply Nat.ltb_lt; lia).
    rewrite IH by lia. reflexivity.
  - rewrite IH by lia. reflexivity.
Qed.

Lemma replace_all_cls1 p rep s :
  replace_all (Cls p 1 (Some 1%nat)) rep s
  = flat_map (fun c => if p c then rep else [c]) s.
Proof. unfold replace_all. apply replace_loop_cls1. lia. Qed.

Lemma flat_map_flat_map (f g : N -> jstr) s :
  flat_map g (flat_map f s) = flat_map (fun c => flat_map g (f c)) s.
Proof.
  induction s as [|c s IH]; [reflexivity|].
  cbn [flat_map]. rewrite flat_map_app, IH. reflexivity.
Qed.

Lemma flat_map_pointwise (f g : N -> jstr) s :
  (forall c, f c = g c) -> flat_map f s = flat_map g s.
Proof. intros H. induction s as [|c s IH]; cbn [flat_map]; [|rewrite H, IH]; reflexivity. Qed.

(** [escape] works code unit by code unit. *)
Lemma escape_flat_map s : escape (JStr s) = flat_map escape_cu s.
Proof.
  destruct s as [|c0 s0]; [reflexivity|].
  unfold escape. set (s := c0 :: s0). clearbody s.
  unfold re_cr, re_lf, re_comma, re_semicolon, re_backslash, chr.
  rewrite !replace_all_cls1, !flat_map_flat_map.
  apply flat_map_pointwise. intros c. unfold escape_cu, is_char.
  destruct (N.eqb_spec c 92) as [->|H92]; [reflexivity|].
  cbn [flat_map app].
  destruct (N.eqb_spec c 59) as [->|H59]; [reflexivity|].
  cbn [flat_map app].
  destruct (N.eqb_spec c 44) as [->|H44]; [reflexivity|].
  cbn [flat_map app].
  destruct (N.eqb_spec c 10) as [->|H10]; [reflexivity|].
  cbn [flat_map app].
  destruct (N.eqb_spec c 13) as [->|H13]; reflexivity.
Qed.

(** Escaped values hold no line break. *)
Lemma escape_cu_no_break c : no_break (escape_cu c).
Proof.
  unfold escape_cu, no_break.
  destruct (N.eqb_spec c 92); [repeat constructor|].
  destruct (N.eqb_spec c 59); [repeat constructor|].
  destruct (N.eqb_spec c 44); [repeat constructor|].
  destruct (N.eqb_spec c 10); [repeat constructor|].
  destruct (N.eqb_spec c 13); [constructor|].
  constructor; [|constructor].
  cbn [one_of existsb]. rewrite orb_false_r.
  apply orb_false_iff; split; apply N.eqb_neq; assumption.
Qed.

Lemma escape_no_break_str s : no_break (escape (JStr s)).
Proof.
  rewrite escape_flat_map. unfold no_break.
  induction s as [|c s IH]; cbn [flat_map]; [constructor|].
  apply Forall_app; split; [apply escape_cu_no_break|exact IH].
Qed.

(** ** One pass of unescape *)

Lemma match_here_pair a b prev rest :
  match_here (Cat (chr a) (chr b)) prev rest
  = match rest with
    | c :: d :: t => if (c =? a) && (d =? b) then Some ([], t) else None
    | _ => None
    end.
Proof.
  unfold match_here, chr. cbn [m].
  destruct rest as [|c [|d t]]; [reflexivity| |].
  - rewrite rep_one. unfold is_char. destruct (c =? a); reflexivity.
  - rewrite rep_one. unfold is_char at 1. destruct (c =? a); [|reflexivity].
    rewrite rep_one. unfold is_char. destruct (d =? b); reflexivity.
Qed.

Lemma replace_loop_pair a b y fuel : forall prev rest,
  (length rest < fuel)%nat ->
  replace_loop fuel (Cat (chr a) (chr b)) [y] prev rest = unpair a b y rest.
Proof.
  induction fuel as [|fuel IH]; intros prev rest Hlen; [lia|].
  cbn [replace_loop]. rewrite match_here_pair.
  destruct rest as [|c [|d t]]; [reflexivity| |].
  - cbn [length] in Hlen. destruct fuel; [lia|]. reflexivity.
  - cbn [unpair]. cbn [length] in Hlen.
    destruct ((c =? a) && (d =? b)).
    + replace (length t <? length (c :: d :: t))%nat with true
        by (symmetry; apply Nat.ltb_lt; simpl; lia).
      rewrite IH by lia. reflexivity.
    + rewrite IH by (simpl; lia). reflexivity.
Qed.

Lemma replace_all_pair a b y s :
  replace_all (Cat (chr a) (chr b)) [y] s = unpair a b y s.
Proof. unfold replace_all. apply replace_loop_pair. lia. Qed.

(** [unescape] is four passes over the pairs. *)
Lemma unescape_passes s :
  unescape (JStr s)
  = unpair 92 92 92 (unpair 92 59 59 (unpair 92 44 44 (unpair 92 110 10 s))).
Proof.
  destruct s as [|c0 s0]; [reflexivity|].
  unfold unescape, re_esc_backslash, re_esc_semicolon, re_esc_comma, re_esc_n.
  change (str ";") with [59]. change (str ",") with [44].
  rewrite !replace_all_pair. reflexivity.
Qed.

Lemma unpair_cons_ne a b y x r :
  x <> a -> unpair a b y (x :: r) = x :: unpair a b y r.
Proof.
  intros Hx. destruct r as [|d t]; [reflexivity|].
  cbn [unpair]. apply N.eqb_neq in Hx. rewrite Hx. reflexivity.
Qed.

Lemma unpair_cons_other a b y d r :
  d <> b -> d <> a -> unpair a b y (a :: d :: r) = a :: d :: unpair a b y r.
Proof.
  intros Hb Ha. cbn [unpair]. apply N.eqb_neq in Hb. rewrite Hb, andb_false_r.
  change (match r with
          | [] => d :: r
          | d0 :: t => if (d =? a) && (d0 =? b) then y :: unpair a b y t
                       else d :: unpair a b y r
          end) with (unpair a b y (d :: r)).
  rewrite unpair_cons_ne by assumption. reflexivity.
Qed.

Lemma unpair_cons_pair a b y r : unpair a b y (a :: b :: r) = y :: unpair a b y r.
Proof. cbn [unpair]. rewrite !N.eqb_refl. reflexivity. Qed.

(** A pass undoes the escape of the code unit it is written for, and
    leaves the other escapes as they are. *)
Lemma unpair_escape_only x S s :
  Forall (fun c => c <> 92) s ->
  one_of [59; 44; 10] x = true ->
  Forall (fun c => one_of [59; 44; 10] c = true) S ->
  unpair 92 (escape_code x) x (flat_map (escape_only (x :: S)) s)
  = flat_map (escape_only (List.filter (fun c => negb (c =? x)) S)) s.
Proof.
  intros Hs Hx HS.
  assert (forall c, one_of (List.filter (fun c => negb (c =? x)) S) c
                    = one_of S c && negb (c =? x)) as Hfilter.
  { intros c. clear HS. induction S as [|e S IH]; [reflexivity|].
    cbn [List.filter]. destruct (N.eqb_spec e x) as [->|Hex]; cbn [negb].
    - rewrite IH. cbn [one_of existsb]. fold (one_of S c).
      destruct (c =? x); cbn [orb negb]; [rewrite !andb_false_r|]; reflexivity.
    - cbn [one_of existsb]. fold (one_of (List.filter (fun c => negb (c =? x)) S) c).
      fold (one_of S c). rewrite IH.
      destruct (N.eqb_spec c e) as [->|Hce]; [|reflexivity].
      cbn [orb]. apply N.eqb_neq in Hex. rewrite Hex.
      cbn [negb]. rewrite andb_true_r. destruct (one_of S e); reflexivity. }
  assert (forall c, one_of [59; 44; 10] c = true ->
                    escape_code c <> 92 /\
                    (c <> x -> escape_code c <> escape_code x)) as Hcode.
  { intros c Hc.
    assert (c = 59 \/ c = 44 \/ c = 10) as Hc'.
    { cbn [one_of existsb] in Hc. rewrite orb_false_r in Hc.
      apply orb_true_iff in Hc as [Hc|Hc]; [apply N.eqb_eq in Hc; auto|].
      apply orb_true_iff in Hc as [Hc|Hc]; apply N.eqb_eq in Hc; auto. }
    assert (x = 59 \/ x = 44 \/ x = 10) as Hx'.
    { cbn [one_of existsb] in Hx. rewrite orb_false_r in Hx.
      apply orb_true_iff in Hx as [Hx|Hx]; [apply N.eqb_eq in Hx; auto|].
      apply orb_true_iff in Hx as [Hx|Hx]; apply N.eqb_eq in Hx; auto. }
    clear - Hc' Hx'.
    destruct Hc' as [Ec|[Ec|Ec]]; destruct Hx' as [Ex|[Ex|Ex]]; subst c x;
      (split; [cbv; lia|intros Hne; try congruence; cbv; lia]). }
  induction Hs as [|c s Hc Hs IH]; [reflexivity|].
  cbn [flat_map]. unfold escape_only at 1 3. rewrite Hfilter.
  cbn [one_of existsb]. fold (one_of S c).
  destruct (N.eqb_spec c x) as [->|Hcx].
  - cbn [orb negb app]. rewrite andb_false_r, unpair_cons_pair, IH. reflexivity.
  - cbn [orb negb]. rewrite andb_true_r.
    destruct (one_of S c) eqn:HSc.
    + assert (one_of [59; 44; 10] c = true) as Hc3.
      { unfold one_of in HSc. apply existsb_exists in HSc as (e & He & Hce).
        apply N.eqb_eq in Hce. subst e.
        rewrite Forall_forall in HS. apply HS.
        apply list_elem_of_In. exact He. }
      destruct (Hcode c Hc3) as [H92 Hne].
      cbn [app]. rewrite unpair_cons_other; [rewrite IH; reflexivity| |assumption].
      apply Hne. exact Hcx.
    + cbn [app]. rewrite unpair_cons_ne by assumption. rewrite IH. reflexivity.
Qed.

Lemma flat_map_singleton (s : jstr) : flat_map (fun c => [c]) s = s.
Proof. induction s as [|c s IH]; cbn [flat_map app]; [|rewrite IH]; reflexivity. Qed.

Lemma unpair_none a b y s : Forall (fun c => c <> a) s -> unpair a b y s = s.
Proof.
  induction 1 as [|c s Hc Hs IH]; [reflexivity|].
  rewrite unpair_cons_ne by assumption. rewrite IH. reflexivity.
Qed.

Lemma portable_Forall s :
  portable s = true -> Forall (fun c => c <> 92 /\ c <> 13) s.
Proof.
  unfold portable. intros H. apply forallb_Forall in H.
  eapply Forall_impl; [exact H|]. intros c Hc. cbn beta in Hc.
  unfold portable_cu in Hc. cbn [one_of existsb] in Hc.
  apply negb_true_iff in Hc. rewrite orb_false_r in Hc.
  apply orb_false_iff in Hc as [H1 H2].
  apply N.eqb_neq in H1, H2. auto.
Qed.

Lemma escape_portable s :
  Forall (fun c => c <> 92 /\ c <> 13) s ->
  escape (JStr s) = flat_map (escape_only [10; 59; 44]) s.
Proof.
  intros H. rewrite escape_flat_map.
  induction H as [|c s [H92 H13] Hs IH]; [reflexivity|].
  cbn [flat_map]. rewrite IH. f_equal.
  unfold escape_cu, escape_only, escape_code. cbn [one_of existsb].
  apply N.eqb_neq in H92, H13. rewrite H92, H13.
  destruct (c =? 59) eqn:E59.
  { apply N.eqb_eq in E59. subst c. reflexivity. }
  destruct (c =? 44) eqn:E44.
  { apply N.eqb_eq in E44. subst c. reflexivity. }
  destruct (c =? 10) eqn:E10; reflexivity.
Qed.

Lemma unescape_escape_portable s :
  Forall (fun c => c <> 92 /\ c <> 13) s ->
  unescape (JStr (escape (JStr s))) = s.
Proof.
  intros H. rewrite escape_portable by assumption.
  assert (Forall (fun c => c <> 92) s) as H92
    by (eapply Forall_impl; [exact H|]; intros c [? ?]; assumption).
  rewrite unescape_passes.
  change 110 with (escape_code 10).
  rewrite (unpair_escape_only 10 [59; 44]) ; [|assumption|reflexivity|repeat constructor].
  cbn [List.filter N.eqb Pos.eqb negb].
  change (unpair 92 44 44) with (unpair 92 (escape_code 44) 44).
  replace (flat_map (escape_only _) s) with (flat_map (escape_only [44; 59]) s).
  2:{ apply flat_map_pointwise. intros c. unfold escape_only. cbn [one_of existsb].
      rewrite !orb_false_r. rewrite orb_comm. reflexivity. }
  rewrite (unpair_escape_only 44 [59]); [|assumption|reflexivity|repeat constructor].
  change (unpair 92 59 59) with (unpair 92 (escape_code 59) 59).
  replace (flat_map (escape_only _) s) with (flat_map (escape_only [59]) s).
  2:{ apply flat_map_pointwise. intros c. reflexivity. }
  rewrite (unpair_escape_only 59 []); [|assumption|reflexivity|constructor].
  cbn [List.filter]. unfold escape_only. cbn [one_of existsb].
  rewrite flat_map_singleton. apply unpair_none. assumption.
Qed.

(** * The lines of a generated vCard, for every contact object *)

Lemma escape_no_break v : no_break (escape v).
Proof.
  destruct v as [| |s]; try constructor. apply escape_no_break_str.
Qed.

Lemma generate_any contact :
  generate contact
  = Ok (join CRLF (vcard_lines (text_of (get contact "name"))
                     (text_of (get contact "phone")) (text_of (get contact "email"))
                     (text_of (get contact "company"))
                     (text_of (get contact "eventTag")))).
Proof.
  unfold generate, vcard_lines.
  unfold n_line, fn_line, tel_line, email_line, org_line, tag_line.
  destruct (get contact "name") as [| |[|n0 name]];
    cbn [text_of truthy as_str obind when_set app];
    try (destruct (1 <? length (split_re re_ws (trim (n0 :: name))))%nat;
         cbn [obind app]);
    (destruct (get contact "phone") as [| |[|p0 phone]];
       cbn [text_of truthy as_str obind when_set app]);
    (destruct (get contact "email") as [| |[|e0 email]];
       cbn [text_of truthy as_str obind when_set app]);
    (destruct (get contact "company") as [| |[|c0 company]];
       cbn [text_of truthy as_str obind when_set app]);
    (destruct (get contact "eventTag") as [| |[|t0 eventTag]];
       cbn [text_of truthy as_str obind when_set app]);
    reflexivity.
Qed.


Lemma no_break_app a b : no_break a -> no_break b -> no_break (a ++ b).
Proof. intros Ha Hb. apply Forall_app; split; assumption. Qed.

Lemma n_line_shape name : exists w, n_line name = str "N" ++ 58 :: w /\ no_break w.
Proof.
  unfold n_line.
  destruct (1 <? length (split_re re_ws (trim name)))%nat.
  - eexists; split; [reflexivity|].
    repeat apply no_break_app; try apply escape_no_break; repeat constructor.
  - eexists; split; [reflexivity|].
    repeat apply no_break_app; try apply escape_no_break; repeat constructor.
Qed.

(** Whatever the values, every pushed line is non-empty and holds no
    CR and no LF. *)
Lemma lines_wf name phone email company eventTag :
  Forall (fun l => l <> [] /\ Forall (fun c => one_of [13; 10] c = false) l)
    (vcard_lines name phone email company eventTag).
Proof.
  unfold vcard_lines.
  destruct fixed_lines_good as [Hb He].
  apply Forall_app; split; [exact Hb|].
  apply Forall_app; split.
  { apply when_set_good. intros _. constructor; [|constructor; [|constructor]].
    - split; [discriminate|]. unfold fn_line.
      apply no_break_app; [repeat constructor|apply escape_no_break].
    - destruct (n_line_shape name) as (w & -> & Hw).
      split; [discriminate|]. apply no_break_app; [repeat constructor|].
      constructor; [reflexivity|exact Hw]. }
  apply Forall_app; split.
  { apply when_set_good. intros _. constructor; [|constructor].
    split; [discriminate|]. unfold tel_line.
    apply no_break_app; [repeat constructor|apply escape_no_break]. }
  apply Forall_app; split.
  { apply when_set_good. intros _. constructor; [|constructor].
    split; [discriminate|]. unfold email_line.
    apply no_break_app; [repeat constructor|apply escape_no_break]. }
  apply Forall_app; split.
  { apply when_set_good. intros _. constructor; [|constructor].
    split; [discriminate|]. unfold org_line.
    apply no_break_app; [repeat constructor|apply escape_no_break]. }
  apply Forall_app; split; [|exact He].
  apply when_set_good. intros _. constructor; [|constructor].
  split; [discriminate|]. unfold tag_line.
  apply no_break_app; [repeat constructor|apply escape_no_break].
Qed.

(** Splitting the generated text at its line breaks gives the pushed
    lines back. *)
Lemma split_generated name phone email company eventTag :
  split_re re_crlf (join CRLF (vcard_lines name phone email company eventTag))
  = vcard_lines name phone email company eventTag.
Proof.
  unfold re_crlf. apply split_re_join.
  - unfold CRLF. intros E; discriminate E.
  - repeat constructor.
  - unfold vcard_lines. simpl. intros E; discriminate E.
  - apply lines_wf.
Qed.

Lemma parse_generated name phone email company eventTag :
  parse (join CRLF (vcard_lines name phone email company eventTag))
  = parse_lines emptyRecord (vcard_lines name phone email company eventTag).
Proof.
  unfold parse. rewrite split_generated.
  destruct (join CRLF (vcard_lines name phone email company eventTag)) eqn:E; [|reflexivity].
  unfold vcard_lines in E. simpl in E.
  destruct (when_set name [fn_line name; n_line name] ++ when_set phone [tel_line phone] ++
            when_set email [email_line email] ++ when_set company [org_line company] ++
            when_set eventTag [tag_line eventTag] ++ [str "END:VCARD"]); discriminate.
Qed.

(** * Reading a line whose value is arbitrary *)

Lemma colon_unique f : forall f' w w',
  Forall (fun c => not_colon c = true) f ->
  Forall (fun c => not_colon c = true) f' ->
  f ++ 58 :: w = f' ++ 58 :: w' -> f = f' /\ w = w'.
Proof.
  induction f as [|c f IH]; intros f' w w' Hf Hf' E.
  - destruct f' as [|c' f']; simpl in E.
    + inversion E. auto.
    + inversion E; subst c'. inversion Hf' as [|? ? Hc _]. discriminate Hc.
  - destruct f' as [|c' f']; simpl in E.
    + inversion E; subst c. inversion Hf as [|? ? Hc _]. discriminate Hc.
    + inversion E; subst c'. inversion Hf; inversion Hf'; subst.
      destruct (IH f' w w') as [-> ->]; auto.
Qed.

Lemma vcard_line_sound_strong line mt :
  match_groups re_vcard_line line = Some mt ->
  exists f v, mt = [line; f; v] /\ line = f ++ 58 :: v
              /\ Forall (fun c => not_colon c = true) f
              /\ v <> [] /\ Forall (fun c => dot c = true) v.
Proof.
  unfold match_groups. intros H.
  destruct (scan re_vcard_line None line 0) as [[[b ms] rest']|] eqn:E; [|discriminate].
  inversion H; subst mt; clear H.
  assert (match_here re_vcard_line None line = Some (ms, rest') /\ b = 0%nat) as [Hm ->].
  { destruct line as [|c t]; simpl in E.
    - destruct (match_here re_vcard_line None []) as [[? ?]|]; inversion E; auto.
    - destruct (match_here re_vcard_line None (c :: t)) as [[? ?]|] eqn:E1.
      + inversion E; auto.
      + unfold re_vcard_line in E. cbn [seq] in E. rewrite scan_bos in E. discriminate. }
  clear E. unfold match_here, re_vcard_line, plus, chr, grp in Hm. cbn [seq m app] in Hm.
  apply rep_sound in Hm as (f & r1 & -> & Hf & Hlf & Hm).
  cbn beta in Hm. cbn [m] in Hm.
  destruct r1 as [|c r2]; [discriminate|].
  rewrite rep_one in Hm. destruct (is_char 58 c) eqn:Hc; [|discriminate].
  apply N.eqb_eq in Hc. subst c.
  apply rep_sound in Hm as (v & r3 & -> & Hv & Hlv & Hm).
  cbn beta in Hm. cbn [m] in Hm.
  destruct r3 as [|? ?]; [|discriminate].
  inversion Hm; subst ms rest'; clear Hm.
  rewrite app_nil_r in *.
  exists f, v. split; [|split; [reflexivity|split; [exact Hf|split; [|exact Hv]]]].
  - rewrite groups_of_line. unfold substring.
    rewrite Nat.sub_0_r. cbn [drop length]. rewrite Nat.sub_0_r, firstn_all. reflexivity.
  - intros ->. simpl in Hlv. lia.
Qed.

(** A line whose field part names [field]: it is skipped, or it is read
    as [field] with everything after the first colon as its value. *)
Lemma read_line_field f field w :
  names_field f field = true ->
  read_line (f ++ 58 :: w) = Ok None
  \/ (read_line (f ++ 58 :: w) = Ok (Some (str field, JStr w))
      /\ w <> [] /\ Forall (fun c => dot c = true) w).
Proof.
  unfold names_field. intros H.
  apply andb_true_iff in H as [H Hup]. apply andb_true_iff in H as [H Hend].
  apply andb_true_iff in H as [H Hbegin]. apply andb_true_iff in H as [H Hcolon].
  apply andb_true_iff in H as [Hhead Hne].
  unfold read_line.
  destruct (jstr_eqb (trim (f ++ 58 :: w)) [] || startsWith (f ++ 58 :: w) (str "BEGIN")
            || startsWith (f ++ 58 :: w) (str "END")); [left; reflexivity|].
  destruct (match_groups re_vcard_line (f ++ 58 :: w)) as [mt|] eqn:E; [|left; reflexivity].
  right.
  apply vcard_line_sound_strong in E as (f' & v & -> & E & Hf' & Hv & Hd).
  apply colon_unique in E as [<- <-]; [|apply forallb_Forall; assumption|assumption].
  change (elem [f ++ 58 :: w; f; w] 1) with (JStr f).
  change (elem [f ++ 58 :: w; f; w] 2) with (JStr w).
  cbn [as_str obind].
  destruct (split_char_cons 59 f) as (h & t & Hs). rewrite Hs in *.
  change (elem (h :: t) 0) with (JStr h). cbn [as_str obind hd] in *.
  apply jstr_eqb_true in Hup. rewrite Hup. auto.
Qed.

Lemma line_target_field f field w k :
  names_field f field = true -> target (str field) <> Some k ->
  line_target (f ++ 58 :: w) <> Some k.
Proof.
  intros Hf Hk. unfold line_target.
  destruct (read_line_field f field w Hf) as [-> | [-> _]]; [discriminate|exact Hk].
Qed.

(** Read as [field], when the value is non-empty and holds no line
    terminator. *)
Lemma read_line_value f field w :
  names_field f field = true -> w <> [] -> Forall (fun c => dot c = true) w ->
  reads (f ++ 58 :: w) field w.
Proof.
  intros H Hw Hd. unfold reads. unfold names_field in H.
  apply andb_true_iff in H as [H Hup]. apply andb_true_iff in H as [H Hend].
  apply andb_true_iff in H as [H Hbegin]. apply andb_true_iff in H as [H Hcolon].
  apply andb_true_iff in H as [Hhead Hne].
  unfold read_line.
  assert (jstr_eqb (trim (f ++ 58 :: w)) [] = false) as ->.
  { unfold jstr_eqb. apply bool_decide_eq_false. apply trim_nonempty.
    - destruct f; [discriminate|]. exact Hhead.
    - destruct f; discriminate. }
  rewrite !differs_startsWith by assumption. cbn [orb].
  rewrite vcard_line_accepts; auto;
    [|intros ->; discriminate|apply forallb_Forall; assumption].
  change (elem [f ++ 58 :: w; f; w] 1) with (JStr f).
  change (elem [f ++ 58 :: w; f; w] 2) with (JStr w).
  cbn [as_str obind].
  destruct (split_char_cons 59 f) as (h & t & Hs). rewrite Hs in *.
  change (elem (h :: t) 0) with (JStr h). cbn [as_str obind hd] in *.
  apply jstr_eqb_true in Hup. rewrite Hup. reflexivity.
Qed.

(** The targets of the pushed lines, whatever the values. *)
Lemma fn_lines_target name k :
  k <> "name"%string ->
  Forall (fun l => line_target l <> Some k) (when_set name [fn_line name; n_line name]).
Proof.
  intros Hk. apply when_set_targets. intros _.
  constructor; [|constructor; [|constructor]].
  - unfold fn_line. change (str "FN:" ++ ?x) with (str "FN" ++ 58 :: x).
    apply (line_target_field _ "FN"); [reflexivity|].
    vm_compute. congruence.
  - destruct (n_line_shape name) as (w & -> & _).
    apply (line_target_field _ "N"); [reflexivity|].
    vm_compute. congruence.
Qed.

Lemma tel_lines_target phone k :
  k <> "phone"%string ->
  Forall (fun l => line_target l <> Some k) (when_set phone [tel_line phone]).
Proof.
  intros Hk. apply when_set_targets. intros _. constructor; [|constructor].
  unfold tel_line. change (str "TEL;TYPE=CELL:" ++ ?x) with (str "TEL;TYPE=CELL" ++ 58 :: x).
  apply (line_target_field _ "TEL"); [reflexivity|].
  vm_compute. congruence.
Qed.

Lemma email_lines_target email k :
  k <> "email"%string ->
  Forall (fun l => line_target l <> Some k) (when_set email [email_line email]).
Proof.
  intros Hk. apply when_set_targets. intros _. constructor; [|constructor].
  unfold email_line.
  change (str "EMAIL;TYPE=INTERNET:" ++ ?x) with (str "EMAIL;TYPE=INTERNET" ++ 58 :: x).
  apply (line_target_field _ "EMAIL"); [reflexivity|].
  vm_compute. congruence.
Qed.

Lemma org_lines_target company k :
  k <> "company"%string ->
  Forall (fun l => line_target l <> Some k) (when_set company [org_line company]).
Proof.
  intros Hk. apply when_set_targets. intros _. constructor; [|constructor].
  unfold org_line. change (str "ORG:" ++ ?x) with (str "ORG" ++ 58 :: x).
  apply (line_target_field _ "ORG"); [reflexivity|].
  vm_compute. congruence.
Qed.

Lemma tag_lines_target eventTag k :
  k <> "eventTag"%string ->
  Forall (fun l => line_target l <> Some k) (when_set eventTag [tag_line eventTag]).
Proof.
  intros Hk. apply when_set_targets. intros _. constructor; [|constructor].
  unfold tag_line. change (str "X-EVENT-TAG:" ++ ?x) with (str "X-EVENT-TAG" ++ 58 :: x).
  apply (line_target_field _ "X-EVENT-TAG"); [reflexivity|].
  vm_compute. congruence.
Qed.

(** * Values that survive the codec *)

Lemma line_safe_Forall s :
  line_safe s = true ->
  Forall (fun c => c <> 92 /\ c <> 13 /\ c <> 8232 /\ c <> 8233) s.
Proof.
  unfold line_safe. intros H. apply forallb_Forall in H.
  eapply Forall_impl; [exact H|]. intros c Hc. cbn beta in Hc.
  unfold line_safe_cu in Hc. cbn [one_of existsb] in Hc.
  apply negb_true_iff in Hc. rewrite orb_false_r in Hc.
  apply orb_false_iff in Hc as [H1 Hc].
  apply orb_false_iff in Hc as [H2 Hc].
  apply orb_false_iff in Hc as [H3 H4].
  apply N.eqb_neq in H1, H2, H3, H4. auto.
Qed.

Lemma escape_cu_dot c :
  c <> 13 -> c <> 8232 -> c <> 8233 ->
  escape_cu c <> [] /\ Forall (fun d => dot d = true) (escape_cu c).
Proof.
  intros H13 H1 H2. unfold escape_cu.
  destruct (N.eqb_spec c 92); [split; [discriminate|repeat constructor]|].
  destruct (N.eqb_spec c 59); [split; [discriminate|repeat constructor]|].
  destruct (N.eqb_spec c 44); [split; [discriminate|repeat constructor]|].
  destruct (N.eqb_spec c 10); [split; [discriminate|repeat constructor]|].
  destruct (N.eqb_spec c 13); [contradiction|].
  split; [discriminate|]. constructor; [|constructor].
  unfold dot, is_line_terminator. cbn [one_of existsb].
  apply negb_true_iff. rewrite orb_false_r.
  repeat (apply orb_false_iff; split); apply N.eqb_neq; assumption.
Qed.

(** The escape of a value without CR, U+2028 and U+2029 is a value the
    line pattern accepts. *)
Lemma escape_accepted s :
  Forall (fun c => c <> 13 /\ c <> 8232 /\ c <> 8233) s -> s <> [] ->
  escape (JStr s) <> [] /\ Forall (fun d => dot d = true) (escape (JStr s)).
Proof.
  intros H Hs. rewrite escape_flat_map. split.
  - destruct H as [|c s (H13 & H1 & H2) _]; [congruence|].
    cbn [flat_map]. destruct (escape_cu_dot c H13 H1 H2) as [Hne _].
    destruct (escape_cu c); [congruence|discriminate].
  - clear Hs. induction H as [|c s (H13 & H1 & H2) _ IH]; [constructor|].
    cbn [flat_map]. apply Forall_app; split; [|exact IH].
    apply escape_cu_dot; assumption.
Qed.

Lemma line_safe_accepted s :
  line_safe s = true -> s <> [] ->
  escape (JStr s) <> [] /\ Forall (fun d => dot d = true) (escape (JStr s)).
Proof.
  intros H. apply line_safe_Forall in H. apply escape_accepted.
  eapply Forall_impl; [exact H|]. intros c Hc; cbn beta in Hc. tauto.
Qed.

Lemma line_safe_unescape s :
  line_safe s = true -> unescape (JStr (escape (JStr s))) = s.
Proof.
  intros H. apply line_safe_Forall in H. apply unescape_escape_portable.
  eapply Forall_impl; [exact H|]. intros c Hc; cbn beta in Hc. tauto.
Qed.

Section AnyRecord.
Variables name phone email company eventTag : jstr.

Let Ln := when_set name [fn_line name; n_line name].
Let Lp := when_set phone [tel_line phone].
Let Le := when_set email [email_line email].
Let Lc := when_set company [org_line company].
Let Lt := when_set eventTag [tag_line eventTag].

Lemma any_lines :
  vcard_lines name phone email company eventTag
  = [str "BEGIN:VCARD"; str "VERSION:3.0"] ++ Ln ++ Lp ++ Le ++ Lc ++ Lt ++ [str "END:VCARD"].
Proof using Type. reflexivity. Qed.

Lemma any_email c :
  line_safe email = true ->
  parse_lines emptyRecord (vcard_lines name phone email company eventTag) = Ok c ->
  get c "email" = JStr email.
Proof using Type.
  intros Hsafe H. rewrite any_lines in H.
  destruct (fixed_lines_target "email") as (Hb & Hv & He).
  destruct email as [|e0 email'] eqn:En.
  - rewrite (parse_lines_other "email" _ _ _ H); [reflexivity|].
    repeat (apply Forall_app; split); repeat constructor; auto.
    + apply fn_lines_target; discriminate.
    + apply tel_lines_target; discriminate.
    + apply org_lines_target; discriminate.
    + apply tag_lines_target; discriminate.
  - rewrite <- En in *.
    assert (email <> []) as Hn by (rewrite En; discriminate).
    assert (Le = [email_line email]) as HLe by (unfold Le; rewrite En; reflexivity).
    rewrite HLe in H.
    replace ([str "BEGIN:VCARD"; str "VERSION:3.0"] ++ Ln ++ Lp ++ [email_line email]
             ++ Lc ++ Lt ++ [str "END:VCARD"])
      with (([str "BEGIN:VCARD"; str "VERSION:3.0"] ++ Ln ++ Lp)
            ++ email_line email :: (Lc ++ Lt ++ [str "END:VCARD"])) in H
      by (rewrite <- !app_assoc; reflexivity).
    destruct (line_safe_accepted email Hsafe Hn) as [Hne Hd].
    assert (reads (email_line email) "EMAIL" (escape (JStr email))) as Hr.
    { unfold email_line.
      change (str "EMAIL;TYPE=INTERNET:" ++ ?x) with (str "EMAIL;TYPE=INTERNET" ++ 58 :: x).
      apply read_line_value; [reflexivity|assumption|assumption]. }
    assert (get c "email" = JStr (unescape (JStr (escape (JStr email))))) as Hg.
    { eapply (first_line_wins "email" "EMAIL" emptyRecord);
        [right; auto|reflexivity|exact H| |exact Hr].
      repeat (apply Forall_app; split); [repeat constructor; auto| |].
      - apply fn_lines_target; discriminate.
      - apply tel_lines_target; discriminate. }
    rewrite Hg, line_safe_unescape by assumption. reflexivity.
Qed.

Lemma any_company c :
  line_safe company = true ->
  parse_lines emptyRecord (vcard_lines name phone email company eventTag) = Ok c ->
  get c "company" = JStr company.
Proof using Type.
  intros Hsafe H. rewrite any_lines in H.
  destruct (fixed_lines_target "company") as (Hb & Hv & He).
  destruct company as [|c0 company'] eqn:En.
  - rewrite (parse_lines_other "company" _ _ _ H); [reflexivity|].
    repeat (apply Forall_app; split); repeat constructor; auto.
    + apply fn_lines_target; discriminate.
    + apply tel_lines_target; discriminate.
    + apply email_lines_target; discriminate.
    + apply tag_lines_target; discriminate.
  - rewrite <- En in *.
    assert (company <> []) as Hn by (rewrite En; discriminate).
    assert (Lc = [org_line company]) as HLc by (unfold Lc; rewrite En; reflexivity).
    rewrite HLc in H.
    replace ([str "BEGIN:VCARD"; str "VERSION:3.0"] ++ Ln ++ Lp ++ Le
             ++ [org_line company] ++ Lt ++ [str "END:VCARD"])
      with (([str "BEGIN:VCARD"; str "VERSION:3.0"] ++ Ln ++ Lp ++ Le)
            ++ org_line company :: (Lt ++ [str "END:VCARD"])) in H
      by (rewrite <- !app_assoc; reflexivity).
    destruct (line_safe_accepted company Hsafe Hn) as [Hne Hd].
    assert (reads (org_line company) "ORG" (escape (JStr company))) as Hr.
    { unfold org_line. change (str "ORG:" ++ ?x) with (str "ORG" ++ 58 :: x).
      apply read_line_value; [reflexivity|assumption|assumption]. }
    eapply (last_line_wins "company" (JStr company) emptyRecord); [|exact H|].
    + intros c1. rewrite (parse_line_reads _ _ _ _ Hr), assign_ORG.
      rewrite line_safe_unescape by assumption. reflexivity.
    + apply Forall_app; split; [apply tag_lines_target; discriminate|repeat constructor; auto].
Qed.

Lemma any_eventTag c :
  line_safe eventTag = true ->
  parse_lines emptyRecord (vcard_lines name phone email company eventTag) = Ok c ->
  get c "eventTag" = JStr eventTag.
Proof using Type.
  intros Hsafe H. rewrite any_lines in H.
  destruct (fixed_lines_target "eventTag") as (Hb & Hv & He).
  destruct eventTag as [|t0 eventTag'] eqn:En.
  - rewrite (parse_lines_other "eventTag" _ _ _ H); [reflexivity|].
    repeat (apply Forall_app; split); repeat constructor; auto.
    + apply fn_lines_target; discriminate.
    + apply tel_lines_target; discriminate.
    + apply email_lines_target; discriminate.
    + apply org_lines_target; discriminate.
  - rewrite <- En in *.
    assert (eventTag <> []) as Hn by (rewrite En; discriminate).
    assert (Lt = [tag_line eventTag]) as HLt by (unfold Lt; rewrite En; reflexivity).
    rewrite HLt in H.
    replace ([str "BEGIN:VCARD"; str "VERSION:3.0"] ++ Ln ++ Lp ++ Le ++ Lc
             ++ [tag_line eventTag] ++ [str "END:VCARD"])
      with (([str "BEGIN:VCARD"; str "VERSION:3.0"] ++ Ln ++ Lp ++ Le ++ Lc)
            ++ tag_line eventTag :: [str "END:VCARD"]) in H
      by (rewrite <- !app_assoc; reflexivity).
    destruct (line_safe_accepted eventTag Hsafe Hn) as [Hne Hd].
    assert (reads (tag_line eventTag) "X-EVENT-TAG" (escape (JStr eventTag))) as Hr.
    { unfold tag_line. change (str "X-EVENT-TAG:" ++ ?x) with (str "X-EVENT-TAG" ++ 58 :: x).
      apply read_line_value; [reflexivity|assumption|assumption]. }
    eapply (last_line_wins "eventTag" (JStr eventTag) emptyRecord); [|exact H|].
    + intros c1. rewrite (parse_line_reads _ _ _ _ Hr), assign_TAG.
      rewrite line_safe_unescape by assumption. reflexivity.
    + repeat constructor; auto.
Qed.

End AnyRecord.

(** The phone [generate] writes: blanks, hyphens and parentheses are
    removed; what is left of a phone without backslash is a value the
    codec carries. *)
Lemma phone_clean_safe phone :
  no_backslash phone = true ->
  line_safe (replace_all re_phone_clean [] phone) = true.
Proof.
  unfold no_backslash, re_phone_clean, cls1. rewrite replace_all_cls1.
  induction phone as [|c s IH]; [reflexivity|].
  cbn [forallb flat_map]. intros H. apply andb_true_iff in H as [Hc Hs].
  destruct (is_space c || one_of [45; 40; 41] c) eqn:E; cbn [app]; [auto|].
  unfold line_safe. cbn [forallb]. fold (line_safe (flat_map
    (fun c0 => if is_space c0 || one_of [45; 40; 41] c0 then [] else [c0]) s)).
  rewrite IH by assumption. rewrite andb_true_r.
  apply orb_false_iff in E as [E _].
  unfold line_safe_cu. apply negb_true_iff. cbn [one_of existsb].
  apply negb_true_iff in Hc. rewrite Hc. cbn [orb]. rewrite orb_false_r.
  unfold is_space, in_range in E. cbn [one_of existsb] in E.
  destruct (N.eqb_spec c 13) as [E13|_]; [subst c; discriminate E|].
  destruct (N.eqb_spec c 8232) as [E1|_]; [subst c; discriminate E|].
  destruct (N.eqb_spec c 8233) as [E2|_]; [subst c; discriminate E|].
  reflexivity.
Qed.

Section AnyPhone.
Variables name phone email company eventTag : jstr.

Lemma any_phone c :
  no_backslash phone = true ->
  parse_lines emptyRecord (vcard_lines name phone email company eventTag) = Ok c ->
  get c "phone" = JStr (replace_all re_phone_clean [] phone).
Proof using Type.
  intros Hsafe H. rewrite any_lines in H.
  destruct (fixed_lines_target "phone") as (Hb & Hv & He).
  apply phone_clean_safe in Hsafe.
  set (q := replace_all re_phone_clean [] phone) in *.
  assert (tel_line phone = str "TEL;TYPE=CELL" ++ 58 :: escape (JStr q)) as Htel
    by reflexivity.
  destruct (decide (phone <> [] /\ q <> [])) as [[Hp Hq]|Hno].
  - assert (when_set phone [tel_line phone] = [tel_line phone]) as Hw
      by (destruct phone; [congruence|reflexivity]).
    rewrite Hw in H. clear Hw.
    replace ([str "BEGIN:VCARD"; str "VERSION:3.0"]
             ++ when_set name [fn_line name; n_line name] ++ [tel_line phone]
             ++ when_set email [email_line email] ++ when_set company [org_line company]
             ++ when_set eventTag [tag_line eventTag] ++ [str "END:VCARD"])
      with (([str "BEGIN:VCARD"; str "VERSION:3.0"]
             ++ when_set name [fn_line name; n_line name])
            ++ tel_line phone ::
               (when_set email [email_line email] ++ when_set company [org_line company]
                ++ when_set eventTag [tag_line eventTag] ++ [str "END:VCARD"])) in H
      by (rewrite <- !app_assoc; reflexivity).
    destruct (line_safe_accepted q Hsafe Hq) as [Hne Hd].
    assert (reads (tel_line phone) "TEL" (escape (JStr q))) as Hr.
    { rewrite Htel. apply read_line_value; [reflexivity|assumption|assumption]. }
    assert (get c "phone" = JStr (unescape (JStr (escape (JStr q))))) as Hg.
    { eapply (first_line_wins "phone" "TEL" emptyRecord);
        [left; auto|reflexivity|exact H| |exact Hr].
      apply Forall_app; split; [repeat constructor; auto|].
      apply fn_lines_target; discriminate. }
    rewrite Hg, line_safe_unescape by assumption. reflexivity.
  - assert (q = []) as Hq.
    { destruct phone as [|p0 phone']; [reflexivity|].
      destruct q as [|q0 q']; [reflexivity|].
      exfalso. apply Hno. split; discriminate. }
    rewrite Hq in *.
    rewrite (parse_lines_other "phone" _ _ _ H); [reflexivity|].
    repeat (apply Forall_app; split); repeat constructor; auto.
    + apply fn_lines_target; discriminate.
    + apply when_set_targets. intros _. constructor; [|constructor].
      rewrite Htel. unfold line_target.
      destruct (read_line_field (str "TEL;TYPE=CELL") "TEL" (escape (JStr [])) eq_refl)
        as [-> | (_ & Hne & _)]; [discriminate|].
      exfalso. apply Hne. reflexivity.
    + apply email_lines_target; discriminate.
    + apply org_lines_target; discriminate.
    + apply tag_lines_target; discriminate.
Qed.

End AnyPhone.

(** * What parse makes of lines *)

Lemma plain_lines_wf lines :
  plain_lines lines = true ->
  lines <> []
  /\ Forall (fun l => l <> [] /\ Forall (fun c => one_of [13; 10] c = false) l) lines.
Proof.
  unfold plain_lines. intros H. apply andb_true_iff in H as [Hlen H].
  split; [intros ->; discriminate|].
  clear Hlen. induction lines as [|l lines IH]; [constructor|].
  cbn [forallb] in H. apply andb_true_iff in H as [Hl H].
  constructor; [|auto].
  unfold plain_line in Hl. apply andb_true_iff in Hl as [Hne Hl].
  split.
  - intros ->. discriminate.
  - apply forallb_Forall in Hl. eapply Forall_impl; [exact Hl|].
    intros c Hc. cbn beta in Hc. apply negb_true_iff in Hc. exact Hc.
Qed.

Lemma line_break_wf sep :
  line_break sep = true ->
  sep <> [] /\ Forall (fun c => one_of [13; 10] c = true) sep.
Proof.
  unfold line_break. intros H. apply andb_true_iff in H as [Hne H].
  split; [intros ->; discriminate|apply forallb_Forall; exact H].
Qed.

Lemma join_nonempty sep lines :
  lines <> [] -> Forall (fun l => l <> []) lines -> join sep lines <> [].
Proof.
  intros Hl H. destruct H as [|l lines Hne _]; [congruence|].
  destruct lines as [|l' lines].
  - exact Hne.
  - cbn [join]. destruct l; [congruence|discriminate].
Qed.

(** The loop of [parse] runs over the joined lines, whatever the line
    break between them. *)
Lemma parse_joined sep lines :
  line_break sep = true -> plain_lines lines = true ->
  parse (join sep lines) = parse_lines emptyRecord lines.
Proof.
  intros Hsep Hlines.
  destruct (line_break_wf sep Hsep) as [Hs1 Hs2].
  destruct (plain_lines_wf lines Hlines) as [Hl1 Hl2].
  unfold parse.
  assert (split_re re_crlf (join sep lines) = lines) as ->
    by (unfold re_crlf; apply split_re_join; assumption).
  destruct (join sep lines) eqn:E; [|reflexivity].
  exfalso. revert E. apply join_nonempty; [assumption|].
  eapply Forall_impl; [exact Hl2|]. intros l [Hl _]. exact Hl.
Qed.

(** A string with a code unit that is not a blank does not trim to the
    empty string. *)
Lemma trimEnd_nonempty s :
  Exists (fun c => is_space c = false) s -> trimEnd s <> [].
Proof.
  induction s as [|c s IH]; intros H; [inversion H|].
  cbn [trimEnd]. destruct (trimEnd s) eqn:E.
  - inversion H as [? ? Hc|? ? Hs]; subst.
    + rewrite Hc. discriminate.
    + exfalso. apply IH; [assumption|reflexivity].
  - discriminate.
Qed.

Lemma trimStart_Exists s :
  Exists (fun c => is_space c = false) s ->
  Exists (fun c => is_space c = false) (trimStart s).
Proof.
  induction s as [|c s IH]; intros H; [inversion H|].
  cbn [trimStart]. destruct (is_space c) eqn:E; [|exact H].
  inversion H as [? ? Hc|? ? Hs]; subst; [congruence|auto].
Qed.

Lemma trim_Exists s :
  Exists (fun c => is_space c = false) s -> trim s <> [].
Proof. intros H. apply trimEnd_nonempty, trimStart_Exists, H. Qed.

Lemma has_colon_trim a b : trim (a ++ 58 :: b) <> [].
Proof.
  apply trim_Exists. apply Exists_app. right. constructor. reflexivity.
Qed.

(** A line without colon is skipped. *)
Lemma read_line_no_colon line :
  Forall (fun c => not_colon c = true) line -> read_line line = Ok None.
Proof.
  intros H. unfold read_line.
  destruct (jstr_eqb (trim line) [] || startsWith line (str "BEGIN")
            || startsWith line (str "END")); [reflexivity|].
  destruct (match_groups re_vcard_line line) as [mt|] eqn:E; [|reflexivity].
  apply vcard_line_sound_strong in E as (f & v & _ & -> & _).
  apply Forall_app in H as [_ H]. inversion H as [|? ? Hc _]. discriminate Hc.
Qed.

(** A line with nothing after its only colon is skipped. *)
Lemma read_line_no_value f :
  Forall (fun c => not_colon c = true) f -> read_line (f ++ [58]) = Ok None.
Proof.
  intros H. unfold read_line.
  destruct (jstr_eqb (trim (f ++ [58])) [] || startsWith (f ++ [58]) (str "BEGIN")
            || startsWith (f ++ [58]) (str "END")); [reflexivity|].
  destruct (match_groups re_vcard_line (f ++ [58])) as [mt|] eqn:E; [|reflexivity].
  apply vcard_line_sound_strong in E as (f' & v & _ & E & Hf' & Hv & _).
  apply colon_unique in E as [_ E]; [|assumption|assumption].
  congruence.
Qed.

Lemma split_char_head c f r :
  Forall (fun x => (x =? c) = false) f ->
  hd [] (split_char c (f ++ match r with [] => [] | _ :: r' => c :: r' end)) = f.
Proof.
  intros H. destruct r as [|x r'].
  - rewrite app_nil_r. induction H as [|y f Hy _ IH]; [reflexivity|].
    cbn [split_char]. rewrite Hy.
    destruct (split_char_cons c f) as (h & t & E). rewrite E in *.
    cbn [hd] in *. rewrite IH. reflexivity.
  - rewrite split_char_app by assumption. reflexivity.
Qed.

(** Case of the field name and parameters after a semicolon do not
    matter. *)
Lemma read_line_params f ps v :
  field_name f = true -> field_params ps = true -> line_value v = true ->
  read_line (f ++ ps ++ 58 :: v) = Ok (Some (toUpperCase f, JStr v)).
Proof.
  unfold field_name, field_params, line_value. intros Hf Hps Hv.
  apply andb_true_iff in Hf as [Hf Hend]. apply andb_true_iff in Hf as [Hf Hbegin].
  apply andb_true_iff in Hf as [Hne Hf]. apply andb_true_iff in Hv as [Hvne Hv].
  apply forallb_Forall in Hf, Hv.
  assert (Forall (fun c => not_colon c = true) f /\ Forall (fun x => (x =? 59) = false) f)
    as [Hfc Hfs].
  { split; (eapply Forall_impl; [exact Hf|]); intros c Hc; cbn beta in Hc;
      apply negb_true_iff in Hc; cbn [one_of existsb] in Hc;
      apply orb_false_iff in Hc as [H1 Hc]; apply orb_false_iff in Hc as [H2 _].
    - unfold not_colon, is_char. rewrite H1. reflexivity.
    - exact H2. }
  assert (f <> []) as Hfne by (intros ->; discriminate).
  assert (v <> []) as Hvne' by (intros ->; discriminate).
  assert (exists r, ps = match r with [] => [] | _ :: r' => 59 :: r' end
                    /\ Forall (fun c => not_colon c = true) ps) as (r & Er & Hpc).
  { destruct ps as [|c r]; [exists []; split; [reflexivity|constructor]|].
    apply andb_true_iff in Hps as [Hc Hr]. apply N.eqb_eq in Hc. subst c.
    exists (59 :: r). split; [reflexivity|].
    constructor; [reflexivity|apply forallb_Forall; exact Hr]. }
  unfold read_line. rewrite app_assoc.
  assert (jstr_eqb (trim ((f ++ ps) ++ 58 :: v)) [] = false) as ->.
  { unfold jstr_eqb. apply bool_decide_eq_false. apply has_colon_trim. }
  rewrite <- !app_assoc.
  rewrite !differs_startsWith by assumption. cbn [orb].
  rewrite app_assoc.
  rewrite vcard_line_accepts; auto.
  2:{ destruct f; [congruence|discriminate]. }
  2:{ apply Forall_app; split; assumption. }
  change (elem [(f ++ ps) ++ 58 :: v; f ++ ps; v] 1) with (JStr (f ++ ps)).
  change (elem [(f ++ ps) ++ 58 :: v; f ++ ps; v] 2) with (JStr v).
  cbn [as_str obind].
  pose proof (split_char_head 59 f r Hfs) as Hh. rewrite <- Er in Hh.
  destruct (split_char_cons 59 (f ++ ps)) as (h & t & Hs). rewrite Hs in *.
  change (elem (h :: t) 0) with (JStr h). cbn [as_str obind hd] in *.
  rewrite Hh. reflexivity.
Qed.

(** * The QR payload *)

Lemma trimStart_blank ws s : blank ws = true -> trimStart (ws ++ s) = trimStart s.
Proof.
  unfold blank. induction ws as [|c ws IH]; [reflexivity|].
  cbn [forallb app trimStart]. intros H. apply andb_true_iff in H as [-> H]. auto.
Qed.

Lemma trimEnd_blank_nil ws : blank ws = true -> trimEnd ws = [].
Proof.
  unfold blank. induction ws as [|c ws IH]; [reflexivity|].
  cbn [forallb trimEnd]. intros H. apply andb_true_iff in H as [-> H].
  rewrite IH by assumption. reflexivity.
Qed.

Lemma trimEnd_blank s ws : blank ws = true -> trimEnd (s ++ ws) = trimEnd s.
Proof.
  intros H. induction s as [|c s IH].
  - cbn [app]. rewrite trimEnd_blank_nil by assumption. reflexivity.
  - cbn [app trimEnd]. rewrite IH. reflexivity.
Qed.

Lemma trimStart_blank_nil ws : blank ws = true -> trimStart ws = [].
Proof.
  unfold blank. induction ws as [|c ws IH]; [reflexivity|].
  cbn [forallb trimStart]. intros H. apply andb_true_iff in H as [-> H]. auto.
Qed.

Lemma trim_padded ws1 s ws2 :
  blank ws1 = true -> blank ws2 = true ->
  head_ok non_space s = true -> last_ok non_space s = true ->
  trim (ws1 ++ s ++ ws2) = s.
Proof.
  intros H1 H2 Hh Hl. unfold trim.
  rewrite trimStart_blank by assumption.
  destruct s as [|c s]; cbn [app].
  - rewrite trimStart_blank_nil by assumption. reflexivity.
  - cbn [trimStart]. cbn [head_ok] in Hh. unfold non_space in Hh.
    apply negb_true_iff in Hh. rewrite Hh.
    change (c :: s ++ ws2) with ((c :: s) ++ ws2).
    rewrite trimEnd_blank by assumption. apply trimEnd_id. assumption.
Qed.

Lemma startsWith_includes s p : startsWith s p = true -> includes s p = true.
Proof. intros H. destruct s; cbn [includes]; rewrite H; reflexivity. Qed.

(** A generated text begins with [BEGIN:VCARD] and ends with the [D]
    of [END:VCARD]. *)
Lemma generated_edges name phone email company eventTag :
  let text := join CRLF (vcard_lines name phone email company eventTag) in
  startsWith text (str "BEGIN:VCARD") = true
  /\ head_ok non_space text = true /\ last_ok non_space text = true.
Proof.
  cbv zeta. unfold vcard_lines.
  set (mid := when_set name [fn_line name; n_line name] ++ when_set phone [tel_line phone]
              ++ when_set email [email_line email] ++ when_set company [org_line company]
              ++ when_set eventTag [tag_line eventTag]).
  replace ([str "BEGIN:VCARD"; str "VERSION:3.0"] ++ when_set name [fn_line name; n_line name]
           ++ when_set phone [tel_line phone] ++ when_set email [email_line email]
           ++ when_set company [org_line company] ++ when_set eventTag [tag_line eventTag]
           ++ [str "END:VCARD"])
    with (([str "BEGIN:VCARD"; str "VERSION:3.0"] ++ mid) ++ [str "END:VCARD"])
    by (unfold mid; rewrite <- !app_assoc; reflexivity).
  rewrite join_snoc by discriminate.
  split; [|split].
  - cbn [app join]. destruct mid; reflexivity.
  - cbn [app join]. destruct mid; reflexivity.
  - unfold last_ok. unfold CRLF.
    change (join [13; 10] ([str "BEGIN:VCARD"; str "VERSION:3.0"] ++ mid)
            ++ [13; 10] ++ str "END:VCARD")
      with (join [13; 10] ([str "BEGIN:VCARD"; str "VERSION:3.0"] ++ mid)
            ++ 13 :: (10 :: str "END:VCARD")).
    rewrite last_app_cons. reflexivity.
Qed.

(** * Batches *)

Lemma weave_app l r1 sep l' r2 :
  weave l (r1 ++ (sep, l') :: r2) = weave l r1 ++ sep ++ weave l' r2.
Proof.
  revert l. induction r1 as [|[s x] r1 IH]; intros l; [reflexivity|].
  cbn [app weave]. rewrite IH, <- !app_assoc. reflexivity.
Qed.

Lemma join_weave sep l ls : join sep (l :: ls) = weave l (List.map (fun x => (sep, x)) ls).
Proof.
  revert l. induction ls as [|x ls IH]; intros l; [reflexivity|].
  rewrite join_cons by discriminate. cbn [List.map weave]. rewrite IH. reflexivity.
Qed.

Lemma weave_head p l rest :
  l <> [] -> Forall (fun c => p c = false) l ->
  head_ok (fun c => negb (p c)) (weave l rest) = true.
Proof.
  intros Hne Hl. destruct l as [|c l]; [congruence|].
  inversion Hl as [|? ? Hc _]; subst.
  destruct rest as [|[s x] rest]; cbn [weave app head_ok]; rewrite Hc; reflexivity.
Qed.

(** Splitting on the runs of a class finds the lines again, whatever
    the (non-empty) run of the class between two of them. *)
Lemma split_loop_weave p rest : forall l fuel,
  l <> [] -> Forall (fun c => p c = false) l ->
  Forall (fun sl => fst sl <> [] /\ Forall (fun c => p c = true) (fst sl)
                    /\ snd sl <> [] /\ Forall (fun c => p c = false) (snd sl)) rest ->
  (length (weave l rest) <= fuel)%nat ->
  split_loop fuel (plus p) None (weave l rest) [] = l :: List.map snd rest.
Proof.
  induction rest as [|[sep l'] rest IH]; intros l fuel Hne Hl Hall Hf.
  - cbn [weave List.map] in *. rewrite <- (app_nil_r l) at 1.
    rewrite split_loop_piece; auto; [|simpl; lia].
    destruct (fuel - length l)%nat; simpl; rewrite ?app_nil_r; reflexivity.
  - inversion Hall as [|? ? (Hs1 & Hs2 & Hl1 & Hl2) Hall']; subst. cbn [fst snd] in *.
    cbn [weave List.map snd] in *. rewrite !length_app in Hf.
    assert (1 <= length sep)%nat as Hsep by (destruct sep; [congruence|simpl; lia]).
    rewrite split_loop_piece; auto; [|rewrite length_app; lia].
    destruct (fuel - length l)%nat as [|fuel'] eqn:Ef; [lia|].
    rewrite split_loop_sep; auto; [|apply weave_head; assumption].
    simpl app. f_equal. apply IH; auto. lia.
Qed.

Lemma split_re_weave p l rest :
  l <> [] -> Forall (fun c => p c = false) l ->
  Forall (fun sl => fst sl <> [] /\ Forall (fun c => p c = true) (fst sl)
                    /\ snd sl <> [] /\ Forall (fun c => p c = false) (snd sl)) rest ->
  split_re (plus p) (weave l rest) = l :: List.map snd rest.
Proof.
  intros Hne Hl Hall. unfold split_re.
  destruct (weave l rest) as [|c t] eqn:E.
  - destruct l; [congruence|]. destruct rest as [|[? ?] ?]; discriminate.
  - rewrite <- E. apply split_loop_weave; auto.
Qed.

(** A batch text is the weave of the lines of its cards. *)
Lemma batch_weave l ls (cards : list (list jstr)) :
  Forall (fun card => card <> []) cards ->
  join (CRLF ++ CRLF) (List.map (join CRLF) ((l :: ls) :: cards))
  = weave l (List.map (fun x => (CRLF, x)) ls ++ batch_tail cards).
Proof.
  revert l ls. induction cards as [|card cards IH]; intros l ls Hall.
  - cbn [List.map join batch_tail flat_map]. rewrite app_nil_r. apply join_weave.
  - inversion Hall as [|? ? Hc Hall']; subst.
    destruct card as [|l' ls']; [congruence|].
    cbn [List.map]. rewrite join_cons by discriminate.
    change (join (CRLF ++ CRLF) (join CRLF (l' :: ls') :: List.map (join CRLF) cards))
      with (join (CRLF ++ CRLF) (List.map (join CRLF) ((l' :: ls') :: cards))).
    rewrite IH by assumption.
    unfold batch_tail. cbn [flat_map card_tail].
    rewrite <- app_assoc. cbn [app].
    rewrite weave_app, join_weave. reflexivity.
Qed.

Lemma batch_tail_lines cards : List.map snd (batch_tail cards) = concat cards.
Proof.
  unfold batch_tail. induction cards as [|card cards IH]; [reflexivity|].
  cbn [flat_map concat]. rewrite List.map_app, IH. f_equal.
  destruct card as [|l ls]; [reflexivity|].
  cbn [card_tail List.map snd]. f_equal.
  rewrite List.map_map. cbn [snd]. apply List.map_id.
Qed.

Lemma card_lines_cons contact : exists ls, card_lines contact = str "BEGIN:VCARD" :: ls.
Proof. unfold card_lines, vcard_lines. eexists. reflexivity. Qed.

Lemma card_lines_wf contact :
  Forall (fun l => l <> [] /\ Forall (fun c => one_of [13; 10] c = false) l)
    (card_lines contact).
Proof. apply lines_wf. Qed.

Lemma mapO_generate contacts :
  mapO generate contacts = Ok (List.map (fun c => join CRLF (card_lines c)) contacts).
Proof.
  induction contacts as [|c contacts IH]; [reflexivity|].
  cbn [mapO List.map]. rewrite generate_any, IH. reflexivity.
Qed.

(** Splitting a batch text gives the lines of its cards, one card
    after the other. *)
Lemma split_cards (cards : list (list jstr)) :
  cards <> [] ->
  Forall (fun card => card <> []
            /\ Forall (fun l => l <> [] /\ Forall (fun c => one_of [13; 10] c = false) l)
                 card) cards ->
  split_re re_crlf (join (CRLF ++ CRLF) (List.map (join CRLF) cards)) = concat cards.
Proof.
  intros Hne Hall. destruct cards as [|card0 cards]; [congruence|].
  inversion Hall as [|? ? [Hc0 Hwf0] Hall']; subst.
  destruct card0 as [|l ls]; [congruence|].
  rewrite batch_weave.
  2:{ eapply Forall_impl; [exact Hall'|]. intros card [H _]. exact H. }
  inversion Hwf0 as [|? ? [Hl1 Hl2] Hls]; subst.
  unfold re_crlf. rewrite split_re_weave; [| assumption | assumption |].
  - rewrite List.map_app, batch_tail_lines, List.map_map. cbn [snd].
    rewrite List.map_id. reflexivity.
  - apply Forall_app; split.
    + apply Forall_forall. intros [s x] Hin.
      apply list_elem_of_In, in_map_iff in Hin as (y & Ey & Hy).
      inversion Ey; subst s x. cbn [fst snd].
      rewrite Forall_forall in Hls.
      destruct (Hls y) as [H1 H2]; [apply list_elem_of_In; exact Hy|].
      split; [discriminate|]. split; [repeat constructor|]. split; assumption.
    + unfold batch_tail. apply Forall_forall. intros [s x] Hin.
      apply list_elem_of_In, in_flat_map in Hin as (card & Hcard & Hin).
      rewrite Forall_forall in Hall'.
      destruct (Hall' card) as [_ Hwf]; [apply list_elem_of_In; exact Hcard|].
      destruct card as [|l' ls']; [destruct Hin|].
      cbn [card_tail] in Hin. inversion Hwf as [|? ? [H1 H2] Hls']; subst.
      destruct Hin as [Ey|Hin].
      * inversion Ey; subst s x. cbn [fst snd].
        split; [discriminate|]. split; [repeat constructor|]. split; assumption.
      * apply in_map_iff in Hin as (y & Ey & Hy).
        inversion Ey; subst s x. cbn [fst snd].
        rewrite Forall_forall in Hls'.
        destruct (Hls' y) as [H3 H4]; [apply list_elem_of_In; exact Hy|].
        split; [discriminate|]. split; [repeat constructor|]. split; assumption.
Qed.

Lemma split_batch contacts :
  contacts <> [] ->
  split_re re_crlf
    (join (CRLF ++ CRLF) (List.map (fun c => join CRLF (card_lines c)) contacts))
  = concat (List.map card_lines contacts).
Proof.
  intros Hne. rewrite <- (List.map_map card_lines (join CRLF)).
  apply split_cards.
  - destruct contacts; [congruence|discriminate].
  - apply Forall_forall. intros card Hin.
    apply list_elem_of_In, in_map_iff in Hin as (c & <- & _).
    split; [|apply card_lines_wf].
    destruct (card_lines_cons c) as (? & ->). discriminate.
Qed.


(** * Decoding a batch *)

Section CardInBatch.
Variables name phone email company eventTag : jstr.
Variables pre post : list jstr.

Let Ln := when_set name [fn_line name; n_line name].
Let Lp := when_set phone [tel_line phone].
Let Le := when_set email [email_line email].
Let Lc := when_set company [org_line company].
Let Lt := when_set eventTag [tag_line eventTag].

(** The first card decides the phone, when it has one. *)
Lemma first_card_phone c :
  no_backslash phone = true -> replace_all re_phone_clean [] phone <> [] ->
  parse_lines emptyRecord (vcard_lines name phone email company eventTag ++ post) = Ok c ->
  get c "phone" = JStr (replace_all re_phone_clean [] phone).
Proof using Type.
  intros Hsafe Hq H. rewrite any_lines in H.
  destruct (fixed_lines_target "phone") as (Hb & Hv & He).
  apply phone_clean_safe in Hsafe.
  set (q := replace_all re_phone_clean [] phone) in *.
  assert (tel_line phone = str "TEL;TYPE=CELL" ++ 58 :: escape (JStr q)) as Htel
    by reflexivity.
  assert (when_set phone [tel_line phone] = [tel_line phone]) as Hw.
  { destruct phone; [|reflexivity]. exfalso. apply Hq. reflexivity. }
  rewrite Hw in H. clear Hw.
  replace (([str "BEGIN:VCARD"; str "VERSION:3.0"]
           ++ when_set name [fn_line name; n_line name] ++ [tel_line phone]
           ++ when_set email [email_line email] ++ when_set company [org_line company]
           ++ when_set eventTag [tag_line eventTag] ++ [str "END:VCARD"]) ++ post)
    with (([str "BEGIN:VCARD"; str "VERSION:3.0"]
           ++ when_set name [fn_line name; n_line name])
          ++ tel_line phone ::
             (when_set email [email_line email] ++ when_set company [org_line company]
              ++ when_set eventTag [tag_line eventTag] ++ [str "END:VCARD"] ++ post)) in H
    by (rewrite <- !app_assoc; reflexivity).
  destruct (line_safe_accepted q Hsafe Hq) as [Hne Hd].
  assert (reads (tel_line phone) "TEL" (escape (JStr q))) as Hr.
  { rewrite Htel. apply read_line_value; [reflexivity|assumption|assumption]. }
  assert (get c "phone" = JStr (unescape (JStr (escape (JStr q))))) as Hg.
  { eapply (first_line_wins "phone" "TEL" emptyRecord);
      [left; auto|reflexivity|exact H| |exact Hr].
    apply Forall_app; split; [repeat constructor; auto|].
    apply fn_lines_target; discriminate. }
  rewrite Hg, line_safe_unescape by assumption. reflexivity.
Qed.

(** The first card decides the email, when it has one. *)
Lemma first_card_email c :
  line_safe email = true -> email <> [] ->
  parse_lines emptyRecord (vcard_lines name phone email company eventTag ++ post) = Ok c ->
  get c "email" = JStr email.
Proof using Type.
  intros Hsafe Hn H. rewrite any_lines in H.
  destruct (fixed_lines_target "email") as (Hb & Hv & He).
  assert (when_set email [email_line email] = [email_line email]) as Hw
    by (destruct email; [congruence|reflexivity]).
  rewrite Hw in H. clear Hw.
  replace (([str "BEGIN:VCARD"; str "VERSION:3.0"]
           ++ when_set name [fn_line name; n_line name] ++ when_set phone [tel_line phone]
           ++ [email_line email] ++ when_set company [org_line company]
           ++ when_set eventTag [tag_line eventTag] ++ [str "END:VCARD"]) ++ post)
    with (([str "BEGIN:VCARD"; str "VERSION:3.0"]
           ++ when_set name [fn_line name; n_line name] ++ when_set phone [tel_line phone])
          ++ email_line email ::
             (when_set company [org_line company]
              ++ when_set eventTag [tag_line eventTag] ++ [str "END:VCARD"] ++ post)) in H
    by (rewrite <- !app_assoc; reflexivity).
  destruct (line_safe_accepted email Hsafe Hn) as [Hne Hd].
  assert (reads (email_line email) "EMAIL" (escape (JStr email))) as Hr.
  { unfold email_line.
    change (str "EMAIL;TYPE=INTERNET:" ++ ?x) with (str "EMAIL;TYPE=INTERNET" ++ 58 :: x).
    apply read_line_value; [reflexivity|assumption|assumption]. }
  assert (get c "email" = JStr (unescape (JStr (escape (JStr email))))) as Hg.
  { eapply (first_line_wins "email" "EMAIL" emptyRecord);
      [right; auto|reflexivity|exact H| |exact Hr].
    repeat (apply Forall_app; split); [repeat constructor; auto| |].
    - apply fn_lines_target; discriminate.
    - apply tel_lines_target; discriminate. }
  rewrite Hg, line_safe_unescape by assumption. reflexivity.
Qed.

(** The last card decides the company, when it has one. *)
Lemma last_card_company c0 c :
  line_safe company = true -> company <> [] ->
  parse_lines c0 (pre ++ vcard_lines name phone email company eventTag) = Ok c ->
  get c "company" = JStr company.
Proof using Type.
  intros Hsafe Hn H. rewrite any_lines in H.
  destruct (fixed_lines_target "company") as (Hb & Hv & He).
  assert (when_set company [org_line company] = [org_line company]) as Hw
    by (destruct company; [congruence|reflexivity]).
  rewrite Hw in H. clear Hw.
  replace (pre ++ [str "BEGIN:VCARD"; str "VERSION:3.0"]
           ++ when_set name [fn_line name; n_line name] ++ when_set phone [tel_line phone]
           ++ when_set email [email_line email] ++ [org_line company]
           ++ when_set eventTag [tag_line eventTag] ++ [str "END:VCARD"])
    with ((pre ++ [str "BEGIN:VCARD"; str "VERSION:3.0"]
           ++ when_set name [fn_line name; n_line name] ++ when_set phone [tel_line phone]
           ++ when_set email [email_line email])
          ++ org_line company ::
             (when_set eventTag [tag_line eventTag] ++ [str "END:VCARD"])) in H
    by (rewrite <- !app_assoc; reflexivity).
  destruct (line_safe_accepted company Hsafe Hn) as [Hne Hd].
  assert (reads (org_line company) "ORG" (escape (JStr company))) as Hr.
  { unfold org_line. change (str "ORG:" ++ ?x) with (str "ORG" ++ 58 :: x).
    apply read_line_value; [reflexivity|assumption|assumption]. }
  eapply (last_line_wins "company" (JStr company) c0); [|exact H|].
  + intros c1. rewrite (parse_line_reads _ _ _ _ Hr), assign_ORG.
    rewrite line_safe_unescape by assumption. reflexivity.
  + apply Forall_app; split; [apply tag_lines_target; discriminate|repeat constructor; auto].
Qed.

(** The last card decides the event tag, when it has one. *)
Lemma last_card_eventTag c0 c :
  line_safe eventTag = true -> eventTag <> [] ->
  parse_lines c0 (pre ++ vcard_lines name phone email company eventTag) = Ok c ->
  get c "eventTag" = JStr eventTag.
Proof using Type.
  intros Hsafe Hn H. rewrite any_lines in H.
  destruct (fixed_lines_target "eventTag") as (Hb & Hv & He).
  assert (when_set eventTag [tag_line eventTag] = [tag_line eventTag]) as Hw
    by (destruct eventTag; [congruence|reflexivity]).
  rewrite Hw in H. clear Hw.
  replace (pre ++ [str "BEGIN:VCARD"; str "VERSION:3.0"]
           ++ when_set name [fn_line name; n_line name] ++ when_set phone [tel_line phone]
           ++ when_set email [email_line email] ++ when_set company [org_line company]
           ++ [tag_line eventTag] ++ [str "END:VCARD"])
    with ((pre ++ [str "BEGIN:VCARD"; str "VERSION:3.0"]
           ++ when_set name [fn_line name; n_line name] ++ when_set phone [tel_line phone]
           ++ when_set email [email_line email] ++ when_set company [org_line company])
          ++ tag_line eventTag :: [str "END:VCARD"]) in H
    by (rewrite <- !app_assoc; reflexivity).
  destruct (line_safe_accepted eventTag Hsafe Hn) as [Hne Hd].
  assert (reads (tag_line eventTag) "X-EVENT-TAG" (escape (JStr eventTag))) as Hr.
  { unfold tag_line. change (str "X-EVENT-TAG:" ++ ?x) with (str "X-EVENT-TAG" ++ 58 :: x).
    apply read_line_value; [reflexivity|assumption|assumption]. }
  eapply (last_line_wins "eventTag" (JStr eventTag) c0); [|exact H|].
  + intros c1. rewrite (parse_line_reads _ _ _ _ Hr), assign_TAG.
    rewrite line_safe_unescape by assumption. reflexivity.
  + repeat constructor; auto.
Qed.

End CardInBatch.

Lemma generateBatch_text contacts :
  generateBatch contacts
  = Ok (join (CRLF ++ CRLF) (List.map (fun c => join CRLF (card_lines c)) contacts)).
Proof. unfold generateBatch. rewrite mapO_generate. reflexivity. Qed.

Lemma parse_batch contacts :
  contacts <> [] ->
  parse (join (CRLF ++ CRLF) (List.map (fun c => join CRLF (card_lines c)) contacts))
  = parse_lines emptyRecord (concat (List.map card_lines contacts)).
Proof.
  intros Hne. unfold parse. rewrite split_batch by assumption.
  destruct (join (CRLF ++ CRLF) _) eqn:E; [|reflexivity].
  destruct contacts as [|c0 contacts]; [congruence|].
  cbn [List.map] in E. destruct (card_lines_cons c0) as (ls & E0).
  rewrite E0 in E.
  destruct contacts as [|c1 contacts]; cbn [List.map join] in E.
  - destruct ls; discriminate.
  - destruct ls; discriminate.
Qed.


(** * More on cleanText *)

(** In both copies the code units that survive are the same. *)
Lemma tidy_kept v c : tidy_cu v c = kept_cu c.
Proof.
  unfold tidy_cu, kept_cu, final_keep, is_word, is_ascii, garbage, is_alnum,
    is_upper, is_lower, is_digit, is_space, in_range, is_char, one_of, existsb.
  destruct v.
  - apply eq_true_iff_eq. bool_to_prop. lia.
  - apply eq_true_iff_eq. bool_to_prop. lia.
Qed.

Lemma no_pair_ext p q s :
  Forall (fun c => p c = q c) s -> no_pair p s = no_pair q s.
Proof.
  induction 1 as [|c s Hc Hs IH]; [reflexivity|].
  destruct s as [|d s]; [reflexivity|].
  rewrite !no_pair_two. inversion Hs; subst.
  rewrite Hc, IH. congruence.
Qed.

Lemma kept_dash c : kept_cu c = true -> dash_or_underscore c = is_char 45 c.
Proof.
  unfold kept_cu, dash_or_underscore, is_alnum, is_upper, is_lower, is_digit,
    in_range, is_char, one_of, existsb.
  intros H. apply eq_true_iff_eq. bool_to_prop. lia.
Qed.

(** The form [cleanText] produces, in the terms of the code units. *)
Lemma clean_cleaned v s : clean v s <-> cleaned s = true.
Proof.
  unfold clean, cleaned. split.
  - intros (Ht & Hd & Hs & Hh & Hl).
    assert (Forall (fun c => kept_cu c = true) s) as Hk.
    { eapply Forall_impl; [exact Ht|]. intros c Hc. cbn beta in Hc.
      rewrite tidy_kept in Hc. exact Hc. }
    rewrite Forall_forallb by exact Hk.
    rewrite <- (no_pair_ext dash_or_underscore), Hd, Hs, Hh, Hl; [reflexivity|].
    eapply Forall_impl; [exact Hk|]. apply kept_dash.
  - intros H.
    apply andb_true_iff in H as [H Hl]. apply andb_true_iff in H as [H Hh].
    apply andb_true_iff in H as [H Hs]. apply andb_true_iff in H as [Hk Hd].
    apply forallb_Forall in Hk.
    split; [|split; [|split; [|split]]]; auto.
    + eapply Forall_impl; [exact Hk|]. intros c Hc. cbn beta.
      rewrite tidy_kept. exact Hc.
    + rewrite (no_pair_ext dash_or_underscore (is_char 45)); [exact Hd|].
      eapply Forall_impl; [exact Hk|]. apply kept_dash.
Qed.

(** * The matches of the email pattern *)

Lemma match_loop_each r (Q : jstr -> Prop) :
  (forall prev rest ms rest', match_here r prev rest = Some (ms, rest') ->
     exists cs, rest = cs ++ rest' /\ Q cs) ->
  forall fuel prev rest, Forall Q (match_loop fuel r prev rest).
Proof.
  intros HQ. induction fuel as [|fuel IH]; intros prev rest; simpl; [constructor|].
  destruct (match_here r prev rest) as [[ms rest']|] eqn:E.
  - destruct (HQ _ _ _ _ E) as (cs & Heq & Hcs).
    assert (take (length rest - length rest') rest = cs) as Htake.
    { subst rest. rewrite length_app.
      replace (length cs + length rest' - length rest')%nat with (length cs) by lia.
      apply take_app_length. }
    rewrite Htake.
    destruct (length rest' <? length rest)%nat.
    + constructor; auto.
    + destruct rest as [|c t].
      * repeat constructor; auto.
      * constructor; auto.
  - destruct rest as [|c t]; [constructor|]. apply IH.
Qed.

Lemma email_alphabet_plain c :
  alphabet re_email c = true -> is_space c = false.
Proof.
  cbn [alphabet re_email seq plus chr].
  unfold email_local, email_domain, email_tld, is_alnum, is_upper, is_lower, is_digit,
    is_space, in_range, is_char, one_of, existsb.
  intros H. bool_to_prop. lia.
Qed.

(** A match of the email pattern holds an [@] and no blank. *)
Lemma email_match prev rest ms rest' :
  match_here re_email prev rest = Some (ms, rest') ->
  exists cs, rest = cs ++ rest'
             /\ (In 64 cs /\ Forall (fun c => is_space c = false) cs).
Proof.
  intros H.
  destruct (match_here_sound _ _ _ _ _ H) as (cs & Heq & Hall).
  exists cs. split; [exact Heq|]. split.
  - unfold match_here, re_email, plus, chr in H. cbn [seq m] in H.
    destruct (xorb (word_behind prev) (word_ahead rest)); [|discriminate].
    apply rep_sound in H as (c1 & r1 & E1 & _ & _ & H). cbn beta in H.
    apply rep_sound in H as (c2 & r2 & E2 & H2 & Hl2 & H). cbn beta in H.
    apply rep_sound in H as (c3 & r3 & E3 & _ & _ & H). cbn beta in H.
    apply rep_sound in H as (c4 & r4 & E4 & _ & _ & H). cbn beta in H.
    apply rep_sound in H as (c5 & r5 & E5 & _ & _ & H). cbn beta in H.
    destruct (xorb _ (word_ahead r5)); [|discriminate].
    assert (r5 = rest') as -> by (inversion H; reflexivity).
    subst r4 r3 r2 r1. rewrite E1 in Heq.
    assert (cs = c1 ++ c2 ++ c3 ++ c4 ++ c5) as ->.
    { apply (app_inv_tail rest'). rewrite <- !app_assoc. symmetry. exact Heq. }
    destruct c2 as [|x c2]; [simpl in Hl2; lia|].
    inversion H2 as [|? ? Hx _]; subst. apply N.eqb_eq in Hx. subst x.
    apply in_or_app. right. left. reflexivity.
  - eapply Forall_impl; [exact Hall|]. apply email_alphabet_plain.
Qed.

(** * Lower case *)

Lemma lower_cu_facts c :
  Forall (fun d => is_upper d = false) (lower_cu c)
  /\ (is_space c = false -> Forall (fun d => is_space d = false) (lower_cu c))
  /\ (c = 64 -> lower_cu c = [64]).
Proof.
  unfold lower_cu. split; [|split].
  - destruct (is_upper c) eqn:Eu.
    + constructor; [|constructor].
      unfold is_upper, in_range in *. bool_to_prop. lia.
    + destruct (N.eqb_spec c 8490); [repeat constructor|].
      destruct (N.eqb_spec c 304); [repeat constructor|].
      constructor; [exact Eu|constructor].
  - intros Hs. destruct (is_upper c) eqn:Eu.
    + constructor; [|constructor].
      unfold is_upper, is_space, in_range, one_of, existsb in *. bool_to_prop. lia.
    + destruct (N.eqb_spec c 8490); [repeat constructor|].
      destruct (N.eqb_spec c 304); [repeat constructor|].
      constructor; [exact Hs|constructor].
  - intros ->. reflexivity.
Qed.

Lemma lower_no_upper s : Forall (fun d => is_upper d = false) (toLowerCase s).
Proof.
  unfold toLowerCase. induction s as [|c s IH]; [constructor|].
  cbn [flat_map]. apply Forall_app; split; [apply lower_cu_facts|exact IH].
Qed.

Lemma lower_plain s :
  Forall (fun d => is_space d = false) s ->
  Forall (fun d => is_space d = false) (toLowerCase s).
Proof.
  unfold toLowerCase. induction 1 as [|c s Hc _ IH]; [constructor|].
  cbn [flat_map]. apply Forall_app; split; [apply lower_cu_facts; exact Hc|exact IH].
Qed.

Lemma lower_at s : In 64 s -> In 64 (toLowerCase s).
Proof.
  unfold toLowerCase. induction s as [|c s IH]; [intros []|].
  cbn [flat_map]. intros [->|H]; apply in_or_app.
  - left. left. reflexivity.
  - right. auto.
Qed.

Lemma trim_plain s : Forall (fun d => is_space d = false) s -> trim s = s.
Proof.
  intros H. apply trim_id.
  - destruct H as [|c s Hc _]; [reflexivity|].
    cbn [head_ok]. unfold non_space. rewrite Hc. reflexivity.
  - unfold last_ok. destruct (last s) as [c|] eqn:E; [|reflexivity].
    apply last_Some in E as (l' & ->).
    apply Forall_app in H as [_ H]. inversion H as [|? ? Hc _]; subst.
    unfold non_space. rewrite Hc. reflexivity.
Qed.

(** * The email of an inferred contact *)

Lemma emailCandidate_form v text :
  Forall (fun c => is_space c = false) (emailCandidate v text)
  /\ (emailCandidate v text <> [] -> In 64 (emailCandidate v text)).
Proof.
  unfold emailCandidate, match_all.
  pose proof (match_loop_each re_email _ email_match
                (S (length (cleanText v text))) None (cleanText v text)) as H.
  destruct (match_loop _ re_email None (cleanText v text)) as [|m0 l];
    [split; [constructor|congruence]|].
  inversion H as [|? ? [Hat Hplain] _]; subst.
  rewrite trim_plain by assumption.
  split; [apply lower_plain; assumption|intros _; apply lower_at; assumption].
Qed.

Lemma final_email_form v text :
  email_form (toLowerCase (trim (emailCandidate v text))).
Proof.
  destruct (emailCandidate_form v text) as [Hplain Hat].
  rewrite trim_plain by assumption. split.
  - apply Forall_forall. intros c Hc. split.
    + pose proof (lower_no_upper (emailCandidate v text)) as H.
      rewrite Forall_forall in H. auto.
    + pose proof (lower_plain _ Hplain) as H.
      rewrite Forall_forall in H. auto.
  - intros Hne. apply lower_at, Hat. intros E. rewrite E in Hne. apply Hne. reflexivity.
Qed.

Lemma keeps_email_insert k s e c :
  k = "name"%string \/ k = "phone"%string \/ k = "company"%string ->
  keeps_email e c -> keeps_email e (<[k := JStr s]> c).
Proof.
  intros Hk [Hs Hp]. split.
  - apply shape_insert; auto. tauto.
  - unfold get in *. destruct Hk as [-> | [-> | ->]]; simplify_map_eq; auto.
Qed.

Lemma keeps_email_normalizeFields v e c cls :
  keeps_email e c -> returns (keeps_email e) (normalizeFields v c cls).
Proof.
  intros Hc. unfold normalizeFields.
  eapply (returns_bind (fun _ => True)).
  - destruct (truthy (get c "company")) eqn:E; simpl.
    + apply truthy_str in E as (x & s & ->). simpl.
      eapply (returns_bind (fun _ => True)).
      * apply returns_lift. eexists; eauto.
      * intros; apply returns_ret; exact I.
    + apply returns_ret; exact I.
  - intros [] _; [|apply returns_ret; exact Hc].
    destruct (List.find _ cls); apply returns_ret; auto.
    apply keeps_email_insert; auto.
Qed.

Lemma cleanText_val_clean v x : clean v (cleanText_val v x).
Proof.
  destruct x as [| |s]; try (repeat split; constructor). apply cleanText_clean.
Qed.

(** What [extractContactInfo] returns, for every text and from every
    state of the patterns: the email is the processed candidate, name
    and company are cleaned texts. *)
Lemma extractContactInfo_fields v text :
  returns (fun c => inferred_shape c
                    /\ get c "email" = JStr (toLowerCase (trim (emailCandidate v text)))
                    /\ (exists n, get c "name" = JStr n /\ clean v n)
                    /\ (exists cm, get c "company" = JStr cm /\ clean v cm))
    (extractContactInfo v text).
Proof.
  unfold extractContactInfo. destruct text as [|c0 t0].
  { apply returns_ret. split; [apply emptyContact_keeps|].
    split; [reflexivity|].
    split; exists []; (split; [reflexivity|repeat split; constructor]). }
  set (text := c0 :: t0).
  set (E := emailCandidate v text).
  eapply returns_bind; [apply returns_match_g|]. intros emailMatch ->.
  eapply (returns_bind (keeps_email E)).
  { unfold E, emailCandidate. simpl regex.
    destruct (match_all re_email (cleanText v text)) as [[|x l]|]; simpl;
      try (apply returns_ret; split; [apply emptyContact_keeps|reflexivity]).
    eapply (returns_bind (fun r => r = trim x)).
    - apply returns_lift. eexists; split; reflexivity.
    - intros e ->. apply returns_ret. split.
      + apply shape_insert; auto. apply emptyContact_keeps.
      + unfold get. simplify_map_eq. reflexivity. }
  intros c1 H1.
  eapply returns_bind; [apply returns_match_g|]. intros pm1 _.
  eapply (returns_bind (fun _ => True)).
  { destruct pm1; [apply returns_ret; exact I|].
    eapply returns_weaken; [apply returns_match_g|]. auto. }
  intros pm _.
  eapply (returns_bind (keeps_email E)).
  { destruct pm as [[|x l]|]; simpl; try (apply returns_ret; exact H1).
    eapply (returns_bind (fun _ => True)).
    - apply returns_lift. eexists; split; [reflexivity|exact I].
    - intros r _. apply returns_ret. apply keeps_email_insert; auto. }
  intros c2 H2.
  eapply returns_bind; [apply returns_splitSingleLine|]. intros lines _.
  eapply returns_bind; [apply (returns_mapM (fun _ => True)), returns_classifyLine|].
  intros cls _.
  eapply (returns_bind (keeps_email E)).
  { apply returns_first_original.
    - intros o. apply returns_ret; apply keeps_email_insert; auto.
    - apply returns_first_original.
      + intros o. apply returns_ret; apply keeps_email_insert; auto.
      + apply returns_ret; auto. }
  intros c3 H3.
  eapply (returns_bind (keeps_email E)).
  { match goal with |- returns _ (if (0 <? length ?a)%nat then _ else _) =>
      destruct a as [|cl0 arr] eqn:Earr end; simpl.
    - apply returns_first_original.
      + intros o. apply returns_ret; apply keeps_email_insert; auto.
      + apply returns_ret; auto.
    - eapply (returns_bind (fun _ => True)).
      + destruct (is_type TCompany cl0); [apply returns_ret; exact I|].
        destruct (List.find _ arr); [apply returns_ret; exact I|].
        apply returns_lift. eexists; split; [reflexivity|exact I].
      + intros o _. apply returns_ret; apply keeps_email_insert; auto. }
  intros c4 H4.
  eapply returns_bind; [apply keeps_email_normalizeFields; eauto|].
  intros c5 H5. cbv zeta.
  set (c6 := <["company" := JStr (cleanText_val v
                 (get (<["name" := JStr (cleanText_val v (get c5 "name"))]> c5) "company"))]>
               (<["name" := JStr (cleanText_val v (get c5 "name"))]> c5)).
  assert (keeps_email E c6) as H6.
  { apply keeps_email_insert; auto. apply keeps_email_insert; auto. }
  eapply (returns_bind (fun _ => True)).
  { unfold normalizePhone.
    destruct (truthy (get c6 "phone")) eqn:Ep; [|apply returns_ret; exact I].
    apply truthy_str in Ep as (x & s & ->).
    eapply (returns_bind (fun _ => True)).
    - apply returns_lift. eexists; split; [reflexivity|exact I].
    - intros p _. destruct v; apply returns_ret; exact I. }
  intros ph _.
  assert (keeps_email E (<["phone" := JStr ph]> c6)) as H7
    by (apply keeps_email_insert; auto).
  destruct H7 as [H7s H7e]. rewrite H7e.
  eapply (returns_bind (fun em => em = toLowerCase (trim E))).
  { destruct E as [|e0 E']; cbn [truthy].
    - apply returns_ret. reflexivity.
    - eapply (returns_bind (fun r => r = e0 :: E')).
      + apply returns_lift. eexists; split; reflexivity.
      + intros r ->. apply returns_ret. reflexivity. }
  intros em ->. apply returns_ret.
  split; [apply shape_insert; auto|].
  split; [unfold get; simplify_map_eq; reflexivity|].
  unfold c6. split.
  - eexists. split; [unfold get; simplify_map_eq; reflexivity|apply cleanText_val_clean].
  - eexists. split; [unfold get; simplify_map_eq; reflexivity|apply cleanText_val_clean].
Qed.

(** * classifyLine: the line and the confidence of the rule *)

Ltac returns_rule :=
  repeat first
    [ apply returns_orM
    | apply returns_test_g
    | apply returns_ret; exact I
    | apply returns_ret; split; [reflexivity|cbn; auto 10] ].

Lemma classifyLine_rule line :
  returns (fun cl => original cl = line
                     /\ In (confidence cl) (rule_confidence (type cl)))
    (classifyLine line).
Proof.
  unfold classifyLine.
  eapply (returns_bind (fun _ => True)); [returns_rule|]. intros [] _; [returns_rule|].
  eapply (returns_bind (fun _ => True)); [returns_rule|]. intros [] _; [returns_rule|].
  eapply (returns_bind (fun _ => True)); [returns_rule|]. intros [] _; [returns_rule|].
  repeat match goal with
         | |- returns _ (if ?b then _ else _) => destruct b
         end; returns_rule.
Qed.

(** * processImage (mobile) *)

Lemma returns_catchM {A} (P : A -> Prop) (c : M A) h :
  returns P c -> returns P (catchM c h).
Proof.
  intros H st. destruct (H st) as (a & st' & E & Ha).
  exists a, st'. unfold catchM. rewrite E. auto.
Qed.


(** * The saved contacts *)

Lemma get_json c k : get (json c) k = get c k.
Proof.
  unfold get, json. destruct (c !! k) as [x|] eqn:E.
  - destruct (decide (x = JUndefined)) as [->|Hx].
    + rewrite map_lookup_filter_None_2; [reflexivity|].
      right. intros x Hx. rewrite E in Hx. inversion Hx; subst. cbn. tauto.
    + erewrite map_lookup_filter_Some_2; [reflexivity|exact E|exact Hx].
  - rewrite map_lookup_filter_None_2; [reflexivity|]. left. exact E.
Qed.

Lemma has_id_json id c : has_id id (json c) = has_id id c.
Proof. unfold has_id. rewrite get_json. reflexivity. Qed.

Section DatesFacts.
Variable time_of : jsval -> option Z.

Lemma insert_contact_perm x l : insert_contact time_of x l ≡ₚ x :: l.
Proof.
  induction l as [|y l IH]; [reflexivity|].
  cbn [insert_contact]. destruct (newer_or_same time_of x y); [reflexivity|].
  rewrite IH. apply perm_swap.
Qed.

(** Sorting keeps the contacts. *)
Lemma sort_contacts_perm l : sort_contacts time_of l ≡ₚ l.
Proof.
  unfold sort_contacts. induction l as [|x l IH]; [reflexivity|].
  cbn [foldr]. rewrite insert_contact_perm, IH. reflexivity.
Qed.

Lemma find_none {A} (p : A -> bool) l :
  List.find p l = None <-> Forall (fun x => p x = false) l.
Proof.
  induction l as [|x l IH]; cbn [List.find].
  - split; [constructor|reflexivity].
  - destruct (p x) eqn:E.
    + split; [discriminate|]. intros H. inversion H; congruence.
    + rewrite IH. split; [intros H; constructor; assumption|].
      intros H. inversion H; assumption.
Qed.



Lemma findIndex_none {A} (p : A -> bool) l :
  findIndex p l = None <-> Forall (fun x => p x = false) l.
Proof.
  induction l as [|x l IH]; cbn [findIndex].
  - split; [constructor|reflexivity].
  - destruct (p x) eqn:E.
    + split; [discriminate|]. intros H. inversion H; congruence.
    + destruct (findIndex p l) as [i|]; cbn [option_map].
      * split; [discriminate|]. intros H. inversion H as [|? ? _ Hl]; subst.
        apply IH in Hl. discriminate.
      * split; [|reflexivity]. intros _. constructor; [assumption|]. apply IH. reflexivity.
Qed.

Lemma findIndex_some {A} (p : A -> bool) l i :
  findIndex p l = Some i -> exists x, l !! i = Some x /\ p x = true.
Proof.
  revert i. induction l as [|x l IH]; intros i; cbn [findIndex]; [discriminate|].
  destruct (p x) eqn:E.
  - intros H. inversion H; subst. exists x. auto.
  - destruct (findIndex p l) as [j|]; cbn [option_map]; [|discriminate].
    intros H. inversion H; subst. destruct (IH j eq_refl) as (y & Hy & Hp).
    exists y. auto.
Qed.

End DatesFacts.

Section StoreFacts.
Variable time_of : jsval -> option Z.

Lemma getAll_some l : getAllContacts time_of (Some l) ≡ₚ l.
Proof. apply sort_contacts_perm. Qed.



(** What [deleteContact] leaves. *)
Lemma deleted_then_gone id st :
  getContact time_of id (snd (deleteContact time_of id st)) = None
  /\ getAllContacts time_of (snd (deleteContact time_of id st))
     ≡ₚ json_array (List.filter (fun c => negb (has_id id c)) (getAllContacts time_of st)).
Proof.
  unfold deleteContact. cbv zeta. cbn [snd]. split; [|apply getAll_some].
  unfold getContact. apply find_none. rewrite getAll_some.
  unfold json_array. apply Forall_forall. intros y Hy.
  apply list_elem_of_In, in_map_iff in Hy as (z & <- & Hz).
  apply filter_In in Hz as [_ Hz]. rewrite has_id_json.
  apply negb_true_iff in Hz. exact Hz.
Qed.

(** [updateContact] throws exactly when no saved contact has the id. *)
Lemma update_missing id updates st :
  Forall (fun c => get c "id" <> id) (getAllContacts time_of st)
  <-> updateContact time_of id updates st = (Throw "Contact not found", st).
Proof.
  unfold updateContact. cbv zeta.
  destruct (findIndex (has_id id) (getAllContacts time_of st)) as [i|] eqn:E.
  - split; [|discriminate]. intros H. exfalso.
    apply findIndex_some in E as (x & Hx & Hp).
    unfold has_id in Hp. apply bool_decide_eq_true in Hp.
    rewrite Forall_forall in H. apply (H x); [|exact Hp].
    eapply list_elem_of_lookup_2. exact Hx.
  - split; [reflexivity|]. intros _. apply findIndex_none in E.
    eapply Forall_impl; [exact E|]. intros c Hc. cbn beta in Hc.
    unfold has_id in Hc. apply bool_decide_eq_false in Hc. exact Hc.
Qed.

End StoreFacts.

(** * Searching *)

Lemma startsWith_app p s : startsWith (p ++ s) p = true.
Proof. induction p as [|x p IH]; [destruct s; reflexivity|]. cbn. rewrite N.eqb_refl. exact IH. Qed.




(** * Event tags *)

Lemma jstr_leb_total a : forall b, jstr_leb a b = false -> jstr_leb b a = true.
Proof.
  induction a as [|x a IH]; intros [|y b]; cbn [jstr_leb]; try discriminate; auto.
  intros H. apply orb_false_iff in H as [H1 H2].
  apply N.ltb_ge in H1.
  destruct (N.eqb_spec x y) as [E|E].
  - subst y. cbn [andb] in H2. rewrite N.eqb_refl, (IH b H2). apply orb_true_r.
  - assert ((y <? x) = true) as -> by (apply N.ltb_lt; lia). reflexivity.
Qed.

Lemma insert_tag_perm x l : insert_tag x l ≡ₚ x :: l.
Proof.
  induction l as [|y l IH]; [reflexivity|].
  cbn [insert_tag]. destruct (jstr_leb x y); [reflexivity|].
  rewrite IH. apply perm_swap.
Qed.

Lemma sort_tags_perm l : sort_tags l ≡ₚ l.
Proof.
  unfold sort_tags. induction l as [|x l IH]; [reflexivity|].
  cbn [foldr]. rewrite insert_tag_perm, IH. reflexivity.
Qed.

Lemma insert_tag_sorted x l :
  nondecreasing l = true -> nondecreasing (insert_tag x l) = true.
Proof.
  induction l as [|y l IH]; [reflexivity|]. intros Hl.
  cbn [insert_tag]. destruct (jstr_leb x y) eqn:E.
  - change (nondecreasing (x :: y :: l)) with (jstr_leb x y && nondecreasing (y :: l)).
    rewrite E, Hl. reflexivity.
  - apply jstr_leb_total in E.
    destruct l as [|z l]; cbn [insert_tag].
    + cbn [nondecreasing]. rewrite E. reflexivity.
    + change (nondecreasing (y :: z :: l)) with (jstr_leb y z && nondecreasing (z :: l)) in Hl.
      apply andb_true_iff in Hl as [Hyz Hl].
      specialize (IH Hl). cbn [insert_tag] in IH.
      destruct (jstr_leb x z).
      * change (jstr_leb y x && nondecreasing (x :: z :: l) = true).
        rewrite E, IH. reflexivity.
      * change (jstr_leb y z && nondecreasing (z :: insert_tag x l) = true).
        rewrite Hyz, IH. reflexivity.
Qed.

Lemma sort_tags_sorted l : nondecreasing (sort_tags l) = true.
Proof.
  unfold sort_tags. induction l as [|x l IH]; [reflexivity|].
  cbn [foldr]. apply insert_tag_sorted, IH.
Qed.

Lemma sorted_nodup_ascending l :
  nondecreasing l = true -> NoDup l -> ascending l = true.
Proof.
  induction l as [|y l IH]; intros Hl Hnd; [reflexivity|].
  destruct l as [|z l]; [reflexivity|].
  change (nondecreasing (y :: z :: l)) with (jstr_leb y z && nondecreasing (z :: l)) in Hl.
  apply andb_true_iff in Hl as [Hyz Hl].
  apply NoDup_cons in Hnd as [Hnin Hnd].
  change (ascending (y :: z :: l))
    with (jstr_leb y z && negb (jstr_eqb y z) && ascending (z :: l)).
  rewrite Hyz, (IH Hl Hnd). rewrite andb_true_r. cbn [andb].
  apply negb_true_iff. unfold jstr_eqb. apply bool_decide_eq_false.
  intros ->. apply Hnin. constructor.
Qed.

Lemma unique_spec l : forall seen,
  NoDup (unique seen l)
  /\ (forall x, x ∈ unique seen l <-> x ∈ l /\ x ∉ seen).
Proof.
  induction l as [|y l IH]; intros seen; cbn [unique].
  - split; [constructor|]. intros x. split; [intros H; inversion H|intros [H _]; inversion H].
  - destruct (existsb (jstr_eqb y) seen) eqn:E.
    + destruct (IH seen) as [Hnd Hin]. split; [exact Hnd|].
      intros x. rewrite Hin. split; [intros [H1 H2]; split; [right|]; assumption|].
      intros [H1 H2]. split; [|exact H2].
      apply elem_of_cons in H1 as [->|H1]; [|exact H1].
      exfalso. apply H2. apply existsb_exists in E as (z & Hz & Ez).
      apply jstr_eqb_true in Ez. subst z. apply list_elem_of_In. exact Hz.
    + destruct (IH (y :: seen)) as [Hnd Hin].
      assert (y ∉ seen) as Hy.
      { intros Hy. apply list_elem_of_In in Hy.
        assert (existsb (jstr_eqb y) seen = true) as E'.
        { apply existsb_exists. exists y. split; [exact Hy|].
          unfold jstr_eqb. apply bool_decide_eq_true. reflexivity. }
        congruence. }
      split.
      * apply NoDup_cons. split; [|exact Hnd].
        rewrite Hin. intros [_ H]. apply H. constructor.
      * intros x. split.
        -- intros H. apply elem_of_cons in H as [E1|H].
           ++ subst x. split; [left|exact Hy].
           ++ apply Hin in H as [H1 H2]. split; [right; exact H1|].
              intros H3. apply H2. right. exact H3.
        -- intros [H1 H2]. destruct (decide (x = y)) as [E1|Hne]; [subst x; left|].
           right. apply Hin. apply elem_of_cons in H1 as [H1|H1]; [congruence|].
           split; [exact H1|].
           intros H3. apply elem_of_cons in H3 as [H3|H3]; [congruence|auto].
Qed.

Section TagFacts.
Variable time_of : jsval -> option Z.

Lemma getEventTags_spec st :
  ascending (getEventTags time_of st) = true
  /\ (forall t, t ∈ getEventTags time_of st
                <-> t <> [] /\ exists c, c ∈ getAllContacts time_of st
                                         /\ get c "eventTag" = JStr t).
Proof.
  unfold getEventTags. cbv zeta.
  set (tagged := omap _ (getAllContacts time_of st)).
  destruct (unique_spec tagged []) as [Hnd Hin].
  split.
  - apply sorted_nodup_ascending; [apply sort_tags_sorted|].
    rewrite sort_tags_perm. exact Hnd.
  - intros t. rewrite sort_tags_perm, Hin. unfold tagged.
    rewrite list_elem_of_omap. split.
    + intros [(c & Hc & Ht) _].
      destruct (get c "eventTag") as [| |[|x s]] eqn:E; try discriminate.
      inversion Ht; subst t. split; [discriminate|]. exists c. auto.
    + intros (Hne & c & Hc & Ht). split; [|apply not_elem_of_nil].
      exists c. split; [exact Hc|]. rewrite Ht.
      destruct t; [congruence|reflexivity].
Qed.

Lemma tag_selects st t :
  t ∈ getEventTags time_of st -> filterByEvent time_of (JStr t) st <> [].
Proof.
  intros H. apply getEventTags_spec in H as (Hne & c & Hc & Ht).
  unfold filterByEvent. cbv zeta.
  destruct t as [|x t]; [congruence|]. cbn [truthy negb].
  intros E.
  assert (c ∈ List.filter (fun contact => bool_decide (get contact "eventTag" = JStr (x :: t)))
                 (getAllContacts time_of st)) as Hin.
  { apply list_elem_of_In, filter_In. split; [apply list_elem_of_In; exact Hc|].
    apply bool_decide_eq_true. exact Ht. }
  rewrite E in Hin. inversion Hin.
Qed.

End TagFacts.


(** * The two copies of cleanText compute the same function *)

(** ** The replacements of runs, as functions on the code units *)

Lemma head_in_ok p s : head_ok (fun c => negb (p c)) s = true -> head_in p s = false.
Proof. destruct s as [|c t]; cbn; [reflexivity|]. apply negb_true_iff. Qed.

Lemma squash_run p r : forall rest,
  r <> [] -> Forall (fun c => p c = true) r -> head_in p rest = false ->
  squash p (r ++ rest) = 32 :: squash p rest.
Proof.
  induction r as [|c r IH]; intros rest Hne Hr Hrest; [congruence|].
  inversion Hr as [|? ? Hc Hr']; subst.
  cbn [app squash]. rewrite Hc.
  destruct r as [|d r].
  - cbn [app]. rewrite Hrest. reflexivity.
  - inversion Hr' as [|? ? Hd _]; subst.
    cbn [app head_in]. rewrite Hd. apply IH; [discriminate|assumption|assumption].
Qed.

Lemma squash2_run p r : forall rest,
  (2 <= length r)%nat -> Forall (fun c => p c = true) r -> head_in p rest = false ->
  squash2 p (r ++ rest) = 32 :: squash2 p rest.
Proof.
  induction r as [|c r IH]; intros rest Hlen Hr Hrest; [simpl in Hlen; lia|].
  inversion Hr as [|? ? Hc Hr']; subst.
  destruct r as [|d r]; [simpl in Hlen; lia|].
  inversion Hr' as [|? ? Hd Hr'']; subst.
  change ((c :: d :: r) ++ rest) with (c :: ((d :: r) ++ rest)).
  cbn [squash2]. change (head_in p ((d :: r) ++ rest)) with (p d).
  rewrite Hc, Hd. cbn [andb].
  destruct r as [|e r].
  - cbn [app squash2]. rewrite Hrest, andb_false_r. reflexivity.
  - rewrite IH; [reflexivity|simpl; lia|assumption|assumption].
Qed.

Lemma squash2_single p c rest :
  head_in p rest = false -> squash2 p (c :: rest) = c :: squash2 p rest.
Proof. intros H. cbn [squash2]. rewrite H, andb_false_r. reflexivity. Qed.

Lemma run_Forall p s : Forall (fun c => p c = true) (run p s).
Proof.
  induction s as [|c t IH]; cbn [run]; [constructor|].
  destruct (p c) eqn:E; [constructor; assumption|constructor].
Qed.

Lemma run_head p c t : p c = false -> run p (c :: t) = [] /\ after_run p (c :: t) = c :: t.
Proof. intros H. cbn [run after_run]. rewrite H. auto. Qed.

(** [s.replace(/[p]+/g, ' ')] *)
Lemma replace_loop_plus p fuel : forall prev rest,
  (length rest < fuel)%nat ->
  replace_loop fuel (Cls p 1 None) [32] prev rest = squash p rest.
Proof.
  induction fuel as [|fuel IH]; intros prev rest Hlen; [lia|].
  cbn [replace_loop]. rewrite match_here_cls_unbounded.
  destruct rest as [|c t]; [reflexivity|].
  destruct (p c) eqn:Hc.
  - assert (1 <=? length (run p (c :: t)))%nat as Hrun
      by (cbn [run]; rewrite Hc; reflexivity).
    apply Is_true_true in Hrun. rewrite Hrun.
    pose proof (after_run_length p (c :: t)) as Hal.
    assert (length (run p (c :: t)) >= 1)%nat as Hge
      by (cbn [run]; rewrite Hc; simpl; lia).
    assert ((length (after_run p (c :: t)) <? length (c :: t))%nat = true) as ->
      by (apply Nat.ltb_lt; lia).
    rewrite IH by (cbn [length] in *; lia).
    rewrite <- (run_after_run p (c :: t)) at 2.
    rewrite squash_run; [reflexivity| | |].
    + cbn [run]. rewrite Hc. discriminate.
    + apply run_Forall.
    + apply head_in_ok, after_run_head.
  - assert ((1 <=? length (run p (c :: t)))%nat = false) as ->
      by (cbn [run]; rewrite Hc; reflexivity).
    rewrite IH by (cbn [length] in *; lia).
    cbn [squash]. rewrite Hc. reflexivity.
Qed.

Lemma replace_all_plus p s : replace_all (Cls p 1 None) [32] s = squash p s.
Proof. unfold replace_all. apply replace_loop_plus. lia. Qed.

(** [s.replace(/[p]{2,}/g, ' ')] *)
Lemma replace_loop_two p fuel : forall prev rest,
  (length rest < fuel)%nat ->
  replace_loop fuel (Cls p 2 None) [32] prev rest = squash2 p rest.
Proof.
  induction fuel as [|fuel IH]; intros prev rest Hlen; [lia|].
  cbn [replace_loop]. rewrite match_here_cls_unbounded.
  destruct rest as [|c t]; [reflexivity|].
  destruct (2 <=? length (run p (c :: t)))%nat eqn:Hrun.
  - apply Nat.leb_le in Hrun.
    pose proof (after_run_length p (c :: t)) as Hal.
    assert ((length (after_run p (c :: t)) <? length (c :: t))%nat = true) as ->
      by (apply Nat.ltb_lt; lia).
    rewrite IH by (cbn [length] in *; lia).
    rewrite <- (run_after_run p (c :: t)) at 2.
    rewrite squash2_run; [reflexivity|assumption| |].
    + apply run_Forall.
    + apply head_in_ok, after_run_head.
  - apply Nat.leb_gt in Hrun.
    rewrite IH by (cbn [length] in *; lia).
    cbn [squash2].
    destruct (p c) eqn:Hc; [|reflexivity].
    destruct t as [|d t]; [reflexivity|].
    cbn [head_in]. destruct (p d) eqn:Hd; [|reflexivity].
    exfalso. cbn [run] in Hrun. rewrite Hc in Hrun. cbn [run] in Hrun.
    rewrite Hd in Hrun. simpl in Hrun. lia.
Qed.

Lemma replace_all_two p s : replace_all (Cls p 2 None) [32] s = squash2 p s.
Proof. unfold replace_all. apply replace_loop_two. lia. Qed.

(** [s.replace(/[p]/g, ' ')] *)
Lemma replace_all_one p s : replace_all (Cls p 1 (Some 1%nat)) [32] s = blank_out p s.
Proof.
  rewrite replace_all_cls1. unfold blank_out.
  induction s as [|c s IH]; [reflexivity|].
  cbn [flat_map List.map]. rewrite IH. destruct (p c); reflexivity.
Qed.

(** ** Heads *)

Lemma head_in_squash2 q p u :
  (forall c, p c = true -> q c = q 32) ->
  head_in q (squash2 p u) = head_in q u.
Proof.
  intros H. destruct u as [|c t]; [reflexivity|].
  cbn [squash2 head_in]. destruct (p c) eqn:Hc; cbn [andb]; [|reflexivity].
  destruct (head_in p t); cbn [head_in]; [|reflexivity].
  symmetry. apply H, Hc.
Qed.

Lemma head_in_squash q p : forall u,
  (forall c, p c = true -> q c = q 32) ->
  head_in q (squash p u) = (head_in q u).
Proof.
  intros u H. induction u as [|c t IH]; [reflexivity|].
  cbn [squash head_in]. destruct (p c) eqn:Hc; [|reflexivity].
  destruct (head_in p t) eqn:Ht.
  - rewrite IH. destruct t as [|d t']; [discriminate|].
    cbn [head_in] in *. rewrite (H c Hc), (H d Ht). reflexivity.
  - cbn [head_in]. symmetry. apply H, Hc.
Qed.

Lemma head_in_blank_out q p u :
  (forall c, p c = true -> q c = q 32) ->
  head_in q (blank_out p u) = head_in q u.
Proof.
  intros H. destruct u as [|c t]; [reflexivity|].
  cbn [blank_out List.map head_in]. destruct (p c) eqn:Hc; [|reflexivity].
  symmetry. apply H, Hc.
Qed.

(** The blank-or-[p] head. *)
Lemma head_ws_squash p u :
  head_in is_space (squash p u) = head_in (fun c => p c || is_space c) u.
Proof.
  induction u as [|c t IH]; [reflexivity|].
  cbn [squash head_in]. destruct (p c) eqn:Hc; [|reflexivity].
  destruct (head_in p t) eqn:Ht; [|reflexivity].
  rewrite IH. destruct t as [|d t']; [discriminate|].
  cbn [head_in] in *. rewrite Ht. reflexivity.
Qed.

Lemma head_ws_blank_out p u :
  head_in is_space (blank_out p u) = head_in (fun c => p c || is_space c) u.
Proof.
  destruct u as [|c t]; [reflexivity|].
  cbn [blank_out List.map head_in]. destruct (p c); reflexivity.
Qed.

(** The normal form of the blanks of a text that begins with a blank
    begins with a blank; another blank in front changes the first code
    unit at most. *)
Lemma squash2_cons_ws x u :
  is_space x = true ->
  squash2 is_space (x :: u)
  = (if head_in is_space u then 32 else x)
    :: (if head_in is_space u then tail (squash2 is_space u) else squash2 is_space u).
Proof.
  intros Hx. cbn [squash2]. rewrite Hx. cbn [andb].
  destruct (head_in is_space u); reflexivity.
Qed.

(** ** Blanking out and the normal form of the blanks *)

(** Replacing each run of a class by one blank, or each of its code
    units by a blank, gives the same text once the blanks are
    normalised. *)
Lemma nrm_squash p a :
  squash2 is_space (squash p a) = squash2 is_space (blank_out p a).
Proof.
  induction a as [|c t IH]; [reflexivity|].
  cbn [squash]. change (blank_out p (c :: t))
    with ((if p c then 32 else c) :: blank_out p t).
  destruct (p c) eqn:Hc.
  - destruct (head_in p t) eqn:Ht.
    + rewrite IH. destruct t as [|d t']; [discriminate|].
      cbn [head_in] in Ht.
      change (blank_out p (d :: t')) with ((if p d then 32 else d) :: blank_out p t').
      rewrite Ht.
      rewrite (squash2_cons_ws 32 (32 :: blank_out p t')) by reflexivity.
      cbn [head_in]. change (is_space 32) with true. cbv iota.
      rewrite (squash2_cons_ws 32 (blank_out p t')) by reflexivity.
      destruct (head_in is_space (blank_out p t')); reflexivity.
    + cbn [squash2]. rewrite head_ws_squash, head_ws_blank_out, IH. reflexivity.
  - cbn [squash2]. rewrite head_ws_squash, head_ws_blank_out, IH. reflexivity.
Qed.

Lemma squash2_ws_head d t :
  is_space d = true ->
  exists w R, squash2 is_space (d :: t) = w :: R /\ is_space w = true.
Proof.
  intros Hd. rewrite squash2_cons_ws by assumption.
  destruct (head_in is_space t); eexists _, _; (split; [reflexivity|]);
    [reflexivity|assumption].
Qed.

(** Normalising the blanks before blanking out changes nothing once
    the blanks are normalised afterwards. *)
Lemma nrm_blank_nrm p a :
  p 32 = false ->
  squash2 is_space (blank_out p (squash2 is_space a))
  = squash2 is_space (blank_out p a).
Proof.
  intros H32.
  assert (forall c, is_space c = true -> is_space (if p c then 32 else c) = true) as Hws
    by (intros c Hc; destruct (p c); [reflexivity|exact Hc]).
  induction a as [|c t IH]; [reflexivity|].
  cbn [squash2].
  destruct (is_space c && head_in is_space t) eqn:E.
  - apply andb_true_iff in E as [Hc Ht].
    destruct t as [|d t']; [discriminate|]. cbn [head_in] in Ht.
    destruct (squash2_ws_head d t' Ht) as (w & R & Ew & Hw).
    rewrite Ew in *. cbn [tail].
    change (blank_out p (32 :: R)) with ((if p 32 then 32 else 32) :: blank_out p R).
    change (blank_out p (w :: R)) with ((if p w then 32 else w) :: blank_out p R) in IH.
    change (blank_out p (c :: d :: t'))
      with ((if p c then 32 else c) :: blank_out p (d :: t')).
    change (blank_out p (d :: t')) with ((if p d then 32 else d) :: blank_out p t') in *.
    rewrite (squash2_cons_ws (if p c then 32 else c)) by auto.
    cbn [head_in]. rewrite (Hws d Ht). rewrite <- IH.
    rewrite (squash2_cons_ws (if p w then 32 else w)) by auto.
    cbn [tail].
    rewrite squash2_cons_ws by (destruct (p 32); reflexivity).
    destruct (head_in is_space (blank_out p R)); destruct (p 32); reflexivity.
  - change (blank_out p (c :: squash2 is_space t))
      with ((if p c then 32 else c) :: blank_out p (squash2 is_space t)).
    change (blank_out p (c :: t)) with ((if p c then 32 else c) :: blank_out p t).
    cbn [squash2]. rewrite IH, !head_ws_blank_out.
    rewrite head_in_squash2; [reflexivity|].
    intros x Hx. rewrite Hx, orb_true_r. change (is_space 32) with true.
    rewrite orb_true_r. reflexivity.
Qed.

Lemma blank_out_blank_out p q a :
  q 32 = false ->
  blank_out q (blank_out p a) = blank_out (fun c => p c || q c) a.
Proof.
  intros H. unfold blank_out. rewrite List.map_map. apply List.map_ext. intros c.
  destruct (p c); cbn [orb]; [rewrite H|]; reflexivity.
Qed.

Lemma blank_out_ext p q a : (forall c, p c = q c) -> blank_out p a = blank_out q a.
Proof. intros H. unfold blank_out. apply List.map_ext. intros c. rewrite H. reflexivity. Qed.

(** ** The runs of hyphens *)

Lemma squash2_squash_comm g d D : forall x,
  g 32 = false -> D 32 = false ->
  (forall c, d c = true -> g c = false /\ D c = true) ->
  (forall c, D c = true -> d c = true \/ g c = true) ->
  squash2 D (squash g x) = squash g (squash2 d x).
Proof.
  intros x Hg32 HD32 Hd HD.
  assert (d 32 = false) as Hd32.
  { destruct (d 32) eqn:E; [|reflexivity]. apply Hd in E as [_ E]. congruence. }
  assert (forall t, head_in D (squash g t) = head_in d t) as HheadD.
  { induction t as [|h t IH]; [reflexivity|].
    cbn [squash head_in]. destruct (g h) eqn:Hgh.
    - assert (d h = false) as ->.
      { destruct (d h) eqn:E; [|reflexivity]. apply Hd in E as [E _]. congruence. }
      destruct (head_in g t) eqn:Ht.
      + rewrite IH. destruct t as [|h' t']; [discriminate|]. cbn [head_in] in *.
        destruct (d h') eqn:E; [|reflexivity]. apply Hd in E as [E _]. congruence.
      + cbn [head_in]. exact HD32.
    - cbn [head_in]. destruct (d h) eqn:Hdh.
      + apply Hd in Hdh as [_ E]. exact E.
      + destruct (D h) eqn:HDh; [|reflexivity].
        apply HD in HDh as [E|E]; congruence. }
  induction x as [|c t IH]; [reflexivity|].
  destruct (g c) eqn:Hgc.
  - assert (d c = false) as Hdc.
    { destruct (d c) eqn:E; [|reflexivity]. apply Hd in E as [E _]. congruence. }
    cbn [squash squash2]. rewrite Hgc, Hdc. cbn [andb squash]. rewrite Hgc.
    rewrite head_in_squash2.
    2:{ intros y Hy. apply Hd in Hy as [Hy _]. rewrite Hy, Hg32. reflexivity. }
    destruct (head_in g t); [exact IH|].
    cbn [squash2]. rewrite HD32. cbn [andb]. rewrite IH. reflexivity.
  - cbn [squash]. rewrite Hgc. cbn [squash2]. rewrite HheadD.
    destruct (d c) eqn:Hdc.
    + destruct (Hd c Hdc) as [_ HDc]. rewrite HDc. cbn [andb].
      destruct (head_in d t) eqn:Ht.
      * cbn [squash]. rewrite Hg32. rewrite IH.
        destruct t as [|h t']; [discriminate|]. cbn [head_in] in Ht.
        cbn [squash2]. rewrite Ht. cbn [andb].
        destruct (head_in d t'); cbn [squash tail].
        -- rewrite Hg32. reflexivity.
        -- destruct (Hd h Ht) as [Hgh _]. rewrite Hgh. reflexivity.
      * cbn [squash]. rewrite Hgc, IH. reflexivity.
    + assert (D c = false) as HDc.
      { destruct (D c) eqn:E; [|reflexivity]. apply HD in E as [E|E]; congruence. }
      rewrite HDc. cbn [andb squash]. rewrite Hgc, IH. reflexivity.
Qed.

(** ** The pipeline *)

Lemma junk_of v c : garbage v c || non_ascii c || final_drop c = junk c.
Proof.
  unfold junk, garbage, non_ascii, final_drop, final_keep, is_word, is_alnum, is_upper,
    is_lower, is_digit, is_space, is_ascii, in_range, is_char, one_of, existsb.
  destruct v; apply eq_true_iff_eq; bool_to_prop; lia.
Qed.

(** What the steps after the edges make of a text, in either copy:
    the runs of two or more hyphens and the junk become blanks, then
    the blanks are normalised. *)
Lemma clean_steps v s2 :
  replace_all re_spaces [32]
    (replace_all re_final [32]
       (replace_all re_non_ascii [32]
          (replace_all re_spaces [32]
             (replace_all re_dashes [32]
                (replace_all (re_garbage v) [32] s2)))))
  = squash2 is_space (blank_out junk (squash2 (is_char 45) s2)).
Proof.
  unfold re_spaces, re_final, re_non_ascii, re_dashes, re_garbage, cls1, plus.
  rewrite !replace_all_two, replace_all_one, !replace_all_plus.
  rewrite (squash2_squash_comm (garbage v) (is_char 45) dash_or_underscore).
  2:{ destruct v; reflexivity. }
  2:{ reflexivity. }
  2:{ intros c Hc. apply N.eqb_eq in Hc. subst c. destruct v; split; reflexivity. }
  2:{ intros c Hc. unfold dash_or_underscore, one_of, existsb in Hc.
      rewrite orb_false_r in Hc. apply orb_true_iff in Hc as [Hc|Hc].
      - left. exact Hc.
      - right. apply N.eqb_eq in Hc. subst c. destruct v; reflexivity. }
  set (X := squash2 (is_char 45) s2).
  (* the blanks of the innermost normal form *)
  rewrite <- (nrm_blank_nrm final_drop (squash non_ascii _)) by reflexivity.
  rewrite nrm_squash.
  rewrite (nrm_blank_nrm final_drop) by reflexivity.
  rewrite blank_out_blank_out by reflexivity.
  rewrite (nrm_blank_nrm (fun c => non_ascii c || final_drop c)) by reflexivity.
  rewrite <- (nrm_blank_nrm (fun c => non_ascii c || final_drop c) (squash (garbage v) X))
    by reflexivity.
  rewrite nrm_squash.
  rewrite (nrm_blank_nrm (fun c => non_ascii c || final_drop c)) by reflexivity.
  rewrite blank_out_blank_out by reflexivity.
  f_equal. apply blank_out_ext. intros c. rewrite orb_assoc. apply junk_of.
Qed.

Lemma cleanText_steps v text :
  cleanText v text
  = match text with
    | [] => []
    | _ => trim (squash2 is_space
                   (blank_out junk
                      (squash2 (is_char 45)
                         (replace_all re_edges [] (replace_all re_dash [45] text)))))
    end.
Proof.
  destruct text as [|c0 t0]; [reflexivity|].
  unfold cleanText. change (str " ") with [32]. change (str "-") with [45].
  rewrite clean_steps. reflexivity.
Qed.

(** ** Lengths *)

Lemma replace_loop_remove_length r fuel : forall prev rest,
  (length (replace_loop fuel r [] prev rest) <= length rest)%nat.
Proof.
  induction fuel as [|fuel IH]; intros prev rest; cbn [replace_loop]; [lia|].
  destruct (match_here r prev rest) as [[ms rest']|] eqn:E.
  - destruct (match_here_sound _ _ _ _ _ E) as (cs & Heq & _).
    destruct (length rest' <? length rest)%nat eqn:El.
    + apply Nat.ltb_lt in El. cbn [app].
      specialize (IH (last_cu (take (length rest - length rest') rest)) rest'). lia.
    + destruct rest as [|c t]; [simpl; lia|].
      cbn [app length]. specialize (IH (Some c) t). lia.
  - destruct rest as [|c t]; [simpl; lia|].
    cbn [length]. specialize (IH (Some c) t). lia.
Qed.

Lemma squash2_length p s : (length (squash2 p s) <= length s)%nat.
Proof.
  induction s as [|c t IH]; [simpl; lia|].
  cbn [squash2]. destruct (p c && head_in p t); cbn [length].
  - destruct (squash2 p t); cbn [tail length] in *; lia.
  - lia.
Qed.

Lemma trimStart_length s : (length (trimStart s) <= length s)%nat.
Proof.
  induction s as [|c t IH]; [simpl; lia|].
  cbn [trimStart]. destruct (is_space c); cbn [length]; lia.
Qed.

Lemma trimEnd_length s : (length (trimEnd s) <= length s)%nat.
Proof.
  induction s as [|c t IH]; [simpl; lia|].
  cbn [trimEnd]. destruct (trimEnd t); [destruct (is_space c)|]; cbn [length] in *; lia.
Qed.

Lemma cleanText_length v s : (length (cleanText v s) <= length s)%nat.
Proof.
  rewrite cleanText_steps. destruct s as [|c0 t0]; [simpl; lia|].
  set (s := c0 :: t0).
  unfold trim.
  pose proof (trimEnd_length (trimStart (squash2 is_space (blank_out junk
                (squash2 (is_char 45)
                   (replace_all re_edges [] (replace_all re_dash [45] s))))))) as H1.
  pose proof (trimStart_length (squash2 is_space (blank_out junk
                (squash2 (is_char 45)
                   (replace_all re_edges [] (replace_all re_dash [45] s)))))) as H2.
  pose proof (squash2_length is_space (blank_out junk
                (squash2 (is_char 45)
                   (replace_all re_edges [] (replace_all re_dash [45] s))))) as H3.
  unfold blank_out in H3 at 2. rewrite length_map in H3.
  pose proof (squash2_length (is_char 45)
                (replace_all re_edges [] (replace_all re_dash [45] s))) as H4.
  pose proof (replace_loop_remove_length re_edges
                (S (length (replace_all re_dash [45] s))) None
                (replace_all re_dash [45] s)) as H5.
  fold (replace_all re_edges [] (replace_all re_dash [45] s)) in H5.
  assert (length (replace_all re_dash [45] s) = length s) as H6.
  { unfold re_dash, cls1. rewrite replace_all_cls1.
    clear. induction s as [|c s IH]; [reflexivity|].
    cbn [flat_map]. rewrite length_app, IH. destruct (is_dash c); reflexivity. }
  lia.
Qed.


(** * The name that comes back from the codec *)

(** ** The words of a trimmed text *)

Lemma run_nil_head p s : head_in p s = false -> run p s = [] /\ after_run p s = s.
Proof.
  destruct s as [|c t]; cbn [head_in run after_run]; [auto|].
  intros ->. auto.
Qed.

Lemma last_ok_app_r p a b : b <> [] -> last_ok p (a ++ b) = last_ok p b.
Proof.
  intros Hb. unfold last_ok. destruct b as [|x b]; [congruence|].
  rewrite last_app_cons. reflexivity.
Qed.

(** A text without blank at either end is made of words, non-empty and
    without blank, with non-empty runs of blanks between them. *)
Lemma words_of n : forall s,
  (length s <= n)%nat -> s <> [] ->
  head_ok non_space s = true -> last_ok non_space s = true ->
  exists l rest,
    s = weave l rest
    /\ l <> [] /\ Forall (fun c => is_space c = false) l
    /\ Forall (fun sl => fst sl <> [] /\ Forall (fun c => is_space c = true) (fst sl)
                         /\ snd sl <> [] /\ Forall (fun c => is_space c = false) (snd sl))
         rest.
Proof.
  induction n as [|n IH]; intros s Hlen Hne Hh Hl.
  { destruct s; [congruence|simpl in Hlen; lia]. }
  remember (run non_space s) as l eqn:El.
  remember (after_run non_space s) as r eqn:Er.
  assert (s = l ++ r) as Hs by (subst l r; symmetry; apply run_after_run).
  assert (Forall (fun c => is_space c = false) l) as Hlw.
  { subst l. eapply Forall_impl; [apply run_Forall|]. intros c Hc. cbn beta in Hc.
    unfold non_space in Hc. apply negb_true_iff in Hc. exact Hc. }
  assert (l <> []) as Hlne.
  { subst l. destruct s as [|c t]; [congruence|].
    cbn [head_ok] in Hh. cbn [run]. rewrite Hh. discriminate. }
  destruct r as [|x r'].
  { exists l, []. rewrite app_nil_r in Hs. cbn [weave]. auto. }
  assert (is_space x = true) as Hx.
  { pose proof (after_run_head non_space s) as H. rewrite <- Er in H.
    cbn [head_ok] in H. unfold non_space in H. rewrite negb_involutive in H. exact H. }
  remember (run is_space (x :: r')) as sep eqn:Esep.
  remember (after_run is_space (x :: r')) as s' eqn:Es'.
  assert (x :: r' = sep ++ s') as Hr by (subst sep s'; symmetry; apply run_after_run).
  assert (sep <> []) as Hsep by (subst sep; cbn [run]; rewrite Hx; discriminate).
  assert (Forall (fun c => is_space c = true) sep) as Hsepw by (subst sep; apply run_Forall).
  assert (head_ok non_space s' = true) as Hh' by (subst s'; apply after_run_head).
  assert (s' <> []) as Hs'ne.
  { intros E. rewrite Hs, Hr, E, app_nil_r in Hl.
    rewrite last_ok_app_r in Hl by assumption.
    unfold last_ok in Hl. destruct (last sep) as [y|] eqn:Ey.
    - apply last_Some in Ey as (sep' & Esep'). rewrite Esep' in Hsepw.
      apply Forall_app in Hsepw as [_ Hy]. inversion Hy as [|? ? Hy' _]; subst.
      unfold non_space in Hl. rewrite Hy' in Hl. discriminate.
    - apply last_None in Ey. congruence. }
  assert (last_ok non_space s' = true) as Hl'.
  { rewrite Hs, Hr in Hl. rewrite !last_ok_app_r in Hl; auto.
    destruct sep; [congruence|discriminate]. }
  assert (length s' <= n)%nat as Hlen'.
  { assert (length s = length l + (length sep + length s'))%nat as E
      by (rewrite Hs, Hr, !length_app; reflexivity).
    destruct l; [congruence|]. destruct sep; [congruence|]. simpl in E. lia. }
  destruct (IH s' Hlen' Hs'ne Hh' Hl') as (l2 & rest2 & E2 & Hl2 & Hl2w & Hrest2).
  exists l, ((sep, l2) :: rest2). split; [|split; [exact Hlne|split; [exact Hlw|]]].
  - cbn [weave]. rewrite <- E2, <- Hr. exact Hs.
  - constructor; [|exact Hrest2]. cbn [fst snd]. auto.
Qed.

Lemma weave_Forall (Q : N -> Prop) rest : forall l,
  Forall Q (weave l rest) -> Forall Q l /\ Forall (fun sl => Forall Q (snd sl)) rest.
Proof.
  induction rest as [|[sep l2] rest IH]; intros l H; cbn [weave] in H.
  - auto.
  - apply Forall_app in H as [H1 H2]. apply Forall_app in H2 as [_ H2].
    destruct (IH l2 H2) as [H3 H4]. split; [exact H1|]. constructor; auto.
Qed.

(** The words [name.trim().split(/\s+/)] gives. *)
Lemma split_words (Q : N -> Prop) s :
  Forall Q s ->
  (trim s = [] /\ split_re re_ws (trim s) = [[]])
  \/ (trim s <> []
      /\ exists l rest,
           trim s = weave l rest /\ split_re re_ws (trim s) = l :: List.map snd rest
           /\ Forall (fun w => w <> [] /\ Forall (fun c => is_space c = false) w
                               /\ Forall Q w) (l :: List.map snd rest)).
Proof.
  intros HQ. destruct (trim s) as [|c t] eqn:E; [left; auto|]. right.
  split; [discriminate|]. rewrite <- E.
  assert (Forall Q (trim s)) as HQt by (apply trim_Forall; exact HQ).
  destruct (words_of (length (trim s)) (trim s)) as (l & rest & Ew & Hl & Hlw & Hrest).
  { lia. } { rewrite E. discriminate. } { apply trim_head. } { apply trim_last. }
  exists l, rest. split; [exact Ew|].
  rewrite Ew in HQt. apply weave_Forall in HQt as [HQl HQrest].
  split.
  - rewrite Ew. unfold re_ws. apply split_re_weave; auto.
  - constructor; [auto|].
    apply Forall_forall. intros w Hw.
    apply list_elem_of_In, in_map_iff in Hw as ([sep w'] & <- & Hin). cbn [snd].
    rewrite Forall_forall in Hrest, HQrest.
    apply list_elem_of_In in Hin.
    destruct (Hrest _ Hin) as (_ & _ & H3 & H4). cbn [snd] in *.
    split; [exact H3|]. split; [exact H4|]. apply (HQrest _ Hin).
Qed.

Lemma join_Forall (Q : N -> Prop) sep parts :
  Forall Q sep -> Forall (Forall Q) parts -> Forall Q (join sep parts).
Proof.
  intros Hsep H. induction H as [|p ps Hp Hps IH]; [constructor|].
  destruct ps as [|q ps]; [exact Hp|].
  rewrite join_cons by discriminate.
  apply Forall_app; split; [exact Hp|]. apply Forall_app; split; [exact Hsep|exact IH].
Qed.

(** The value of the structured line of a name of one word, or of
    blanks only. *)
Lemma structured_single_trim name :
  Forall (fun c => simple_cu c = true) name ->
  structured_name (name ++ [59; 59; 59]) = trim name.
Proof.
  intros Hs. unfold structured_name. cbv zeta.
  rewrite split_char_app by (apply simple_no_semicolon; assumption).
  cbn [split_char N.eqb Pos.eqb length Nat.leb].
  change (elem [name; []; []; []] 1) with (JStr []).
  change (elem [name; []; []; []] 0) with (JStr name).
  rewrite (unescape_simple name) by (apply Forall_forallb; assumption).
  reflexivity.
Qed.

Lemma simple_value_dot_tail s tail :
  Forall (fun c => simple_cu c = true) s -> Forall (fun c => dot c = true) tail ->
  Forall (fun c => dot c = true) (s ++ tail).
Proof.
  intros Hs Ht. apply Forall_app; split; [|exact Ht].
  eapply Forall_impl; [exact Hs|]. intros c Hc. apply simple_cu_facts in Hc. tauto.
Qed.

(** The structured line of a simple name is read back as the words of
    the name joined by single spaces. *)
Lemma n_line_words name :
  simple_value name = true -> name <> [] ->
  exists v, reads (n_line name) "N" v
            /\ structured_name v = join [32] (split_re re_ws (trim name)).
Proof.
  intros Hs Hn. pose proof (forallb_Forall _ _ Hs) as Hs'.
  assert (reads (str "N" ++ 58 :: name ++ [59; 59; 59]) "N" (name ++ [59; 59; 59])) as Hone.
  { apply read_line_value; [reflexivity| |].
    - destruct name; discriminate.
    - apply simple_value_dot_tail; [assumption|repeat constructor]. }
  unfold n_line. cbv zeta.
  destruct (split_words (fun c => simple_cu c = true) name Hs')
    as [[Et EW] | (Hne & l & rest & Ew & EW & Hall)].
  - rewrite EW. cbn [length Nat.ltb Nat.leb join].
    rewrite escape_simple by assumption.
    exists (name ++ [59; 59; 59]). split; [exact Hone|].
    rewrite structured_single_trim by assumption. exact Et.
  - rewrite EW. destruct rest as [|[sep0 w0] rest'].
    + cbn [List.map length Nat.ltb Nat.leb join].
      rewrite escape_simple by assumption.
      exists (name ++ [59; 59; 59]). split; [exact Hone|].
      rewrite structured_single_trim by assumption. rewrite Ew. reflexivity.
    + set (W := l :: List.map snd ((sep0, w0) :: rest')) in *.
      assert ((1 <? length W)%nat = true) as -> by reflexivity.
      destruct (exists_last (l := W)) as (init & lastw & HW); [discriminate|].
      assert (init <> []) as Hi.
      { intros ->. unfold W in HW. cbn [List.map app] in HW. discriminate. }
      rewrite HW in *. rewrite length_app. cbn [length].
      replace (length init + 1 - 1)%nat with (length init) by lia.
      rewrite take_app_length.
      assert (elem (init ++ [lastw]) (length init) = JStr lastw) as ->.
      { unfold elem. rewrite list_lookup_middle; reflexivity. }
      change (str " ") with [32].
      apply Forall_app in Hall as [Hinit Hlast].
      inversion Hlast as [|? ? (Hlne & Hlw & Hls) _]; subst.
      assert (Forall (fun c => simple_cu c = true) (join [32] init)) as Hji.
      { apply join_Forall; [repeat constructor|].
        eapply Forall_impl; [exact Hinit|]. intros w (_ & _ & Hw). exact Hw. }
      rewrite !escape_simple by (apply Forall_forallb; assumption).
      exists (lastw ++ 59 :: join [32] init ++ [59; 59; 59]). split.
      * change (str "N:" ++ lastw ++ str ";" ++ join [32] init ++ str ";;;")
          with (str "N" ++ 58 :: lastw ++ 59 :: join [32] init ++ [59; 59; 59]).
        apply read_line_value; [reflexivity| |].
        -- destruct lastw; discriminate.
        -- apply simple_value_dot_tail; [assumption|].
           constructor; [reflexivity|].
           apply simple_value_dot_tail; [assumption|repeat constructor].
      * rewrite structured_several by assumption.
        change (join [32] init ++ 32 :: lastw) with (join [32] init ++ [32] ++ lastw).
        rewrite <- join_snoc by assumption.
        apply trim_id.
        -- destruct Hinit as [|w1 init' (Hw1 & Hw1s & _) _]; [congruence|].
           cbn [app]. rewrite join_cons by (destruct init'; discriminate).
           destruct w1 as [|c w1']; [congruence|].
           inversion Hw1s as [|? ? Hc _]; subst.
           cbn [app head_ok]. unfold non_space. rewrite Hc. reflexivity.
        -- rewrite join_snoc by assumption.
           rewrite app_assoc, last_ok_app_r by assumption.
           unfold last_ok. destruct (last lastw) as [y|] eqn:Ey; [|reflexivity].
           apply last_Some in Ey as (l'' & ->).
           apply Forall_app in Hlw as [_ Hy]. inversion Hy as [|? ? Hy' _]; subst.
           unfold non_space. rewrite Hy'. reflexivity.
Qed.

Section AnyName.
Variables name phone email company eventTag : jstr.

Lemma any_name c :
  simple_value name = true ->
  parse_lines emptyRecord (vcard_lines name phone email company eventTag) = Ok c ->
  get c "name" = JStr (join [32] (split_re re_ws (trim name))).
Proof using Type.
  intros Hs H. rewrite any_lines in H.
  destruct (fixed_lines_target "name") as (Hb & Hv & He).
  destruct (decide (name = [])) as [En|Hn].
  - subst name. cbn [when_set] in H.
    rewrite (parse_lines_other "name" _ _ _ H); [reflexivity|].
    repeat (apply Forall_app; split); repeat constructor; auto.
    + apply tel_lines_target; discriminate.
    + apply email_lines_target; discriminate.
    + apply org_lines_target; discriminate.
    + apply tag_lines_target; discriminate.
  - destruct (n_line_words name Hs Hn) as (v & Hr & Hv').
    assert (when_set name [fn_line name; n_line name] = [fn_line name; n_line name]) as Hw
      by (destruct name; [congruence|reflexivity]).
    rewrite Hw in H. clear Hw.
    change ([str "BEGIN:VCARD"; str "VERSION:3.0"] ++ [fn_line name; n_line name]
            ++ when_set phone [tel_line phone] ++ when_set email [email_line email]
            ++ when_set company [org_line company]
            ++ when_set eventTag [tag_line eventTag] ++ [str "END:VCARD"])
      with ([str "BEGIN:VCARD"; str "VERSION:3.0"; fn_line name]
            ++ n_line name ::
               (when_set phone [tel_line phone] ++ when_set email [email_line email]
                ++ when_set company [org_line company]
                ++ when_set eventTag [tag_line eventTag] ++ [str "END:VCARD"])) in H.
    eapply (last_line_wins "name" _ emptyRecord); [|exact H|].
    + intros c1. rewrite (parse_line_reads _ _ _ _ Hr).
      rewrite assign_N by (eapply reads_nonempty; eauto).
      rewrite Hv'. reflexivity.
    + repeat (apply Forall_app; split); repeat constructor; auto.
      * apply tel_lines_target; discriminate.
      * apply email_lines_target; discriminate.
      * apply org_lines_target; discriminate.
      * apply tag_lines_target; discriminate.
Qed.

End AnyName.

(** ** After one round trip *)

Lemma no_pair_word p w : forall rest,
  Forall (fun c => p c = false) w -> no_pair p rest = true -> no_pair p (w ++ rest) = true.
Proof.
  induction w as [|c w IH]; intros rest Hw Hr; [exact Hr|].
  inversion Hw as [|? ? Hc Hw']; subst. cbn [app].
  apply no_pair_cons; [apply IH; assumption|]. left. exact Hc.
Qed.

Lemma head_ok_join_word ws : forall w,
  w <> [] -> Forall (fun c => is_space c = false) w ->
  head_ok (fun c => negb (is_space c)) (join [32] (w :: ws)) = true.
Proof.
  intros w Hne Hw. destruct w as [|c w']; [congruence|].
  inversion Hw as [|? ? Hc _]; subst.
  destruct ws; cbn [join app head_ok]; rewrite Hc; reflexivity.
Qed.

(** Words joined by single spaces make a name in the form the round
    trip keeps. *)
Lemma words_spaced (Q : N -> Prop) W :
  W <> [] ->
  Forall (fun w => w <> [] /\ Forall (fun c => is_space c = false) w /\ Forall Q w) W ->
  Forall (fun c => negb (is_space c) || (c =? 32) = true) (join [32] W)
  /\ no_pair is_space (join [32] W) = true
  /\ last_ok non_space (join [32] W) = true.
Proof.
  intros Hne H. induction H as [|w ws (Hw1 & Hw2 & _) Hws IH]; [congruence|].
  destruct ws as [|w2 ws'].
  - cbn [join]. split; [|split].
    + eapply Forall_impl; [exact Hw2|]. intros c Hc. cbn beta in Hc. rewrite Hc. reflexivity.
    + rewrite <- (app_nil_r w). apply no_pair_word; [assumption|reflexivity].
    + unfold last_ok. destruct (last w) as [y|] eqn:Ey; [|reflexivity].
      apply last_Some in Ey as (l'' & ->).
      apply Forall_app in Hw2 as [_ Hy]. inversion Hy as [|? ? Hy' _]; subst.
      unfold non_space. rewrite Hy'. reflexivity.
  - destruct (IH ltac:(discriminate)) as (I1 & I2 & I3).
    rewrite join_cons by discriminate. split; [|split].
    + apply Forall_app; split.
      * eapply Forall_impl; [exact Hw2|]. intros c Hc. cbn beta in Hc. rewrite Hc. reflexivity.
      * apply Forall_app; split; [repeat constructor|exact I1].
    + apply no_pair_word; [assumption|]. cbn [app].
      apply no_pair_cons; [exact I2|]. right.
      inversion Hws as [|? ? (H1 & H2 & _) _]; subst.
      apply head_ok_join_word; assumption.
    + rewrite app_assoc. rewrite last_ok_app_r; [exact I3|].
      inversion Hws as [|? ? (H1 & _) _]; subst.
      destruct w2; [congruence|]. destruct ws'; discriminate.
Qed.

Lemma normal_name name :
  simple_value name = true ->
  simple_value (join [32] (split_re re_ws (trim name))) = true
  /\ spaced_name (join [32] (split_re re_ws (trim name))) = true.
Proof.
  intros Hs. pose proof (forallb_Forall _ _ Hs) as Hs'.
  destruct (split_words (fun c => simple_cu c = true) name Hs')
    as [[Et EW] | (Hne & l & rest & Ew & EW & Hall)].
  - rewrite EW. split; reflexivity.
  - rewrite EW.
    destruct (words_spaced _ (l :: List.map snd rest) ltac:(discriminate) Hall)
      as (H1 & H2 & H3).
    split.
    + apply Forall_forallb. apply join_Forall; [repeat constructor|].
      eapply Forall_impl; [exact Hall|]. intros w (_ & _ & Hw). exact Hw.
    + unfold spaced_name. rewrite (Forall_forallb _ _ H1), H2, H3.
      inversion Hall as [|? ? (Hl1 & Hl2 & _) _]; subst.
      pose proof (head_ok_join_word (List.map snd rest) l Hl1 Hl2) as H4.
      unfold non_space. rewrite H4. reflexivity.
Qed.

Lemma simple_line_safe s : simple_value s = true -> line_safe s = true.
Proof.
  intros H. apply forallb_Forall in H. apply Forall_forallb.
  eapply Forall_impl; [exact H|]. intros c Hc. cbn beta in Hc.
  unfold simple_cu, line_safe_cu, is_ascii, one_of, existsb in *.
  bool_to_prop. lia.
Qed.

Lemma simple_no_backslash s : simple_value s = true -> no_backslash s = true.
Proof.
  intros H. apply forallb_Forall in H. apply Forall_forallb.
  eapply Forall_impl; [exact H|]. intros c Hc. cbn beta in Hc.
  unfold simple_cu, is_ascii, one_of, existsb in *.
  bool_to_prop. lia.
Qed.

Lemma clean_phone_plain phone :
  simple_value phone = true ->
  simple_value (replace_all re_phone_clean [] phone) = true
  /\ plain_phone (replace_all re_phone_clean [] phone) = true.
Proof.
  intros H. apply forallb_Forall in H. split.
  - apply Forall_forallb. apply replace_all_Forall; [constructor|exact H].
  - apply Forall_forallb. unfold re_phone_clean, cls1.
    pose proof (replace_all_cls_gone (fun c => is_space c || one_of [45; 40; 41] c)
                  (Some 1%nat) [] phone eq_refl (List.Forall_nil _)) as Hg.
    eapply Forall_impl; [exact Hg|]. intros c Hc. cbn beta in Hc.
    rewrite Hc. reflexivity.
Qed.


(** * Further properties of the codec *)

(** X1.  escape never lets a line break through: whatever the value,
    the escaped string holds no CR and no LF (an LF becomes backslash
    n, a CR is dropped). *)
Theorem escape_keeps_line (value : jsval) :
  Forall (fun c => one_of [13; 10] c = false) (escape value).
Proof. apply escape_no_break. Qed.

(** X2.  unescape undoes escape on every string without backslash and
    without CR: semicolons, commas and line feeds come back. *)
Theorem unescape_undoes_escape (s : jstr) :
  portable s = true -> unescape (JStr (escape (JStr s))) = s.
Proof. intros H. apply unescape_escape_portable, portable_Forall, H. Qed.

Lemma unescape_undoes_escape_witness :
  unescape (JStr (escape (JStr (str "Smith, Jones; Partners" ++ [10] ++ str "LLC"))))
  = str "Smith, Jones; Partners" ++ [10] ++ str "LLC".
Proof.
  apply (unescape_undoes_escape (str "Smith, Jones; Partners" ++ [10] ++ str "LLC")).
  reflexivity.
Defined.

Lemma when_set_known value lines :
  Forall (fun l => known_line l = true) lines ->
  Forall (fun l => known_line l = true) (when_set value lines).
Proof. intros H. destruct value; [constructor|exact H]. Qed.

Lemma known_prefix p w : In p line_prefixes -> known_line (p ++ w) = true.
Proof.
  intros H. unfold known_line. apply existsb_exists. exists p. split; [exact H|].
  apply startsWith_app.
Qed.

Lemma known_lines name phone email company eventTag :
  Forall (fun l => known_line l = true)
    (vcard_lines name phone email company eventTag)
  /\ (3 <= length (vcard_lines name phone email company eventTag) <= 9)%nat.
Proof.
  unfold vcard_lines. split.
  - apply Forall_app; split; [repeat constructor|].
    apply Forall_app; split.
    { apply when_set_known. constructor; [|constructor; [|constructor]].
      - apply known_prefix. cbn. tauto.
      - destruct (n_line_shape name) as (w & -> & _).
        change (str "N" ++ 58 :: w) with (str "N:" ++ w).
        apply known_prefix. cbn. tauto. }
    apply Forall_app; split.
    { apply when_set_known. constructor; [|constructor].
      apply known_prefix. cbn. tauto. }
    apply Forall_app; split.
    { apply when_set_known. constructor; [|constructor].
      apply known_prefix. cbn. tauto. }
    apply Forall_app; split.
    { apply when_set_known. constructor; [|constructor].
      apply known_prefix. cbn. tauto. }
    apply Forall_app; split.
    { apply when_set_known. constructor; [|constructor].
      apply known_prefix. cbn. tauto. }
    repeat constructor.
  - rewrite !length_app. cbn [length].
    assert (forall (value : jstr) (lines : list jstr),
              (length (when_set value lines) <= length lines)%nat) as Hw
      by (intros [|? ?] ?; cbn [when_set length]; lia).
    pose proof (Hw name [fn_line name; n_line name]) as H1.
    pose proof (Hw phone [tel_line phone]) as H2.
    pose proof (Hw email [email_line email]) as H3.
    pose proof (Hw company [org_line company]) as H4.
    pose proof (Hw eventTag [tag_line eventTag]) as H5.
    cbn [length] in H1, H2, H3, H4, H5. lia.
Qed.

(** X3.  No value of a contact can add a line to its vCard: for every
    contact object, splitting the generated text at its line breaks (as
    parse does) gives between three and nine lines, each beginning
    with one of the prefixes generate writes. *)
Theorem generate_lines_known (contact : gmap string jsval) :
  exists text,
    generate contact = Ok text
    /\ Forall (fun l => known_line l = true) (split_re re_crlf text)
    /\ (3 <= length (split_re re_crlf text) <= 9)%nat.
Proof.
  rewrite generate_any. eexists. split; [reflexivity|].
  rewrite split_generated. apply known_lines.
Qed.

(** X4.  An email, a company or an event tag without backslash, CR,
    U+2028 and U+2029 survives generate followed by parse exactly,
    whatever the other properties of the contact hold (commas,
    semicolons, line feeds and non-ASCII characters included). *)
Theorem generate_parse_field (contact : gmap string jsval) (k : string) :
  k = "email"%string \/ k = "company"%string \/ k = "eventTag"%string ->
  line_safe (text_of (get contact k)) = true ->
  exists text c,
    generate contact = Ok text /\ parse text = Ok c
    /\ get c k = JStr (text_of (get contact k)).
Proof.
  intros Hk Hsafe. rewrite generate_any.
  set (name := text_of (get contact "name")).
  set (phone := text_of (get contact "phone")).
  set (email := text_of (get contact "email")).
  set (company := text_of (get contact "company")).
  set (eventTag := text_of (get contact "eventTag")).
  destruct (parse_lines_shape (vcard_lines name phone email company eventTag)
              emptyRecord emptyRecord_shape) as (c & Hc & _).
  exists (join CRLF (vcard_lines name phone email company eventTag)), c.
  split; [reflexivity|]. rewrite parse_generated. split; [exact Hc|].
  destruct Hk as [-> | [-> | ->]].
  - eapply any_email; eauto.
  - eapply any_company; eauto.
  - eapply any_eventTag; eauto.
Qed.

Lemma generate_parse_field_witness :
  exists text c,
    generate (record (str "Ann Lee") (str "555 0100") (str "ann@x.org")
                (str "Smith, Jones; Partners" ++ [10] ++ str "LLC") (str "expo")) = Ok text
    /\ parse text = Ok c
    /\ get c "company"
       = JStr (text_of (get (record (str "Ann Lee") (str "555 0100") (str "ann@x.org")
                               (str "Smith, Jones; Partners" ++ [10] ++ str "LLC")
                               (str "expo")) "company")).
Proof.
  apply (generate_parse_field
           (record (str "Ann Lee") (str "555 0100") (str "ann@x.org")
              (str "Smith, Jones; Partners" ++ [10] ++ str "LLC") (str "expo"))
           "company").
  - right. left. reflexivity.
  - reflexivity.
Defined.

(** X5.  The phone that comes back from generate followed by parse is
    the phone without its blanks, hyphens and parentheses, for every
    phone without backslash and whatever the other properties hold. *)
Theorem generate_parse_phone (contact : gmap string jsval) :
  no_backslash (text_of (get contact "phone")) = true ->
  exists text c,
    generate contact = Ok text /\ parse text = Ok c
    /\ get c "phone"
       = JStr (replace_all re_phone_clean [] (text_of (get contact "phone"))).
Proof.
  intros Hsafe. rewrite generate_any.
  set (name := text_of (get contact "name")).
  set (phone := text_of (get contact "phone")).
  set (email := text_of (get contact "email")).
  set (company := text_of (get contact "company")).
  set (eventTag := text_of (get contact "eventTag")).
  destruct (parse_lines_shape (vcard_lines name phone email company eventTag)
              emptyRecord emptyRecord_shape) as (c & Hc & _).
  exists (join CRLF (vcard_lines name phone email company eventTag)), c.
  split; [reflexivity|]. rewrite parse_generated. split; [exact Hc|].
  eapply any_phone; eauto.
Qed.

Lemma generate_parse_phone_witness :
  exists text c,
    generate (record (str "Ann Lee") (str "+1 (415) 555-2671") [] [] []) = Ok text
    /\ parse text = Ok c
    /\ get c "phone"
       = JStr (replace_all re_phone_clean []
                 (text_of (get (record (str "Ann Lee") (str "+1 (415) 555-2671") [] [] [])
                             "phone"))).
Proof.
  apply (generate_parse_phone (record (str "Ann Lee") (str "+1 (415) 555-2671") [] [] [])).
  reflexivity.
Defined.

(** X6.  The name that comes back from generate followed by parse is
    the name with its ends trimmed and every run of blanks replaced by
    one space, for every name of simple ASCII values (no backslash,
    semicolon, comma, CR or LF) and whatever the other properties
    hold. *)
Theorem generate_parse_name (contact : gmap string jsval) :
  simple_value (text_of (get contact "name")) = true ->
  exists text c,
    generate contact = Ok text /\ parse text = Ok c
    /\ get c "name"
       = JStr (join [32] (split_re re_ws (trim (text_of (get contact "name"))))).
Proof.
  intros Hs. rewrite generate_any.
  set (name := text_of (get contact "name")) in *.
  set (phone := text_of (get contact "phone")).
  set (email := text_of (get contact "email")).
  set (company := text_of (get contact "company")).
  set (eventTag := text_of (get contact "eventTag")).
  destruct (parse_lines_shape (vcard_lines name phone email company eventTag)
              emptyRecord emptyRecord_shape) as (c & Hc & _).
  exists (join CRLF (vcard_lines name phone email company eventTag)), c.
  split; [reflexivity|]. rewrite parse_generated. split; [exact Hc|].
  eapply any_name; eauto.
Qed.

Lemma generate_parse_name_witness :
  exists text c,
    generate (record (str "  John   Q  Smith ") [] [] [] []) = Ok text
    /\ parse text = Ok c
    /\ get c "name"
       = JStr (join [32]
                 (split_re re_ws
                    (trim (text_of (get (record (str "  John   Q  Smith ") [] [] [] [])
                                      "name"))))).
Proof.
  apply (generate_parse_name (record (str "  John   Q  Smith ") [] [] [] [])).
  reflexivity.
Defined.

(** X7.  After one round trip the codec is exact.  For a record of
    simple ASCII values (no backslash, semicolon, comma, CR or LF),
    generate followed by parse gives a record that generate followed
    by parse reproduces in all five properties. *)
Theorem second_round_trip_exact (name phone email company eventTag : jstr) :
  simple_value name = true -> simple_value phone = true ->
  simple_value email = true -> simple_value company = true ->
  simple_value eventTag = true ->
  exists text c text' c',
    generate (record name phone email company eventTag) = Ok text
    /\ parse text = Ok c
    /\ generate c = Ok text' /\ parse text' = Ok c'
    /\ get c' "name" = get c "name" /\ get c' "phone" = get c "phone"
    /\ get c' "email" = get c "email" /\ get c' "company" = get c "company"
    /\ get c' "eventTag" = get c "eventTag".
Proof.
  intros Hn Hp He Hc Ht. rewrite generate_lines.
  destruct (parse_lines_shape (vcard_lines name phone email company eventTag)
              emptyRecord emptyRecord_shape) as (c & Hparse & _).
  pose proof (any_name name phone email company eventTag c Hn Hparse) as F1.
  pose proof (any_phone name phone email company eventTag c
                (simple_no_backslash _ Hp) Hparse) as F2.
  pose proof (any_email name phone email company eventTag c
                (simple_line_safe _ He) Hparse) as F3.
  pose proof (any_company name phone email company eventTag c
                (simple_line_safe _ Hc) Hparse) as F4.
  pose proof (any_eventTag name phone email company eventTag c
                (simple_line_safe _ Ht) Hparse) as F5.
  destruct (normal_name name Hn) as [Hn1 Hn2].
  destruct (clean_phone_plain phone Hp) as [Hp1 Hp2].
  destruct (rt_roundtrips _ _ _ _ _ Hn1 Hn2 Hp1 Hp2 He Hc Ht)
    as (text' & c' & Hg' & Hparse' & G1 & G2 & G3 & G4 & G5).
  exists (join CRLF (vcard_lines name phone email company eventTag)), c, text', c'.
  split; [reflexivity|]. split; [rewrite parse_generated; exact Hparse|].
  split.
  { rewrite generate_any, F1, F2, F3, F4, F5. cbn [text_of].
    rewrite generate_lines in Hg'. exact Hg'. }
  split; [exact Hparse'|].
  rewrite F1, F2, F3, F4, F5. auto.
Qed.

Lemma second_round_trip_exact_witness :
  exists text c text' c',
    generate (record (str "John  Smith") (str "(415) 555-2671") (str "j@acme.com")
                (str "Acme") (str "expo")) = Ok text
    /\ parse text = Ok c
    /\ generate c = Ok text' /\ parse text' = Ok c'
    /\ get c' "name" = get c "name" /\ get c' "phone" = get c "phone"
    /\ get c' "email" = get c "email" /\ get c' "company" = get c "company"
    /\ get c' "eventTag" = get c "eventTag".
Proof.
  apply (second_round_trip_exact (str "John  Smith") (str "(415) 555-2671")
           (str "j@acme.com") (str "Acme") (str "expo")); reflexivity.
Defined.

(** X8.  parse does not depend on the line break convention: lines
    joined by any non-empty run of CR and LF (CRLF, LF, CR, blank lines
    between them) are decoded to the same record. *)
Theorem parse_any_line_break (sep1 sep2 : jstr) (lines : list jstr) :
  line_break sep1 = true -> line_break sep2 = true -> plain_lines lines = true ->
  parse (join sep1 lines) = parse (join sep2 lines).
Proof.
  intros H1 H2 Hl. rewrite !parse_joined by assumption. reflexivity.
Qed.

Lemma parse_any_line_break_witness :
  parse (join [10] [str "BEGIN:VCARD"; str "FN:Ann Lee"; str "TEL:5550100"; str "END:VCARD"])
  = parse (join [13; 10; 13; 10]
             [str "BEGIN:VCARD"; str "FN:Ann Lee"; str "TEL:5550100"; str "END:VCARD"]).
Proof.
  apply (parse_any_line_break [10] [13; 10; 13; 10]
           [str "BEGIN:VCARD"; str "FN:Ann Lee"; str "TEL:5550100"; str "END:VCARD"]);
    reflexivity.
Defined.

(** X9.  In a line of a vCard the case of the field name does not
    matter and the parameters after a semicolon are ignored: the line
    is handled as the upper-case field name with everything after the
    first colon as its value. *)
Theorem parse_line_case_and_params (contact : gmap string jsval) (f ps v : jstr) :
  field_name f = true -> field_params ps = true -> line_value v = true ->
  parse_line contact (f ++ ps ++ 58 :: v) = assign contact (toUpperCase f) (JStr v).
Proof.
  intros Hf Hps Hv. unfold parse_line.
  rewrite (read_line_params f ps v Hf Hps Hv). reflexivity.
Qed.

Lemma parse_line_case_and_params_witness :
  parse_line emptyRecord (str "tel" ++ str ";type=work,voice" ++ 58 :: str "5550100")
  = assign emptyRecord (toUpperCase (str "tel")) (JStr (str "5550100")).
Proof.
  apply (parse_line_case_and_params emptyRecord (str "tel") (str ";type=work,voice")
           (str "5550100")); reflexivity.
Defined.

(** X10.  A line without colon, and a line with nothing after its only
    colon, leave the record as it is: an empty value never clears a
    property. *)
Theorem parse_line_skips (contact : gmap string jsval) (f tail : jstr) :
  forallb not_colon f = true -> tail = [] \/ tail = [58] ->
  parse_line contact (f ++ tail) = Ok contact.
Proof.
  intros Hf Ht. apply forallb_Forall in Hf. unfold parse_line.
  destruct Ht as [-> | ->].
  - rewrite app_nil_r, read_line_no_colon by assumption. reflexivity.
  - rewrite read_line_no_value by assumption. reflexivity.
Qed.

Lemma parse_line_skips_witness :
  parse_line (record (str "Ann Lee") [] [] [] []) (str "FN" ++ [58])
  = Ok (record (str "Ann Lee") [] [] [] []).
Proof.
  apply (parse_line_skips (record (str "Ann Lee") [] [] [] []) (str "FN") [58]).
  - reflexivity.
  - right. reflexivity.
Defined.

(** X11.  parse reads a batch as one card.  For a batch made by
    generateBatch, the decoded record has the phone of the first
    contact and the company of the last one (when these are set, the
    phone without backslash, the company without backslash, CR, U+2028
    and U+2029), whatever the contacts in between hold. *)
Theorem generateBatch_parse_merges (contacts : list (gmap string jsval))
    (first final : gmap string jsval) :
  head contacts = Some first -> last contacts = Some final ->
  no_backslash (text_of (get first "phone")) = true ->
  truthy (JStr (replace_all re_phone_clean [] (text_of (get first "phone")))) = true ->
  line_safe (text_of (get final "company")) = true ->
  truthy (get final "company") = true ->
  exists text c,
    generateBatch contacts = Ok text /\ parse text = Ok c
    /\ get c "phone" = JStr (replace_all re_phone_clean [] (text_of (get first "phone")))
    /\ get c "company" = get final "company".
Proof.
  intros Hfirst Hlast Hp1 Hp2 Hc1 Hc2.
  assert (contacts <> []) as Hne by (intros ->; discriminate).
  rewrite generateBatch_text.
  destruct (parse_lines_shape (concat (List.map card_lines contacts))
              emptyRecord emptyRecord_shape) as (c & Hc & _).
  eexists _, c. split; [reflexivity|].
  rewrite parse_batch by assumption. split; [exact Hc|]. split.
  - destruct contacts as [|c0 rest]; [congruence|].
    cbn [head] in Hfirst. inversion Hfirst; subst c0.
    cbn [List.map concat] in Hc. unfold card_lines at 1 in Hc.
    eapply first_card_phone; [exact Hp1| |exact Hc].
    intros E. rewrite E in Hp2. discriminate.
  - apply last_Some in Hlast as (init & ->).
    rewrite List.map_app, concat_app in Hc. cbn [List.map concat] in Hc.
    rewrite app_nil_r in Hc. unfold card_lines at 2 in Hc.
    apply truthy_str in Hc2 as (x & s & E). rewrite E in *. cbn [text_of] in *.
    eapply last_card_company; [exact Hc1|discriminate|exact Hc].
Qed.

Lemma generateBatch_parse_merges_witness :
  exists text c,
    generateBatch [record (str "Ann Lee") (str "555-0100") [] (str "Acme") [];
                   record (str "Bob Ray") (str "555-0199") [] (str "Bolt, Inc") []] = Ok text
    /\ parse text = Ok c
    /\ get c "phone"
       = JStr (replace_all re_phone_clean []
                 (text_of (get (record (str "Ann Lee") (str "555-0100") [] (str "Acme") [])
                             "phone")))
    /\ get c "company"
       = get (record (str "Bob Ray") (str "555-0199") [] (str "Bolt, Inc") []) "company".
Proof.
  apply (generateBatch_parse_merges
           [record (str "Ann Lee") (str "555-0100") [] (str "Acme") [];
            record (str "Bob Ray") (str "555-0199") [] (str "Bolt, Inc") []]
           (record (str "Ann Lee") (str "555-0100") [] (str "Acme") [])
           (record (str "Bob Ray") (str "555-0199") [] (str "Bolt, Inc") []));
    reflexivity.
Defined.

(** * The QR detector *)

(** X12.  A QR code that carries the text generate makes of a record,
    with blanks around it or not, is decoded by detectAndParseVCard to
    a record with the same five properties (for the records of the
    round trip: simple values, a plain phone, a single-spaced name). *)
Theorem detectAndParseVCard_generated (name phone email company eventTag ws1 ws2 : jstr) :
  simple_value name = true -> spaced_name name = true ->
  simple_value phone = true -> plain_phone phone = true ->
  simple_value email = true -> simple_value company = true ->
  simple_value eventTag = true ->
  blank ws1 = true -> blank ws2 = true ->
  exists text c,
    generate (record name phone email company eventTag) = Ok text
    /\ detectAndParseVCard (Some (ws1 ++ text ++ ws2)) = Ok (Some c)
    /\ get c "name" = JStr name /\ get c "phone" = JStr phone
    /\ get c "email" = JStr email /\ get c "company" = JStr company
    /\ get c "eventTag" = JStr eventTag.
Proof.
  intros Hn Hs Hp Hpl He Hc Ht Hw1 Hw2.
  destruct (rt_roundtrips name phone email company eventTag Hn Hs Hp Hpl He Hc Ht)
    as (text & c & Hg & Hparse & Hfields).
  exists text, c. split; [exact Hg|]. split; [|exact Hfields].
  rewrite generate_lines in Hg.
  assert (text = join CRLF (vcard_lines name phone email company eventTag)) as Htext
    by congruence.
  pose proof (generated_edges name phone email company eventTag) as Hedges.
  cbv zeta in Hedges. rewrite <- Htext in Hedges.
  destruct Hedges as (Hstart & Hhead & Hlast).
  unfold detectAndParseVCard.
  rewrite (trim_padded ws1 text ws2 Hw1 Hw2 Hhead Hlast).
  rewrite Hstart. cbn [orb]. rewrite Hparse. reflexivity.
Qed.

Lemma detectAndParseVCard_generated_witness :
  exists text c,
    generate (record (str "Ann Lee") (str "5550100") (str "ann@x.org") (str "Acme")
                (str "expo")) = Ok text
    /\ detectAndParseVCard (Some (str "  " ++ text ++ [10])) = Ok (Some c)
    /\ get c "name" = JStr (str "Ann Lee") /\ get c "phone" = JStr (str "5550100")
    /\ get c "email" = JStr (str "ann@x.org") /\ get c "company" = JStr (str "Acme")
    /\ get c "eventTag" = JStr (str "expo").
Proof.
  apply (detectAndParseVCard_generated (str "Ann Lee") (str "5550100") (str "ann@x.org")
           (str "Acme") (str "expo") (str "  ") [10]); reflexivity.
Defined.

(** X13.  detectAndParseVCard never throws; it returns a record
    exactly when a code was found whose trimmed text contains
    BEGIN:VCARD, and that record has the five string properties. *)
Theorem detectAndParseVCard_total (qrResult : option jstr) :
  exists r,
    detectAndParseVCard qrResult = Ok r
    /\ (r = None <-> match qrResult with
                     | None => True
                     | Some data => includes (trim data) (str "BEGIN:VCARD") = false
                     end)
    /\ (forall c, r = Some c -> record_shape c).
Proof.
  destruct qrResult as [data|]; cbn [detectAndParseVCard].
  2:{ exists None. split; [reflexivity|]. split; [tauto|discriminate]. }
  cbv zeta.
  destruct (includes (trim data) (str "BEGIN:VCARD")) eqn:Ei.
  - rewrite orb_true_r.
    destruct (parse_shape (trim data)) as (c & -> & Hc). cbn [obind].
    exists (Some c). split; [reflexivity|]. split.
    + split; discriminate.
    + intros c' E. inversion E; subst. exact Hc.
  - assert (startsWith (trim data) (str "BEGIN:VCARD") = false) as ->.
    { destruct (startsWith (trim data) (str "BEGIN:VCARD")) eqn:Es; [|reflexivity].
      apply startsWith_includes in Es. congruence. }
    cbn [orb]. exists None. split; [destruct (startsWith _ _); reflexivity|].
    split; [tauto|discriminate].
Qed.

(** * Further properties of the inference *)

(** X14.  The texts cleanText returns are exactly the cleaned texts,
    the same in the two copies: made of ASCII letters and digits, ASCII
    white space and the characters at, dot, comma and hyphen, without
    two neighbouring hyphens, without two neighbouring blanks and
    without a blank at either end.  In particular no plus sign and no
    underscore survives. *)
Theorem cleanText_range (v : variant) (s : jstr) :
  (exists t, cleanText v t = s) <-> cleaned s = true.
Proof.
  rewrite <- (clean_cleaned v). split.
  - intros (t & <-). apply cleanText_clean.
  - intros H. exists s. apply cleanText_fixed, H.
Qed.

(** X15.  The copies of cleanText compute the same function: the web
    copy, whose garbage class holds the bullet U+2022, and the mobile
    copies, which hold the three code units U+00E2, U+20AC, U+00A2 in
    its place, return the same string for every input. *)
Theorem cleanText_copies_agree (s : jstr) : cleanText Web s = cleanText Mobile s.
Proof. rewrite !cleanText_steps. reflexivity. Qed.

(** X16.  cleanText never returns a text longer than the one it is
    given. *)
Theorem cleanText_never_longer (v : variant) (s : jstr) :
  (length (cleanText v s) <= length s)%nat.
Proof. apply cleanText_length. Qed.

(** X17.  classifyLine returns, for every line and from every state
    of the patterns, a classification that carries the line itself as
    original and a confidence fixed by the rule that applied: 10 for
    email and phone, 9 for website and name, 8 for address, 10 or 8 for
    company, 7 for title, 6 for nameOrCompany, 0 for unknown.  Each
    threshold extractContactInfo and normalizeFields put on the
    confidence of a type therefore holds for every line of that type. *)
Theorem classifyLine_confidence (line : jstr) (st : RegExpState) :
  exists cl st',
    classifyLine line st = (Ok cl, st')
    /\ original cl = line
    /\ In (confidence cl) (rule_confidence (type cl))
    /\ match type cl with
       | TName => 9 <= confidence cl
       | TCompany => 8 <= confidence cl
       | TTitle => 7 <= confidence cl
       | TNameOrCompany => 6 <= confidence cl
       | _ => True
       end%nat.
Proof.
  destruct (classifyLine_rule line st) as (cl & st' & E & Ho & Hc).
  exists cl, st'. split; [exact E|]. split; [exact Ho|]. split; [exact Hc|].
  destruct (type cl); cbn [rule_confidence In] in Hc; try exact I; lia.
Qed.

(** X18.  In the record extractContactInfo returns, for every text and
    from every state of the patterns, name and company are cleaned
    texts, and the email holds no upper-case ASCII letter, no blank,
    and an at sign unless it is empty. *)
Theorem infer_fields_form (v : variant) (text : jstr) (st : RegExpState) :
  exists c st' name company email,
    extractContactInfo v text st = (Ok c, st')
    /\ get c "name" = JStr name /\ cleaned name = true
    /\ get c "company" = JStr company /\ cleaned company = true
    /\ get c "email" = JStr email /\ email_form email.
Proof.
  destruct (extractContactInfo_fields v text st)
    as (c & st' & E & _ & He & (n & Hn & Hnc) & (cm & Hcm & Hcc)).
  exists c, st', n, cm, (toLowerCase (trim (emailCandidate v text))).
  split; [exact E|].
  split; [exact Hn|]. split; [apply (clean_cleaned v), Hnc|].
  split; [exact Hcm|]. split; [apply (clean_cleaned v), Hcc|].
  split; [exact He|apply final_email_form].
Qed.

(** X19.  The email and the phone extractContactInfo returns are
    functions of the text alone: whatever the states of the patterns
    two calls start from, they return the same email and the same
    phone (unlike name and company). *)
Theorem infer_email_phone_stateless (v : variant) (text : jstr) (st1 st2 : RegExpState) :
  result_field "email" (extractContactInfo v text st1)
  = result_field "email" (extractContactInfo v text st2)
  /\ result_field "phone" (extractContactInfo v text st1)
     = result_field "phone" (extractContactInfo v text st2).
Proof.
  destruct (extractContactInfo_fields v text st1) as (c1 & s1 & E1 & _ & He1 & _).
  destruct (extractContactInfo_fields v text st2) as (c2 & s2 & E2 & _ & He2 & _).
  destruct (extractContactInfo_spec v text st1) as (d1 & t1 & D1 & _ & Hp1).
  destruct (extractContactInfo_spec v text st2) as (d2 & t2 & D2 & _ & Hp2).
  rewrite E1 in D1. rewrite E2 in D2.
  inversion D1; subst d1 t1. inversion D2; subst d2 t2.
  unfold result_field. rewrite E1, E2. cbn [fst].
  rewrite He1, He2, Hp1, Hp2. auto.
Qed.

(** X20.  processImage of the mobile application never rejects:
    whatever the recogniser returns and from every state of the
    patterns it yields a record of the four string properties; when no
    text was recognised (or a blank one) the record is the empty
    contact and the patterns are left as they were. *)
Theorem processImage_never_rejects (recognized : option jsval) (st : RegExpState) :
  exists c st',
    processImage recognized st = (Ok c, st')
    /\ inferred_shape c
    /\ (extractText recognized = [] -> c = emptyContact /\ st' = st).
Proof.
  unfold processImage. cbv zeta.
  destruct (extractText recognized) as [|x t] eqn:Et.
  - exists emptyContact, st. split; [reflexivity|].
    split; [apply emptyContact_keeps|auto].
  - cbn [truthy negb orb].
    destruct (length (trim (x :: t)) =? 0)%nat.
    + exists emptyContact, st. split; [reflexivity|].
      split; [apply emptyContact_keeps|discriminate].
    + destruct (extractContactInfo_spec Mobile (x :: t) st) as (c & st' & E & Hs & _).
      exists c, st'. unfold catchM. rewrite E.
      split; [reflexivity|]. split; [exact Hs|discriminate].
Qed.

(** * The saved contacts (mobile) *)



(** X22.  After deleteContact no contact with the id is found, and the
    saved contacts are the former ones without those of that id. *)
Theorem deleteContact_removes (time_of : jsval -> option Z) (id : jsval) (st : Store) :
  getContact time_of id (snd (deleteContact time_of id st)) = None
  /\ getAllContacts time_of (snd (deleteContact time_of id st))
     ≡ₚ json_array (List.filter (fun c => negb (has_id id c)) (getAllContacts time_of st)).
Proof. apply deleted_then_gone. Qed.

(** X23.  updateContact throws Contact not found, and leaves the store
    as it is, exactly when no saved contact has the id. *)
Theorem updateContact_missing_id (time_of : jsval -> option Z) (id : jsval)
    (updates : gmap string jsval) (st : Store) :
  Forall (fun c => get c "id" <> id) (getAllContacts time_of st)
  <-> updateContact time_of id updates st = (Throw "Contact not found", st).
Proof. apply update_missing. Qed.



(** X25.  getEventTags lists exactly the non-empty event tags of the
    saved contacts, each once, in strictly ascending order of their
    code units; and every tag it lists selects at least one contact in
    filterByEvent. *)
Theorem getEventTags_sorted_complete (time_of : jsval -> option Z) (st : Store) :
  ascending (getEventTags time_of st) = true
  /\ (forall t, t ∈ getEventTags time_of st
                <-> t <> [] /\ exists c, c ∈ getAllContacts time_of st
                                         /\ get c "eventTag" = JStr t)
  /\ (forall t, t ∈ getEventTags time_of st -> filterByEvent time_of (JStr t) st <> []).
Proof.
  destruct (getEventTags_spec time_of st) as [H1 H2].
  split; [exact H1|]. split; [exact H2|]. intros t. apply tag_selects.
Qed.

